(** * TagPartitionedLogSystem: a shallow embedding of the log-system coordinator

    Source: [fdbserver/TagPartitionedLogSystem.actor.cpp].

    The development follows the source file top-down: the data model
    ([LogSet], [OldLogData], [LogLockInfo], [TagPartitionedLogSystem]),
    the configuration projection ([getLogSystemConfig],
    [fromLogSystemConfig]), the push path, the peek routing, the pop
    coalescer, the durable-version computation, epoch recovery and the
    start-version computation of [newEpoch]. *)

From Stdlib Require Import ZArith List Lia Bool.
From stdpp Require Import gmap list sorting.
From ITree Require Import ITree ITreeFacts Props.Leaf.
Import ListNotations.

#[local] Open Scope Z_scope.
#[local] Set Warnings "-register-all".

(** ** Machine integers

    [Version] is [int64_t].  Additions and subtractions on versions are
    written with their two's-complement wrap-around; the theorems say
    where they need the exact result. *)

Definition Version : Type := Z.

Definition INT64_MAX : Z := 2 ^ 63 - 1.
Definition INT64_MIN : Z := - 2 ^ 63.

Definition int64 (z : Z) : Prop := INT64_MIN <= z <= INT64_MAX.

Definition wrap64 (z : Z) : Z := (z + 2 ^ 63) mod 2 ^ 64 - 2 ^ 63.

Definition vadd (a b : Version) : Version := wrap64 (a + b).
Definition vsub (a b : Version) : Version := wrap64 (a - b).

(** ** Identifiers, tags and opaque collaborators

    [UID], [LocalityData], the replication policy and the log-server
    interface are declared outside this file; the code only stores,
    copies and compares them, so each is an integer token here. *)

Definition UID : Type := Z.
Definition LocalityData : Type := Z.
Definition IRepPolicyRef : Type := Z.
Definition TLogInterface : Type := Z.

Record Tag : Type := mkTag { locality : Z; id : Z }.

#[global] Instance Tag_eq_dec : EqDecision Tag.
Proof. solve_decision. Defined.

#[global] Instance Tag_countable : Countable Tag.
Proof.
  apply (inj_countable' (fun t => (locality t, id t))
                        (fun p => mkTag (fst p) (snd p))).
  intros []; reflexivity.
Defined.

(** [OptionalInterface<TLogInterface>]: the identifier is always known,
    the interface only while the server is reachable. *)
Record OptionalInterface : Type := mkOptionalInterface {
  ident : UID;
  iface : option TLogInterface
}.

Definition present (o : OptionalInterface) : bool :=
  match iface o with Some _ => true | None => false end.

(** Errors of the flow runtime that this file throws or catches. *)
Inductive Error : Type :=
| broken_promise
| master_tlog_failed
| tlog_stopped
| actor_cancelled
| worker_removed
| master_recovery_failed
| internal_error
| other_error (code : Z).

(** Result of a synchronous call: a value, a thrown error (a failed
    [ASSERT] throws [internal_error]), or [Undefined] where the C++ would
    index a vector out of range. *)
Inductive Result (A : Type) : Type :=
| Ok (a : A)
| Throw (e : Error)
| Undefined.

Arguments Ok {A} a.
Arguments Throw {A} e.
Arguments Undefined {A}.

(** State of a [Future<T>] at one instant. *)
Inductive FutureState (A : Type) : Type :=
| Pending
| Ready (a : A)
| Failed (e : Error).

Arguments Pending {A}.
Arguments Ready {A} a.
Arguments Failed {A} e.

Definition isReady {A} (f : FutureState A) : bool :=
  match f with Pending => false | _ => true end.

Definition isError {A} (f : FutureState A) : bool :=
  match f with Failed _ => true | _ => false end.

(** ** LogSet, OldLogData, LogLockInfo *)

Record LogSet : Type := mkLogSet {
  logServers : list OptionalInterface;
  logRouters : list OptionalInterface;
  tLogWriteAntiQuorum : Z;
  tLogReplicationFactor : Z;
  tLogLocalities : list LocalityData;
  tLogPolicy : IRepPolicyRef;
  isLocal : bool;
  hasBestPolicy : Z;
  set_locality : Z;
  startVersion : Version
}.

Record OldLogData : Type := mkOldLogData {
  old_tLogs : list LogSet;
  old_logRouterTags : Z;
  old_epochEnd : Version
}.

(** [TLogLockResult]; the field [end] of the source is [end_] here. *)
Record TLogLockResult : Type := mkTLogLockResult {
  end_ : Version;
  lock_knownCommittedVersion : Version
}.

Record LogLockInfo : Type := mkLogLockInfo {
  lock_epochEnd : Version;
  isCurrent : bool;
  lock_logSet : LogSet;
  replies : list (FutureState TLogLockResult)
}.

(** ** getDurableVersion *)

(** [sort_by_end]: the comparator orders lock results by [end]. *)
Definition sort_by_end (a b : TLogLockResult) : Prop := end_ a <= end_ b.

#[global] Instance sort_by_end_dec a b : Decision (sort_by_end a b).
Proof. unfold sort_by_end. apply _. Defined.

#[global] Instance sort_by_end_total : Total sort_by_end.
Proof. intros a b. unfold sort_by_end. lia. Qed.

#[global] Instance sort_by_end_trans : Transitive sort_by_end.
Proof. intros a b c. unfold sort_by_end. lia. Qed.

(** [std::sort(results.begin(), results.end(), sort_by_end())]. *)
Definition sort_results (l : list TLogLockResult) : list TLogLockResult :=
  merge_sort sort_by_end l.

(** The three vectors filled by the loop over the servers. *)
Record Responses : Type := mkResponses {
  results : list TLogLockResult;
  availableItems : list LocalityData;
  unResponsiveSet : list LocalityData
}.

Definition noResponses : Responses := mkResponses [] [] [].

Definition addAvailable (r : TLogLockResult) (l : LocalityData) (p : Responses) : Responses :=
  mkResponses (results p ++ [r]) (availableItems p ++ [l]) (unResponsiveSet p).

Definition addUnresponsive (l : LocalityData) (p : Responses) : Responses :=
  mkResponses (results p) (availableItems p) (unResponsiveSet p ++ [l]).

(** One iteration of [for(int t=0; t<logSet->logServers.size(); t++)]. *)
Definition classifyServer (lockInfo : LogLockInfo) (failed : list bool) (t : nat)
    (p : Responses) : Result Responses :=
  match replies lockInfo !! t, tLogLocalities (lock_logSet lockInfo) !! t with
  | Some (Ready r), Some l =>
      match failed with
      | [] => Ok (addAvailable r l p)
      | _ =>
          match failed !! t with
          | Some true => Ok (addUnresponsive l p)
          | Some false => Ok (addAvailable r l p)
          | None => Undefined
          end
      end
  | Some _, Some l => Ok (addUnresponsive l p)
  | _, _ => Undefined
  end.

Fixpoint classifyServers (lockInfo : LogLockInfo) (failed : list bool) (ts : list nat)
    (p : Responses) : Result Responses :=
  match ts with
  | [] => Ok p
  | t :: ts' =>
      match classifyServer lockInfo failed t p with
      | Ok p' => classifyServers lockInfo failed ts' p'
      | Throw e => Throw e
      | Undefined => Undefined
      end
  end.

Definition respondedServers (lockInfo : LogLockInfo) (failed : list bool) : Result Responses :=
  classifyServers lockInfo failed
    (seq 0 (length (logServers (lock_logSet lockInfo)))) noResponses.

(** The loop [knownCommittedVersion = std::max(knownCommittedVersion, results[i].knownCommittedVersion)]. *)
Definition maxKnownCommitted (init : Version) (rs : list TLogLockResult) : Version :=
  fold_left (fun acc r => Z.max acc (lock_knownCommittedVersion r)) rs init.

(** ** The pop coalescer's background tasks

    One [PopTask] per call of the actor [popFromLog].  [LogServerDelay] is
    the delay [1.0] used for log servers, [LogRouterDelay] the delay [0.0]
    used for log routers.  A task is suspended either in [wait(delay(time))]
    or in the [wait] on the reply of the pop request it sent; a task that
    returned stays in the collection as [Finished], so a task is named by
    its position. *)

Inductive PopDelay : Type := LogServerDelay | LogRouterDelay.

Inductive PopTaskState : Type :=
| Delaying
| AwaitingReply (to : Version * Version)
| Finished.

Record PopTask : Type := mkPopTask {
  pop_log : UID;
  pop_tag : Tag;
  pop_time : PopDelay;
  pop_last : Version;
  pop_state : PopTaskState
}.

(** [TLogPopRequest(upTo, knownCommittedVersion, tag)] as sent to a server. *)
Record TLogPopRequest : Type := mkTLogPopRequest {
  popreq_to : Version;
  popreq_knownCommittedVersion : Version;
  popreq_tag : Tag
}.

(** ** TagPartitionedLogSystem

    A [Future<Void>] member is [None] while it is the default-constructed
    invalid future.  [actors] holds the [popFromLog] tasks. *)

Record TagPartitionedLogSystem : Type := mkTagPartitionedLogSystem {
  sys_dbgid : UID;
  logSystemType : Z;
  tLogs : list LogSet;
  expectedLogSets : Z;
  logRouterTags : Z;
  recruitmentID : UID;
  stopped : bool;
  rejoins : option (FutureState unit);
  recoveryComplete : option (FutureState unit);
  remoteRecovery : option (FutureState unit);
  remoteRecoveryComplete : option (FutureState unit);
  lockResults : list LogLockInfo;
  recoveryCompleteWrittenToCoreState : bool;
  remoteLogsWrittenToCoreState : bool;
  hasRemoteServers : bool;
  epochEndVersion : option Version;
  knownCommittedVersion : Version;
  sys_locality : LocalityData;
  outstandingPops : gmap (UID * Tag) (Version * Version);
  actors : list PopTask;
  oldLogData : list OldLogData
}.

Definition set_outstandingPops (m : gmap (UID * Tag) (Version * Version))
    (s : TagPartitionedLogSystem) : TagPartitionedLogSystem :=
  mkTagPartitionedLogSystem (sys_dbgid s) (logSystemType s) (tLogs s) (expectedLogSets s)
    (logRouterTags s) (recruitmentID s) (stopped s) (rejoins s) (recoveryComplete s)
    (remoteRecovery s) (remoteRecoveryComplete s) (lockResults s)
    (recoveryCompleteWrittenToCoreState s) (remoteLogsWrittenToCoreState s)
    (hasRemoteServers s) (epochEndVersion s) (knownCommittedVersion s) (sys_locality s)
    m (actors s) (oldLogData s).

Definition set_actors (a : list PopTask) (s : TagPartitionedLogSystem)
    : TagPartitionedLogSystem :=
  mkTagPartitionedLogSystem (sys_dbgid s) (logSystemType s) (tLogs s) (expectedLogSets s)
    (logRouterTags s) (recruitmentID s) (stopped s) (rejoins s) (recoveryComplete s)
    (remoteRecovery s) (remoteRecoveryComplete s) (lockResults s)
    (recoveryCompleteWrittenToCoreState s) (remoteLogsWrittenToCoreState s)
    (hasRemoteServers s) (epochEndVersion s) (knownCommittedVersion s) (sys_locality s)
    (outstandingPops s) a (oldLogData s).

Definition set_tLogs (sets : list LogSet) (olds : list OldLogData)
    (s : TagPartitionedLogSystem) : TagPartitionedLogSystem :=
  mkTagPartitionedLogSystem (sys_dbgid s) (logSystemType s) sets (expectedLogSets s)
    (logRouterTags s) (recruitmentID s) (stopped s) (rejoins s) (recoveryComplete s)
    (remoteRecovery s) (remoteRecoveryComplete s) (lockResults s)
    (recoveryCompleteWrittenToCoreState s) (remoteLogsWrittenToCoreState s)
    (hasRemoteServers s) (epochEndVersion s) (knownCommittedVersion s) (sys_locality s)
    (outstandingPops s) (actors s) olds.

(** ** The pop coalescer seen from outside *)

(** What resumes a suspended [popFromLog]: the delay elapses (and the handle
    is or is not present at that instant), the reply to the pop request
    settles, or the task is cancelled. *)
Inductive PopEvent : Type :=
| DelayElapsed (isPresent : bool)
| ReplySettled (reply : FutureState unit)
| Cancelled.

(** The log system together with the pop requests put on the wire, oldest
    first, each with the index of the task that sent it and the server it
    went to. *)
Record PopWorld : Type := mkPopWorld {
  world_system : TagPartitionedLogSystem;
  wire : list (nat * UID * TLogPopRequest)
}.

Inductive PopAction : Type :=
| CallPop (upTo : Version) (tag : Tag) (knownCommittedVersion : Version) (popLocality : Z)
| CallPopLogRouter (upTo : Version) (tag : Tag) (knownCommittedVersion : Version)
    (popLocality : Z)
| Resume (i : nat) (ev : PopEvent)
| SetsChanged (sets : list LogSet) (olds : list OldLogData).

(** ** LogSystemConfig (the projection exchanged with other processes) *)

Record TLogSet : Type := mkTLogSet {
  conf_tLogs : list OptionalInterface;
  conf_logRouters : list OptionalInterface;
  conf_tLogWriteAntiQuorum : Z;
  conf_tLogReplicationFactor : Z;
  conf_tLogLocalities : list LocalityData;
  conf_tLogPolicy : IRepPolicyRef;
  conf_isLocal : bool;
  conf_hasBestPolicy : Z;
  conf_locality : Z;
  conf_startVersion : Version
}.

Record OldTLogConf : Type := mkOldTLogConf {
  oldconf_tLogs : list TLogSet;
  oldconf_logRouterTags : Z;
  oldconf_epochEnd : Version
}.

Record LogSystemConfig : Type := mkLogSystemConfig {
  lsConf_logSystemType : Z;
  lsConf_tLogs : list TLogSet;
  lsConf_oldTLogs : list OldTLogConf;
  lsConf_expectedLogSets : Z;
  lsConf_logRouterTags : Z;
  lsConf_recruitmentID : UID;
  lsConf_stopped : bool
}.

(** ** DBCoreState (the persisted form read by recovery) *)

Record CoreTLogSet : Type := mkCoreTLogSet {
  core_tLogs : list UID;
  core_tLogWriteAntiQuorum : Z;
  core_tLogReplicationFactor : Z;
  core_tLogLocalities : list LocalityData;
  core_tLogPolicy : IRepPolicyRef;
  core_isLocal : bool;
  core_hasBestPolicy : Z;
  core_locality : Z;
  core_startVersion : Version
}.

Record OldTLogCoreData : Type := mkOldTLogCoreData {
  oldcore_tLogs : list CoreTLogSet;
  oldcore_logRouterTags : Z;
  oldcore_epochEnd : Version
}.

Record DBCoreState : Type := mkDBCoreState {
  prev_tLogs : list CoreTLogSet;
  prev_logRouterTags : Z;
  prev_oldTLogData : list OldTLogCoreData;
  prev_logSystemType : Z
}.

(** ** Commit requests *)

Definition StringRef : Type := list Z.

(** [LogPushData]: the serialized messages, indexed by push location. *)
Definition LogPushData : Type := nat -> StringRef.

Record TLogCommitRequest : Type := mkTLogCommitRequest {
  commit_prevVersion : Version;
  commit_version : Version;
  commit_knownCommittedVersion : Version;
  commit_messages : StringRef;
  commit_debugID : option UID
}.

(** ** Peek cursors

    The cursors are built here and run elsewhere; a cursor is the record of
    the constructor call that made it.  A server handle is [None] for the
    null [Reference]. *)

Inductive IPeekCursor : Type :=
| ServerPeekCursor (interf : option OptionalInterface) (tag : Tag)
    (begin end' : Version) (returnIfBlocked parallelGetMore : bool)
| SetPeekCursor (logSets : list LogSet) (bestSet bestServer : Z) (tag : Tag)
    (begin end' : Version) (parallelGetMore : bool)
| MergedPeekCursor (servers : list OptionalInterface) (bestServer readQuorum : Z)
    (tag : Tag) (begin end' : Version) (parallelGetMore : bool)
    (tLogLocalities : list LocalityData) (tLogPolicy : option IRepPolicyRef)
    (tLogReplicationFactor : Z)
| MergedPeekCursorOver (serverCursors : list IPeekCursor) (begin : Version)
    (collectTags : bool)
| MultiCursor (cursors : list IPeekCursor) (epochEnds : list Version).

Definition set_replies (rs : list (FutureState TLogLockResult)) (l : LogLockInfo)
    : LogLockInfo :=
  mkLogLockInfo (lock_epochEnd l) (isCurrent l) (lock_logSet l) rs.

(** ** Epoch recovery as seen from outside

    What the actor [epochEnd] finds when [wait(waitForAny(changes))]
    resumes it: the states of the lock replies of every lock result and the
    failure flags of the servers of every current set. *)
Record Observation : Type := mkObservation {
  obs_replies : list (list (FutureState TLogLockResult));
  obs_logFailed : list (list bool)
}.

(** The interactions of [epochEnd]: it publishes a log system through
    [outLogSystem], waits on [Never()] (from which nothing resumes it), throws,
    indexes out of range, or waits for a change. *)
Variant epochE : Type -> Type :=
| SetOutLogSystem (logSystem : TagPartitionedLogSystem) : epochE unit
| WaitNever : epochE Empty_set
| ThrowError (e : Error) : epochE Empty_set
| OutOfRange : epochE Empty_set
| WaitForAnyChange : epochE Observation.

(** ** The state of [trackRejoins]

    The handles it was given, [lastReply] (the reply promise of a request is
    named by the position of the request in the stream), the answers sent
    so far, oldest first, and the number of requests received. *)
Record RejoinState : Type := mkRejoinState {
  rejoin_logServers : list OptionalInterface;
  lastReply : gmap UID nat;
  replied : list (nat * bool);
  received : nat
}.

(** The order of [std::map<UID, ...>]: by key. *)
Definition by_key (a b : UID * nat) : Prop := fst a <= fst b.

#[global] Instance by_key_dec a b : Decision (by_key a b).
Proof. unfold by_key. apply _. Defined.

(** ** Scenarios *)

(** S2: four servers, [R = 3], [A = 1], all responded. *)
Definition lockInfoS2 : LogLockInfo :=
  mkLogLockInfo INT64_MAX true
    (mkLogSet (List.map (fun i => mkOptionalInterface i (Some i)) [1; 2; 3; 4]) []
       1 3 [11; 12; 13; 14] 0 true 1 0 0)
    [Ready (mkTLogLockResult 70 48); Ready (mkTLogLockResult 50 40);
     Ready (mkTLogLockResult 80 49); Ready (mkTLogLockResult 60 45)].

(** S3: three servers, [R = 3], [A = 0], one reply present, two pending. *)
Definition lockInfoS3 : LogLockInfo :=
  mkLogLockInfo INT64_MAX true
    (mkLogSet (List.map (fun i => mkOptionalInterface i (Some i)) [1; 2; 3]) []
       0 3 [11; 12; 13] 0 true 1 0 0)
    [Ready (mkTLogLockResult 100 99); Pending; Pending].

(** S3 with no reply at all: the three unresponsive servers validate the
    policy and the result is empty. *)
Definition lockInfoS3' : LogLockInfo :=
  mkLogLockInfo INT64_MAX true (lock_logSet lockInfoS3) [Pending; Pending; Pending].


(** A primary set of three servers and a remote set of two. *)
Definition primarySet : LogSet :=
  mkLogSet (List.map (fun i => mkOptionalInterface i (Some i)) [1; 2; 3])
    [] 0 2 [11; 12; 13] 7 true 1 0 200.

Definition remoteSet : LogSet :=
  mkLogSet (List.map (fun i => mkOptionalInterface i (Some i)) [4; 5])
    [mkOptionalInterface 6 (Some 6)] 0 1 [14; 15] 8 false 1 1 200.

Definition oldGeneration : OldLogData :=
  mkOldLogData
    [mkLogSet (List.map (fun i => mkOptionalInterface i None) [21; 22; 23])
       [] 0 2 [11; 12; 13] 7 true 1 0 0] 0 200.

(** A running system whose remote set has been written to the core state. *)
Definition systemWithRemote : TagPartitionedLogSystem :=
  mkTagPartitionedLogSystem 1 2 [primarySet; remoteSet] 2 3 42 false
    None None None None [] false true true None 199 0 ∅ [] [oldGeneration].

(** The same system before [coreStateWritten] has seen the remote set. *)
Definition systemRemoteUnwritten : TagPartitionedLogSystem :=
  mkTagPartitionedLogSystem 1 2 [primarySet; remoteSet] 2 3 42 false
    None None None None [] false false true None 199 0 ∅ [] [oldGeneration].

(** The system once the completed recovery has been written to the core
    state, and a system of a log system type this class does not build. *)
Definition systemRecoveryWritten : TagPartitionedLogSystem :=
  mkTagPartitionedLogSystem 1 2 [primarySet; remoteSet] 2 3 42 false
    None None None None [] true true true None 199 0 ∅ [] [oldGeneration].

Definition systemOfTypeOne : TagPartitionedLogSystem :=
  mkTagPartitionedLogSystem 1 1 [primarySet] 1 0 42 false
    None None None None [] false true false None 199 0 ∅ [] [].

(** A set of three servers that tolerates one missing acknowledgement. *)
Definition antiQuorumSet : LogSet :=
  mkLogSet (List.map (fun i => mkOptionalInterface i (Some i)) [1; 2; 3])
    [] 1 3 [11; 12; 13] 7 true 1 0 200.

Definition systemWithAntiQuorum : TagPartitionedLogSystem :=
  mkTagPartitionedLogSystem 1 2 [remoteSet; antiQuorumSet] 2 3 42 false
    None None None None [] false true true None 199 0 ∅ [] [].

(** Commit replies: the second server of the set has not answered. *)
Definition twoOfThreeReplied (location : nat) : FutureState unit :=
  match location with
  | 1%nat => Pending
  | _ => Ready tt
  end.

(** A system whose only generation starts at version 200. *)
Definition systemNoHistory : TagPartitionedLogSystem :=
  mkTagPartitionedLogSystem 1 2 [primarySet] 1 0 42 false
    None None None None [] false false false None 199 0 ∅ [] [].

(** A stopped system without log sets, as published for a new database. *)
Definition systemNoSets : TagPartitionedLogSystem :=
  mkTagPartitionedLogSystem 1 0 [] 0 0 0 true
    None None None None [] false false false (Some 0) 0 0 ∅ [] [].

(** A storage-server tag of locality 0, and the values the client library
    gives to the special tag localities and to [txsTag]. *)
Definition storageTag : Tag := mkTag 0 5.
Definition theTxsTag : Tag := mkTag (-1) 1.
Definition theInvalidTag : Tag := mkTag (-1) 0.

(** A system with a single log server. *)
Definition singleServerSet : LogSet :=
  mkLogSet [mkOptionalInterface 1 (Some 1)] [] 0 1 [11] 7 true 1 0 0.

Definition worldOneServer : PopWorld :=
  mkPopWorld
    (mkTagPartitionedLogSystem 1 2 [singleServerSet] 1 0 42 false
       None None None None [] false false false None 0 0 ∅ [] [])
    [].

(** S4: [pop(10)], then [pop(5)] before the first is sent, then [pop(15)]
    while the request for 10 is in flight; the task sends 10, then 15, and
    returns.  The first four fields are the calls' [upTo], tag,
    [knownCommittedVersion] and [popLocality] ([tagLocalityInvalid] is -99). *)
Definition scenarioS4 : list PopAction :=
  [CallPop 10 storageTag 5 (-99);
   CallPop 5 storageTag 4 (-99);
   Resume 0 (DelayElapsed true);
   CallPop 15 storageTag 12 (-99);
   Resume 0 (ReplySettled (Ready tt));
   Resume 0 (DelayElapsed true);
   Resume 0 (ReplySettled (Ready tt))].

(** A pop that completes, followed by a pop to a lower version. *)
Definition scenarioLowerPop : list PopAction :=
  [CallPop 10 storageTag 5 (-99);
   Resume 0 (DelayElapsed true);
   Resume 0 (ReplySettled (Ready tt));
   Resume 0 (DelayElapsed true);
   CallPop 5 storageTag 4 (-99);
   Resume 1 (DelayElapsed true)].

(** The core state of a brand new database. *)
Definition newDatabaseState : DBCoreState := mkDBCoreState [] 0 [] 0.

(** A stopped system with a lock result taken from an older generation of
    locality 0, whose servers have not answered yet. *)
Definition oldLock : LogLockInfo :=
  mkLogLockInfo 150 false primarySet [Pending; Pending; Pending].

Definition stoppedSystem : TagPartitionedLogSystem :=
  mkTagPartitionedLogSystem 1 2 [remoteSet] 1 0 42 true
    None None None None [oldLock] false true false (Some 199) 199 0 ∅ [] [].

(** S1: the three lock replies, as they arrive later. *)
Definition repliesS1 : list (FutureState TLogLockResult) :=
  [Ready (mkTLogLockResult 100 99); Ready (mkTLogLockResult 100 99);
   Ready (mkTLogLockResult 102 100)].

(** ** Further scenarios *)

(** The responses of S3: one reply, two servers without one. *)
Definition responsesS3 : Responses :=
  mkResponses [mkTLogLockResult 100 99] [11] [12; 13].

(** The replies of S2 in their order of arrival, and sorted by hand. *)
Definition repliesS2 : list TLogLockResult :=
  [mkTLogLockResult 70 48; mkTLogLockResult 50 40;
   mkTLogLockResult 80 49; mkTLogLockResult 60 45].

Definition sortedS2 : list TLogLockResult :=
  [mkTLogLockResult 50 40; mkTLogLockResult 60 45;
   mkTLogLockResult 70 48; mkTLogLockResult 80 49].

(** S5: a peek of [storageTag] from version 100 up to 1000 on
    [systemWithRemote], whose current generation starts at 200 and whose
    old generation starts at 0. *)
Definition cursorsS5 : list IPeekCursor :=
  [SetPeekCursor [primarySet] 0 0 storageTag 200 1000 false;
   SetPeekCursor (old_tLogs oldGeneration) 0 0 storageTag 100 200 false].

(** The same peek through [peekLocal]. *)
Definition localCursorsS5 : list IPeekCursor :=
  [ServerPeekCursor (Some (mkOptionalInterface 1 (Some 1))) storageTag 200 1000 false false;
   MergedPeekCursor (List.map (fun i => mkOptionalInterface i None) [21; 22; 23]) 0 2
     storageTag 100 200 false [11; 12; 13] (Some 7) 2].

(** A tag history for [peekSingle], newest first, in two parts: the tag
    was [0:7] up to version 300, and before that [0:8] up to version 200. *)
Definition tagHistory : list (Version * Tag) := [(300, mkTag 0 7)].
Definition staleHistory : list (Version * Tag) := [(200, mkTag 0 8)].

(** A pop whose request fails, and what is tried afterwards. *)
Definition scenarioPopUntilSent : list PopAction :=
  [CallPop 10 storageTag 5 (-99); Resume 0 (DelayElapsed true)].

Definition scenarioAfterFailure : list PopAction :=
  [CallPop 20 storageTag 15 (-99); Resume 0 (DelayElapsed true);
   Resume 1 (DelayElapsed true)].

Definition taskAwaiting : PopTask := mkPopTask 1 storageTag LogServerDelay 0 (AwaitingReply (10, 5)).

(** The system after [pop(10)] of [storageTag] on [worldOneServer]. *)
Definition systemPopped : TagPartitionedLogSystem :=
  mkTagPartitionedLogSystem 1 2 [singleServerSet] 1 0 42 false
    None None None None [] false false false None 0 0
    {[ (1, storageTag) := (10, 5) ]}
    [mkPopTask 1 storageTag LogServerDelay 0 Delaying] [].

(** Rejoin requests of server 1, of an unknown server 9, and of server 1
    again; an interface is named by its id, its endpoint is its id. *)
Definition rejoinRequests : list TLogInterface := [1; 9; 1].

(** A system with two old generations, the newer one starting at version
    100 and the older one at version 150, which is not below the newer. *)
Definition olderSet (start : Version) : LogSet :=
  mkLogSet (List.map (fun i => mkOptionalInterface i None) [21; 22; 23])
    [] 0 2 [11; 12; 13] 7 true 1 0 start.

Definition systemWithHistory : TagPartitionedLogSystem :=
  mkTagPartitionedLogSystem 1 2 [primarySet] 1 0 42 false
    None None None None [] false false false None 199 0 ∅ []
    [mkOldLogData [olderSet 100] 0 200; mkOldLogData [olderSet 150] 0 100].

Section TagPartitionedLogSystem.

(** The replication-policy library and the knobs. *)
Variable validate : list LocalityData -> IRepPolicyRef -> bool.
Variable validateAllCombinations :
  list LocalityData -> IRepPolicyRef -> list LocalityData -> Z -> bool -> bool.
Variable isSimulated : bool.
Variable VERSIONS_PER_SECOND : Z.
Variable MAX_READ_TRANSACTION_LIFE_VERSIONS : Z.

Definition lifeVersions : Version :=
  if isSimulated then wrap64 (10 * VERSIONS_PER_SECOND)
  else MAX_READ_TRANSACTION_LIFE_VERSIONS.

Definition bTooManyFailures (logSet : LogSet) (p : Responses) : bool :=
  let b0 := Z.of_nat (length (results p)) <=? tLogWriteAntiQuorum logSet in
  let b1 := b0 || ((tLogReplicationFactor logSet <=? Z.of_nat (length (unResponsiveSet p)))
                   && validate (unResponsiveSet p) (tLogPolicy logSet)) in
  if negb b1 && negb (tLogWriteAntiQuorum logSet =? 0)
     && negb (validateAllCombinations (unResponsiveSet p) (tLogPolicy logSet)
                (availableItems p) (tLogWriteAntiQuorum logSet) false)
  then true else b1.

Definition getDurableVersion (dbgid : UID) (lockInfo : LogLockInfo)
    (failed : list bool) (lastEnd : option Version) : Result (option (Version * Version)) :=
  let logSet := lock_logSet lockInfo in
  let N := Z.of_nat (length (logServers logSet)) in
  let requiredCount := N + 1 - tLogReplicationFactor logSet + tLogWriteAntiQuorum logSet in
  if negb ((0 <? requiredCount) && (requiredCount <=? N)) then Throw internal_error else
  if negb ((1 <=? tLogReplicationFactor logSet) && (tLogReplicationFactor logSet <=? N))
  then Throw internal_error else
  if negb ((0 <=? tLogWriteAntiQuorum logSet) && (tLogWriteAntiQuorum logSet <? N))
  then Throw internal_error else
  match respondedServers lockInfo failed with
  | Ok p =>
      let tooMany := bTooManyFailures logSet p in
      if negb (N =? Z.of_nat (length (replies lockInfo))) then Throw internal_error else
      if tooMany then Ok None else
      let sorted := sort_results (results p) in
      let size := Z.of_nat (length sorted) in
      let absent := N - size in
      let new_safe_range_begin := Z.min (tLogWriteAntiQuorum logSet) (size - 1) in
      let safe_range_end := tLogReplicationFactor logSet - absent in
      let proceed :=
        match lastEnd with
        | None => true
        | Some le =>
            (0 <? safe_range_end) && (safe_range_end - 1 <? size)
            && match sorted !! Z.to_nat (safe_range_end - 1) with
               | Some r => end_ r <? le
               | None => false
               end
        end in
      if proceed then
        if new_safe_range_begin <? 0 then Undefined else
        match sorted !! Z.to_nat new_safe_range_begin with
        | Some r =>
            let knownCommittedVersion :=
              maxKnownCommitted (vsub (end_ r) lifeVersions) sorted in
            Ok (Some (knownCommittedVersion, end_ r))
        | None => Undefined
        end
      else Ok None
  | Throw e => Throw e
  | Undefined => Undefined
  end.

(** The three [ASSERT]s on the set's parameters and the one on the reply
    vector pass. *)
Definition paramsOk (lockInfo : LogLockInfo) : Prop :=
  let logSet := lock_logSet lockInfo in
  let N := Z.of_nat (length (logServers logSet)) in
  let requiredCount := N + 1 - tLogReplicationFactor logSet + tLogWriteAntiQuorum logSet in
  0 < requiredCount <= N /\
  1 <= tLogReplicationFactor logSet <= N /\
  0 <= tLogWriteAntiQuorum logSet < N /\
  length (replies lockInfo) = length (logServers logSet).

(** ** Construction and the configuration projection *)

(** [filterLocalityDataForPolicy] belongs to the replication library. *)
Variable filterLocalityDataForPolicy : IRepPolicyRef -> list LocalityData -> list LocalityData.

(** The constructor's initializer list leaves [knownCommittedVersion]
    unset; [indeterminate] stands for whatever the member then holds. *)
Variable indeterminate : Version.

Definition newTagPartitionedLogSystem (dbgid : UID) (locality : LocalityData)
    : TagPartitionedLogSystem :=
  mkTagPartitionedLogSystem dbgid 0 [] 0 0 0 false None None None None []
    false false false None indeterminate locality ∅ [] [].

(** The field-by-field copy of a [TLogSet] into a fresh [LogSet]. *)
Definition logSetOfTLogSet (t : TLogSet) : LogSet :=
  mkLogSet (conf_tLogs t) (conf_logRouters t) (conf_tLogWriteAntiQuorum t)
    (conf_tLogReplicationFactor t) (conf_tLogLocalities t) (conf_tLogPolicy t)
    (conf_isLocal t) (conf_hasBestPolicy t) (conf_locality t) (conf_startVersion t).

(** [filterLocalityDataForPolicy(logSet->tLogPolicy, &logSet->tLogLocalities)];
    [updateLocalitySet] only rebuilds caches that are not part of [LogSet] here. *)
Definition filterLogSetLocalities (s : LogSet) : LogSet :=
  mkLogSet (logServers s) (logRouters s) (tLogWriteAntiQuorum s) (tLogReplicationFactor s)
    (filterLocalityDataForPolicy (tLogPolicy s) (tLogLocalities s)) (tLogPolicy s)
    (isLocal s) (hasBestPolicy s) (set_locality s) (startVersion s).

Definition oldLogDataOfConf (o : OldTLogConf) : OldLogData :=
  mkOldLogData (List.map logSetOfTLogSet (oldconf_tLogs o))
    (oldconf_logRouterTags o) (oldconf_epochEnd o).

Definition fromLogSystemConfig (dbgid : UID) (locality : LocalityData)
    (lsConf : LogSystemConfig) (excludeRemote : bool) : Result TagPartitionedLogSystem :=
  if negb ((lsConf_logSystemType lsConf =? 2)
           || ((lsConf_logSystemType lsConf =? 0)
               && (Nat.eqb (length (lsConf_tLogs lsConf)) 0)))
  then Throw internal_error else
  let logSystem := newTagPartitionedLogSystem dbgid locality in
  let sets :=
    List.map (fun tLogSet => filterLogSetLocalities (logSetOfTLogSet tLogSet))
      (List.filter (fun tLogSet => negb excludeRemote || conf_isLocal tLogSet)
         (lsConf_tLogs lsConf)) in
  Ok (mkTagPartitionedLogSystem (sys_dbgid logSystem) (lsConf_logSystemType lsConf) sets
        (lsConf_expectedLogSets lsConf) (lsConf_logRouterTags lsConf)
        (lsConf_recruitmentID lsConf) (lsConf_stopped lsConf)
        (rejoins logSystem) (recoveryComplete logSystem) (remoteRecovery logSystem)
        (remoteRecoveryComplete logSystem) (lockResults logSystem)
        (recoveryCompleteWrittenToCoreState logSystem)
        (remoteLogsWrittenToCoreState logSystem) (hasRemoteServers logSystem)
        (epochEndVersion logSystem) (knownCommittedVersion logSystem)
        (sys_locality logSystem) (outstandingPops logSystem) (actors logSystem)
        (List.map oldLogDataOfConf (lsConf_oldTLogs lsConf))).

Definition fromOldLogSystemConfig (dbgid : UID) (locality : LocalityData)
    (lsConf : LogSystemConfig) : Result TagPartitionedLogSystem :=
  if negb ((lsConf_logSystemType lsConf =? 2)
           || ((lsConf_logSystemType lsConf =? 0)
               && (Nat.eqb (length (lsConf_tLogs lsConf)) 0)))
  then Throw internal_error else
  let logSystem := newTagPartitionedLogSystem dbgid locality in
  let '(sets, routerTags, olds) :=
    match lsConf_oldTLogs lsConf with
    | [] => (tLogs logSystem, logRouterTags logSystem, oldLogData logSystem)
    | o :: rest =>
        (List.map logSetOfTLogSet (oldconf_tLogs o), oldconf_logRouterTags o,
         List.map oldLogDataOfConf rest)
    end in
  Ok (mkTagPartitionedLogSystem (sys_dbgid logSystem) (lsConf_logSystemType lsConf) sets
        (expectedLogSets logSystem) routerTags
        (recruitmentID logSystem) true
        (rejoins logSystem) (recoveryComplete logSystem) (remoteRecovery logSystem)
        (remoteRecoveryComplete logSystem) (lockResults logSystem)
        (recoveryCompleteWrittenToCoreState logSystem)
        (remoteLogsWrittenToCoreState logSystem) (hasRemoteServers logSystem)
        (epochEndVersion logSystem) (knownCommittedVersion logSystem)
        (sys_locality logSystem) (outstandingPops logSystem) (actors logSystem)
        olds).

Definition tLogSetOfLogSet (logSet : LogSet) : TLogSet :=
  mkTLogSet (logServers logSet) (logRouters logSet) (tLogWriteAntiQuorum logSet)
    (tLogReplicationFactor logSet) (tLogLocalities logSet) (tLogPolicy logSet)
    (isLocal logSet) (hasBestPolicy logSet) (set_locality logSet) (startVersion logSet).

Definition getLogSystemConfig (self : TagPartitionedLogSystem) : LogSystemConfig :=
  mkLogSystemConfig (logSystemType self)
    (List.map tLogSetOfLogSet
       (List.filter (fun logSet => isLocal logSet || remoteLogsWrittenToCoreState self)
          (tLogs self)))
    (if recoveryCompleteWrittenToCoreState self then []
     else List.map (fun old => mkOldTLogConf (List.map tLogSetOfLogSet (old_tLogs old))
                                 (old_logRouterTags old) (old_epochEnd old))
            (oldLogData self))
    (expectedLogSets self) (logRouterTags self) (recruitmentID self) (stopped self).

(** [coreStateWritten]. *)
Definition coreStateWritten (self : TagPartitionedLogSystem) (newState : DBCoreState)
    : TagPartitionedLogSystem :=
  mkTagPartitionedLogSystem (sys_dbgid self) (logSystemType self) (tLogs self)
    (expectedLogSets self) (logRouterTags self) (recruitmentID self) (stopped self)
    (rejoins self) (recoveryComplete self) (remoteRecovery self)
    (remoteRecoveryComplete self) (lockResults self)
    (match prev_oldTLogData newState with
     | [] => true
     | _ => recoveryCompleteWrittenToCoreState self
     end)
    (if forallb core_isLocal (prev_tLogs newState)
     then remoteLogsWrittenToCoreState self else true)
    (hasRemoteServers self) (epochEndVersion self) (knownCommittedVersion self)
    (sys_locality self) (outstandingPops self) (actors self) (oldLogData self).

(** ** Push *)

Definition reportTLogCommitErrors (commitReply : FutureState unit) (debugID : UID)
    : FutureState unit :=
  match commitReply with
  | Failed broken_promise => Failed master_tlog_failed
  | other => other
  end.

Definition succeeded {A} (f : FutureState A) : bool :=
  match f with Ready _ => true | _ => false end.

Definition firstError {A} (fs : list (FutureState A)) : option Error :=
  match List.filter isError fs with
  | Failed e :: _ => Some e
  | _ => None
  end.

(** Modelled from the spec: [quorum(fs, k)] of the flow library, whose source
    is not part of this file: it "completes when [k] succeed" and "errors when
    too many error such that [k] becomes impossible".  The state is read
    off the states of [fs] at one instant. *)
Definition quorum (fs : list (FutureState unit)) (k : Z) : FutureState unit :=
  if k <=? Z.of_nat (length (List.filter succeeded fs)) then Ready tt
  else
    match firstError fs with
    | Some e =>
        if Z.of_nat (length fs) - k <? Z.of_nat (length (List.filter isError fs))
        then Failed e else Pending
    | None => Pending
    end.

(** Modelled from the spec: [waitForAll(fs)] of the flow library: it completes
    when every future has completed and fails as soon as one has failed. *)
Definition waitForAll (fs : list (FutureState unit)) : FutureState unit :=
  match firstError fs with
  | Some e => Failed e
  | None => if forallb succeeded fs then Ready tt else Pending
  end.

Definition nonEmpty {A} (l : list A) : bool :=
  match l with [] => false | _ => true end.

(** The inner loop of [push] over the servers of one set.  [reply loc] is
    the state of the reply to the commit request sent for push location
    [loc]; [interf()] of an absent interface fails its assertion. *)
Fixpoint pushToServers (servers : list OptionalInterface) (location : nat)
    (request : nat -> TLogCommitRequest) (reply : nat -> FutureState unit) (debugID : UID)
    : Result (list (TLogInterface * TLogCommitRequest) * list (FutureState unit)) :=
  match servers with
  | [] => Ok ([], [])
  | log :: rest =>
      match iface log with
      | None => Throw internal_error
      | Some interf =>
          let commitMessage := reportTLogCommitErrors (reply location) debugID in
          match pushToServers rest (S location) request reply debugID with
          | Ok (sent, tLogCommitResults) =>
              Ok ((interf, request location) :: sent, commitMessage :: tLogCommitResults)
          | Throw e => Throw e
          | Undefined => Undefined
          end
      end
  end.

(** The outer loop of [push] over [tLogs]. *)
Fixpoint pushToSets (sets : list LogSet) (location : nat)
    (request : nat -> TLogCommitRequest) (reply : nat -> FutureState unit) (debugID : UID)
    : Result (list (TLogInterface * TLogCommitRequest) * list (FutureState unit)) :=
  match sets with
  | [] => Ok ([], [])
  | it :: rest =>
      if isLocal it && nonEmpty (logServers it) then
        match pushToServers (logServers it) location request reply debugID with
        | Ok (sent, tLogCommitResults) =>
            match pushToSets rest (location + length (logServers it))%nat
                    request reply debugID with
            | Ok (sent', quorumResults) =>
                Ok (sent ++ sent',
                    quorum tLogCommitResults
                      (Z.of_nat (length tLogCommitResults) - tLogWriteAntiQuorum it)
                    :: quorumResults)
            | Throw e => Throw e
            | Undefined => Undefined
            end
        | Throw e => Throw e
        | Undefined => Undefined
        end
      else pushToSets rest location request reply debugID
  end.

(** [push]: the requests sent and the state of the returned future, given
    the states of the commit replies. *)
Definition push (self : TagPartitionedLogSystem) (prevVersion version
    knownCommittedVersion : Version) (data : LogPushData) (debugID : option UID)
    (reply : nat -> FutureState unit)
    : Result (list (TLogInterface * TLogCommitRequest) * FutureState unit) :=
  let request location :=
    mkTLogCommitRequest prevVersion version knownCommittedVersion (data location) debugID in
  match pushToSets (tLogs self) 0 request reply (sys_dbgid self) with
  | Ok (sent, quorumResults) => Ok (sent, waitForAll quorumResults)
  | Throw e => Throw e
  | Undefined => Undefined
  end.

(** [locationOffset] of [getPushLocations] when the loop reaches set [i]:
    the number of servers in the local non-empty sets before it. *)
Definition locationOffset (sets : list LogSet) (i : nat) : nat :=
  fold_left (fun offset log =>
               if isLocal log && nonEmpty (logServers log)
               then (offset + length (logServers log))%nat else offset)
    (take i sets) 0%nat.

(** How many of the [n] commit requests from push location [offset] on have
    been acknowledged. *)
Definition acknowledged (reply : nat -> FutureState unit) (offset n : nat) : nat :=
  length (List.filter (fun loc => succeeded (reply loc)) (seq offset n)).

(** ** Peek *)

(** Tag localities and the two distinguished tags are constants of the
    client library; [bestLocationFor] is a method of [LogSet]. *)
Variables tagLocalitySpecial tagLocalityLogRouter tagLocalityRemoteLog : Z.
Variables tagLocalityUpgraded tagLocalityInvalid : Z.
Variables txsTag invalidTag : Tag.
Variable bestLocationFor : LogSet -> Tag -> Z.

Definition bindResult {A B} (r : Result A) (k : A -> Result B) : Result B :=
  match r with
  | Ok a => k a
  | Throw e => Throw e
  | Undefined => Undefined
  end.

#[local] Notation "'do' x <- r ; k" := (bindResult r (fun x => k))
  (at level 10, x name, r at level 100, k at level 200).

Definition getEnd (self : TagPartitionedLogSystem) : Result Version :=
  match epochEndVersion self with
  | Some v => Ok (vadd v 1)
  | None => Throw internal_error
  end.

Definition getPeekEnd (self : TagPartitionedLogSystem) : Version :=
  match epochEndVersion self with
  | Some v => vadd v 1
  | None => INT64_MAX
  end.

(** The cursor returned when there is nothing to read from. *)
Definition emptyCursor (self : TagPartitionedLogSystem) (tag : Tag) (begin : Version)
    : IPeekCursor :=
  ServerPeekCursor None tag begin (getPeekEnd self) false false.

(** The locality test shared by the best-set searches. *)
Definition localityMatches (log : LogSet) (tag : Tag) : bool :=
  (set_locality log =? locality tag) || (locality tag =? tagLocalitySpecial)
  || (set_locality log =? tagLocalitySpecial) || (set_locality log =? tagLocalityUpgraded).

(** State of the loop that collects the local sets of one generation. *)
Record LocalSetScan : Type := mkLocalSetScan {
  localSets : list LogSet;
  bestSet : Z;
  nextBestSet : Z;
  scanBegin : Version
}.

Definition scanLocalSet (tag : Tag) (sc : LocalSetScan) (log : LogSet) : LocalSetScan :=
  if isLocal log && nonEmpty (logServers log) then
    let sets := localSets sc ++ [log] in
    let last := Z.of_nat (length sets) - 1 in
    let hit := negb (hasBestPolicy log =? 0) && localityMatches log tag in
    let best := if hit then last else bestSet sc in
    let next := if hit then last else nextBestSet sc in
    let next' := if negb (hasBestPolicy log =? 0) && (best =? -1) then last else next in
    mkLocalSetScan sets best next' (Z.max (scanBegin sc) (startVersion log))
  else sc.

Definition scanLocalSets (tag : Tag) (sets : list LogSet) (begin : Version) : LocalSetScan :=
  fold_left (scanLocalSet tag) sets (mkLocalSetScan [] (-1) (-1) begin).

(** [new SetPeekCursor(localSets, bestSet == -1 ? nextBestSet : bestSet,
    bestSet >= 0 ? localSets[bestSet]->bestLocationFor(tag) : -1, ...)]. *)
Definition newSetPeekCursor (sc : LocalSetScan) (tag : Tag) (begin end' : Version)
    (parallelGetMore : bool) : Result IPeekCursor :=
  let chosen := if bestSet sc =? -1 then nextBestSet sc else bestSet sc in
  if 0 <=? bestSet sc then
    match localSets sc !! Z.to_nat (bestSet sc) with
    | Some log =>
        Ok (SetPeekCursor (localSets sc) chosen (bestLocationFor log tag) tag begin end'
              parallelGetMore)
    | None => Undefined
    end
  else Ok (SetPeekCursor (localSets sc) chosen (-1) tag begin end' parallelGetMore).

(** The [while(begin < lastBegin)] loop of [peekAll]; [olds] are the
    generations from index [i] on. *)
Fixpoint peekAllOld (self : TagPartitionedLogSystem) (begin end' : Version) (tag : Tag)
    (parallelGetMore throwIfDead : bool) (olds : list OldLogData) (lastBegin : Version)
    (cursors : list IPeekCursor) (epochEnds : list Version) : Result IPeekCursor :=
  if negb (begin <? lastBegin) then Ok (MultiCursor cursors epochEnds) else
  match olds with
  | [] =>
      if bool_decide (tag = txsTag) then Ok (MultiCursor cursors epochEnds)
      else if throwIfDead then Throw worker_removed
      else Ok (emptyCursor self tag begin)
  | old :: olds' =>
      let sc := scanLocalSets tag (old_tLogs old) begin in
      let thisBegin := scanBegin sc in
      if thisBegin <? lastBegin then
        if thisBegin <? end' then
          do c <- newSetPeekCursor sc tag thisBegin (Z.min lastBegin end') parallelGetMore;
          peekAllOld self begin end' tag parallelGetMore throwIfDead olds' thisBegin
            (cursors ++ [c]) (epochEnds ++ [Z.min lastBegin end'])
        else
          peekAllOld self begin end' tag parallelGetMore throwIfDead olds' thisBegin
            cursors epochEnds
      else
        peekAllOld self begin end' tag parallelGetMore throwIfDead olds' lastBegin
          cursors epochEnds
  end.

Definition peekAll (self : TagPartitionedLogSystem) (dbgid : UID) (begin end' : Version)
    (tag : Tag) (parallelGetMore throwIfDead : bool) : Result IPeekCursor :=
  let sc := scanLocalSets tag (tLogs self) 0 in
  let lastBegin := scanBegin sc in
  if lastBegin <=? begin then newSetPeekCursor sc tag begin end' parallelGetMore
  else
    do cursors <-
      (if lastBegin <? end'
       then do c <- newSetPeekCursor sc tag lastBegin end' parallelGetMore; Ok [c]
       else Ok []);
    peekAllOld self begin end' tag parallelGetMore throwIfDead (oldLogData self) lastBegin
      cursors [].

(** The loop of [peekRemote] over the sets of one generation: the start of
    the local sets and the one set that has log routers. *)
Fixpoint scanRouterSets (sets : list LogSet) (t : Z) (best : Z) (begin : Version)
    : Result (Z * Version) :=
  match sets with
  | [] => Ok (best, begin)
  | log :: rest =>
      let begin' := if isLocal log then Z.max begin (startVersion log) else begin in
      if nonEmpty (logRouters log) then
        if negb (best =? -1) then Throw internal_error
        else scanRouterSets rest (t + 1) t begin'
      else scanRouterSets rest (t + 1) best begin'
  end.

Definition routerCursor (log : LogSet) (tag : Tag) (begin end' : Version) : IPeekCursor :=
  MergedPeekCursor (logRouters log) (-1) (Z.of_nat (length (logRouters log))) tag
    begin end' false [] None 0.

Fixpoint peekRemoteOld (self : TagPartitionedLogSystem) (begin : Version) (tag : Tag)
    (olds : list OldLogData) (lastBegin : Version)
    (cursors : list IPeekCursor) (epochEnds : list Version) : Result IPeekCursor :=
  if negb (begin <? lastBegin) then Ok (MultiCursor cursors epochEnds) else
  match olds with
  | [] => Ok (emptyCursor self tag begin)
  | old :: olds' =>
      do scan <- scanRouterSets (old_tLogs old) 0 (-1) begin;
      let '(bestOldSet, thisBegin) := scan in
      if bestOldSet =? -1 then Ok (emptyCursor self tag begin) else
      if thisBegin <? lastBegin then
        match old_tLogs old !! Z.to_nat bestOldSet with
        | Some log =>
            peekRemoteOld self begin tag olds' thisBegin
              (cursors ++ [routerCursor log tag thisBegin lastBegin])
              (epochEnds ++ [lastBegin])
        | None => Undefined
        end
      else peekRemoteOld self begin tag olds' lastBegin cursors epochEnds
  end.

Definition peekRemote (self : TagPartitionedLogSystem) (dbgid : UID) (begin : Version)
    (tag : Tag) (parallelGetMore : bool) : Result IPeekCursor :=
  do scan <- scanRouterSets (tLogs self) 0 (-1) 0;
  let '(best, lastBegin) := scan in
  if best =? -1 then Ok (emptyCursor self tag begin) else
  match tLogs self !! Z.to_nat best with
  | Some log =>
      if lastBegin <=? begin then Ok (routerCursor log tag begin (getPeekEnd self))
      else
        peekRemoteOld self begin tag (oldLogData self) lastBegin
          [routerCursor log tag lastBegin (getPeekEnd self)] []
  | None => Undefined
  end.

(** [peek(dbgid, begin, tag, parallelGetMore)]. *)
Definition peek (self : TagPartitionedLogSystem) (dbgid : UID) (begin : Version) (tag : Tag)
    (parallelGetMore : bool) : Result IPeekCursor :=
  if negb (nonEmpty (tLogs self)) then Ok (emptyCursor self tag begin)
  else if locality tag =? tagLocalityRemoteLog
  then peekRemote self dbgid begin tag parallelGetMore
  else peekAll self dbgid begin (getPeekEnd self) tag parallelGetMore false.

Fixpoint peekEach (self : TagPartitionedLogSystem) (dbgid : UID) (begin : Version)
    (tags : list Tag) (parallelGetMore : bool) : Result (list IPeekCursor) :=
  match tags with
  | [] => Ok []
  | tag :: rest =>
      do c <- peek self dbgid begin tag parallelGetMore;
      do cs <- peekEach self dbgid begin rest parallelGetMore;
      Ok (c :: cs)
  end.

(** [peek(dbgid, begin, tags, parallelGetMore)]. *)
Definition peekTags (self : TagPartitionedLogSystem) (dbgid : UID) (begin : Version)
    (tags : list Tag) (parallelGetMore : bool) : Result IPeekCursor :=
  match tags with
  | [] => Ok (emptyCursor self invalidTag begin)
  | [tag] => peek self dbgid begin tag parallelGetMore
  | _ =>
      do cursors <- peekEach self dbgid begin tags parallelGetMore;
      Ok (MergedPeekCursorOver cursors begin
            (match tLogs self with
             | log :: _ => set_locality log =? tagLocalityUpgraded
             | [] => false
             end))
  end.

(** [begin] lies below the versions covered by the local sets of a
    generation: some local set with servers starts after it. *)
Definition startsAfter (begin : Version) (sets : list LogSet) : Prop :=
  exists log, log ∈ sets /\ isLocal log = true /\ logServers log <> [] /\
              begin < startVersion log.

(** The best set found by the scan is an index into the collected sets. *)
Definition scanInRange (sc : LocalSetScan) : Prop :=
  bestSet sc = -1 \/ 0 <= bestSet sc < Z.of_nat (length (localSets sc)).

(** ** Pop *)

(** [outstandingPops[key]]: [std::map::operator[]] inserts a
    value-initialized entry when the key is absent. *)
Definition subscript (m : gmap (UID * Tag) (Version * Version)) (key : UID * Tag)
    : gmap (UID * Tag) (Version * Version) * (Version * Version) :=
  match m !! key with
  | Some v => (m, v)
  | None => (<[key := (0, 0)]> m, (0, 0))
  end.

(** The body shared by the three loops over handles in [pop] and
    [popLogRouter]. *)
Definition popOne (upTo : Version) (tag : Tag) (knownCommittedVersion : Version)
    (time : PopDelay) (self : TagPartitionedLogSystem) (log : OptionalInterface)
    : TagPartitionedLogSystem :=
  let key := (ident log, tag) in
  let '(pops, entry) := subscript (outstandingPops self) key in
  let prev := fst entry in
  let pops' := if prev <? upTo then <[key := (upTo, knownCommittedVersion)]> pops else pops in
  let actors' :=
    if prev =? 0
    then actors self ++ [mkPopTask (ident log) tag time 0 Delaying]
    else actors self in
  set_actors actors' (set_outstandingPops pops' self).

Definition popRouters (upTo : Version) (tag : Tag) (knownCommittedVersion : Version)
    (popLocality : Z) (self : TagPartitionedLogSystem) (t : LogSet)
    : TagPartitionedLogSystem :=
  if set_locality t =? popLocality
  then fold_left (popOne upTo tag knownCommittedVersion LogRouterDelay) (logRouters t) self
  else self.

Definition popLogRouter (self : TagPartitionedLogSystem) (upTo : Version) (tag : Tag)
    (knownCommittedVersion : Version) (popLocality : Z) : TagPartitionedLogSystem :=
  if upTo =? 0 then self else
  let self1 :=
    fold_left (popRouters upTo tag knownCommittedVersion popLocality) (tLogs self) self in
  fold_left
    (fun s old =>
       fold_left (popRouters upTo tag knownCommittedVersion popLocality) (old_tLogs old) s)
    (oldLogData self) self1.

Definition pop (self : TagPartitionedLogSystem) (upTo : Version) (tag : Tag)
    (knownCommittedVersion : Version) (popLocality : Z) : Result TagPartitionedLogSystem :=
  if upTo <=? 0 then Ok self else
  if locality tag =? tagLocalityRemoteLog
  then Ok (popLogRouter self upTo tag knownCommittedVersion popLocality) else
  if negb (popLocality =? tagLocalityInvalid) then Throw internal_error else
  Ok (fold_left
        (fun s t =>
           fold_left (popOne upTo tag knownCommittedVersion LogServerDelay) (logServers t) s)
        (tLogs self) self).

Definition set_task (i : nat) (t : PopTask) (self : TagPartitionedLogSystem)
    : TagPartitionedLogSystem :=
  set_actors (<[i := t]> (actors self)) self.

Definition task_with (t : PopTask) (last : Version) (st : PopTaskState) : PopTask :=
  mkPopTask (pop_log t) (pop_tag t) (pop_time t) last st.

(** One resumption of task [i] of [popFromLog], up to its next suspension
    or its return; the second component is the pop request sent, if any. *)
Definition popFromLog (self : TagPartitionedLogSystem) (i : nat) (ev : PopEvent)
    : TagPartitionedLogSystem * option (UID * TLogPopRequest) :=
  match actors self !! i with
  | None => (self, None)
  | Some t =>
      let key := (pop_log t, pop_tag t) in
      match pop_state t, ev with
      | Finished, _ => (self, None)
      | _, Cancelled => (set_task i (task_with t (pop_last t) Finished) self, None)
      | Delaying, DelayElapsed isPresent =>
          let '(pops, to) := subscript (outstandingPops self) key in
          if fst to <=? pop_last t then
            (set_task i (task_with t (pop_last t) Finished)
               (set_outstandingPops (delete key pops) self), None)
          else if negb isPresent then
            (set_task i (task_with t (pop_last t) Finished)
               (set_outstandingPops pops self), None)
          else
            (set_task i (task_with t (pop_last t) (AwaitingReply to))
               (set_outstandingPops pops self),
             Some (pop_log t, mkTLogPopRequest (fst to) (snd to) (pop_tag t)))
      | AwaitingReply to, ReplySettled (Ready _) =>
          (set_task i (task_with t (fst to) Delaying) self, None)
      | AwaitingReply to, ReplySettled (Failed e) =>
          (set_task i (task_with t (pop_last t) Finished) self, None)
      | _, _ => (self, None)
      end
  end.

Definition popAct (w : PopWorld) (a : PopAction) : PopWorld :=
  match a with
  | CallPop upTo tag kcv popLocality =>
      match pop (world_system w) upTo tag kcv popLocality with
      | Ok s => mkPopWorld s (wire w)
      | _ => w
      end
  | CallPopLogRouter upTo tag kcv popLocality =>
      mkPopWorld (popLogRouter (world_system w) upTo tag kcv popLocality) (wire w)
  | Resume i ev =>
      match popFromLog (world_system w) i ev with
      | (s, Some (server, req)) => mkPopWorld s (wire w ++ [(i, server, req)])
      | (s, None) => mkPopWorld s (wire w)
      end
  | SetsChanged sets olds => mkPopWorld (set_tLogs sets olds (world_system w)) (wire w)
  end.

Definition popRun (acts : list PopAction) (w : PopWorld) : PopWorld :=
  fold_left popAct acts w.

(** [popLogRouter] is reached from [pop] only with [upTo > 0]. *)
Definition positiveUpTo (a : PopAction) : Prop :=
  match a with
  | CallPopLogRouter upTo _ _ _ => 0 <= upTo
  | _ => True
  end.

Definition isLive (t : PopTask) : bool :=
  match pop_state t with Finished => false | _ => true end.

Definition taskKey (t : PopTask) : UID * Tag := (pop_log t, pop_tag t).

(** The [upTo] values sent by task [i], oldest first. *)
Definition sentBy (i : nat) (w : list (nat * UID * TLogPopRequest)) : list Version :=
  List.map (fun e => popreq_to (snd e)) (List.filter (fun e => Nat.eqb (fst (fst e)) i) w).

(** The [upTo] values sent to [server] for [tag], oldest first. *)
Definition sentTo (server : UID) (tag : Tag) (w : list (nat * UID * TLogPopRequest))
    : list Version :=
  List.map (fun e => popreq_to (snd e))
    (List.filter (fun e => bool_decide (snd (fst e) = server /\ popreq_tag (snd e) = tag)) w).

(** The invariant of the pop coalescer: live tasks have distinct keys and
    an entry each, stored [upTo]s are positive, a task's [last] is behind
    the request it awaits, and what a task has sent is strictly increasing
    and bounded by its [last] (or by the request it awaits). *)
Record PopInv (pops : gmap (UID * Tag) (Version * Version)) (tasks : list PopTask)
    (w : list (nat * UID * TLogPopRequest)) : Prop := mkPopInv {
  inv_unique : forall i j ti tj,
    tasks !! i = Some ti -> tasks !! j = Some tj ->
    isLive ti = true -> isLive tj = true -> taskKey ti = taskKey tj -> i = j;
  inv_entry : forall i t,
    tasks !! i = Some t -> isLive t = true -> is_Some (pops !! taskKey t);
  inv_positive : forall key u c, pops !! key = Some (u, c) -> 0 < u;
  inv_last : forall i t,
    tasks !! i = Some t ->
    0 <= pop_last t /\
    match pop_state t with AwaitingReply to => pop_last t < fst to | _ => True end;
  inv_wire_sorted : forall i, StronglySorted Z.lt (sentBy i w);
  inv_wire_bound : forall i t v,
    tasks !! i = Some t -> isLive t = true -> v ∈ sentBy i w ->
    v <= match pop_state t with AwaitingReply to => fst to | _ => pop_last t end;
  inv_wire_tasks : forall i, (length tasks <= i)%nat -> sentBy i w = []
}.

Definition worldInv (w : PopWorld) : Prop :=
  PopInv (outstandingPops (world_system w)) (actors (world_system w)) (wire w).

(** Entries persist and their [upTo] does not decrease. *)
Definition popsGrow (m m' : gmap (UID * Tag) (Version * Version)) : Prop :=
  forall key u c, m !! key = Some (u, c) ->
    exists u' c', m' !! key = Some (u', c') /\ u <= u'.

(** Where an entry exists before and after, its [upTo] has not decreased. *)
Definition popsMonotone (m m' : gmap (UID * Tag) (Version * Version)) : Prop :=
  forall key u c u' c', m !! key = Some (u, c) -> m' !! key = Some (u', c') -> u <= u'.

(** The invariant and the growth of the entries, carried through one step of a loop. *)
Definition popStep (w : list (nat * UID * TLogPopRequest))
    (s s' : TagPartitionedLogSystem) : Prop :=
  PopInv (outstandingPops s) (actors s) w ->
  PopInv (outstandingPops s') (actors s') w
  /\ popsGrow (outstandingPops s) (outstandingPops s').

(** ** Epoch recovery ([epochEnd]) *)

Definition logSetOfCore (coreSet : CoreTLogSet) : LogSet :=
  mkLogSet (List.map (fun uid => mkOptionalInterface uid None) (core_tLogs coreSet)) []
    (core_tLogWriteAntiQuorum coreSet) (core_tLogReplicationFactor coreSet)
    (core_tLogLocalities coreSet) (core_tLogPolicy coreSet) (core_isLocal coreSet)
    (core_hasBestPolicy coreSet) (core_locality coreSet) (core_startVersion coreSet).

Definition oldLogDataOfCore (old : OldTLogCoreData) : OldLogData :=
  mkOldLogData (List.map logSetOfCore (oldcore_tLogs old))
    (oldcore_logRouterTags old) (oldcore_epochEnd old).

(** A [LogLockInfo] with one [lockTLog] issued per server. *)
Definition lockAll (epochEnd : Version) (current : bool) (logSet : LogSet) : LogLockInfo :=
  mkLogLockInfo epochEnd current logSet (List.map (fun _ => Pending) (logServers logSet)).

Definition isSpecialOrUpgraded (log : LogSet) : bool :=
  (set_locality log =? tagLocalitySpecial) || (set_locality log =? tagLocalityUpgraded).

(** The inner loop over the sets of one old generation. *)
Fixpoint lockOldSets (epochEnd : Version) (sets : list LogSet) (lockedLocalities : gset Z)
    (lockResults : list LogLockInfo) : bool * gset Z * list LogLockInfo :=
  match sets with
  | [] => (false, lockedLocalities, lockResults)
  | log :: rest =>
      if isSpecialOrUpgraded log then (true, lockedLocalities, lockResults)
      else if bool_decide (set_locality log ∈ lockedLocalities)
      then lockOldSets epochEnd rest lockedLocalities lockResults
      else lockOldSets epochEnd rest ({[set_locality log]} ∪ lockedLocalities)
             (lockResults ++ [lockAll epochEnd false log])
  end.

(** The loop over the old generations. *)
Fixpoint lockOldGenerations (olds : list OldLogData) (foundSpecial : bool)
    (lockedLocalities : gset Z) (lockResults : list LogLockInfo) : list LogLockInfo :=
  match olds with
  | [] => lockResults
  | old :: rest =>
      if foundSpecial then lockResults
      else
        let '(found, locked, results) :=
          lockOldSets (old_epochEnd old) (old_tLogs old) lockedLocalities lockResults in
        lockOldGenerations rest found locked results
  end.

Definition initialLockResults (logServers : list LogSet) (oldLogData : list OldLogData)
    : list LogLockInfo :=
  lockOldGenerations oldLogData (existsb isSpecialOrUpgraded logServers)
    (list_to_set (List.map set_locality logServers))
    (List.map (lockAll INT64_MAX true) logServers).

(** State carried around the main loop of [epochEnd]. *)
Record RecoveryLoop : Type := mkRecoveryLoop {
  loop_lastEnd : option Version;
  loop_knownCommittedVersion : Version;
  loop_lockResults : list LogLockInfo;
  loop_logFailed : list (list bool)
}.

(** [for(int log = 0; log < logServers.size(); log++)]: the known committed
    version, [minEnd] and [maxEnd]. *)
Fixpoint durableVersions (dbgid : UID) (logServers : list LogSet) (log : nat)
    (st : RecoveryLoop) (acc : Version * Version * Version)
    : Result (Version * Version * Version) :=
  match logServers with
  | [] => Ok acc
  | logSet :: rest =>
      if negb (isLocal logSet) then durableVersions dbgid rest (S log) st acc else
      match loop_lockResults st !! log, loop_logFailed st !! log with
      | Some lockInfo, Some failed =>
          match getDurableVersion dbgid lockInfo failed (loop_lastEnd st) with
          | Ok (Some versions) =>
              let '(knownCommitted, minEnd, maxEnd) := acc in
              durableVersions dbgid rest (S log) st
                (Z.max knownCommitted (fst versions), Z.min minEnd (snd versions),
                 Z.max maxEnd (snd versions))
          | Ok None => durableVersions dbgid rest (S log) st acc
          | Throw e => Throw e
          | Undefined => Undefined
          end
      | _, _ => Undefined
      end
  end.

Definition observed (obs : Observation) (lockResults : list LogLockInfo) : list LogLockInfo :=
  zip_with set_replies (obs_replies obs) lockResults.

Definition raise {R : Type} (e : Error) : itree epochE R :=
  ITree.bind (ITree.trigger (ThrowError e)) (fun v : Empty_set => match v with end).

(** The log system published by the main loop. *)
Definition recoveredLogSystem (dbgid : UID) (locality : LocalityData) (prevState : DBCoreState)
    (logServers : list LogSet) (oldLogData : list OldLogData)
    (lockResults : list LogLockInfo) (minEnd knownCommitted : Version)
    : TagPartitionedLogSystem :=
  let logSystem := newTagPartitionedLogSystem dbgid locality in
  mkTagPartitionedLogSystem (sys_dbgid logSystem) (prev_logSystemType prevState) logServers
    (expectedLogSets logSystem) (prev_logRouterTags prevState) (recruitmentID logSystem)
    true (Some Pending) (recoveryComplete logSystem) (remoteRecovery logSystem)
    (remoteRecoveryComplete logSystem) lockResults
    (recoveryCompleteWrittenToCoreState logSystem) true (hasRemoteServers logSystem)
    (Some minEnd) knownCommitted (sys_locality logSystem) (outstandingPops logSystem)
    (actors logSystem) oldLogData.

(** One turn of the main loop. *)
Definition recoveryTurn (dbgid : UID) (locality : LocalityData) (prevState : DBCoreState)
    (logServers : list LogSet) (oldLogData : list OldLogData) (st : RecoveryLoop)
    : itree epochE (RecoveryLoop + unit) :=
  match durableVersions dbgid logServers 0 st
          (loop_knownCommittedVersion st, INT64_MAX, 0) with
  | Ok (knownCommitted, minEnd, maxEnd) =>
      let restart :=
        (0 <? maxEnd)
        && match loop_lastEnd st with
           | None => true
           | Some lastEnd => maxEnd <? lastEnd
           end in
      ITree.bind
        (if restart
         then ITree.trigger
                (SetOutLogSystem
                   (recoveredLogSystem dbgid locality prevState logServers oldLogData
                      (loop_lockResults st) minEnd knownCommitted))
         else Ret tt)
        (fun _ =>
           ITree.bind (ITree.trigger WaitForAnyChange)
             (fun obs =>
                Ret (inl (mkRecoveryLoop
                            (if restart then Some minEnd else loop_lastEnd st)
                            knownCommitted
                            (observed obs (loop_lockResults st))
                            (obs_logFailed obs)))))
  | Throw e => raise e
  | Undefined =>
      ITree.bind (ITree.trigger OutOfRange) (fun v : Empty_set => match v with end)
  end.

(** The failure flags of a set as [monitorLog] leaves them at first. *)
Definition allFailed (logSet : LogSet) : list bool :=
  List.map (fun _ => true) (logServers logSet).

(** The log system published for a brand new database. *)
Definition newDatabaseLogSystem (dbgid : UID) (locality : LocalityData)
    (prevState : DBCoreState) : TagPartitionedLogSystem :=
  let logSystem := newTagPartitionedLogSystem dbgid locality in
  mkTagPartitionedLogSystem (sys_dbgid logSystem) (prev_logSystemType prevState)
    (tLogs logSystem) (expectedLogSets logSystem) (logRouterTags logSystem)
    (recruitmentID logSystem) true (rejoins logSystem) (recoveryComplete logSystem)
    (remoteRecovery logSystem) (remoteRecoveryComplete logSystem) (lockResults logSystem)
    (recoveryCompleteWrittenToCoreState logSystem) (remoteLogsWrittenToCoreState logSystem)
    (hasRemoteServers logSystem) (Some 0) 0 (sys_locality logSystem)
    (outstandingPops logSystem) (actors logSystem) (oldLogData logSystem).

(** [epochEnd].  The rejoin stream only feeds [trackRejoins], which stores
    the interfaces of the rejoining servers in the handles of [logServers];
    [getDurableVersion] does not read them.  The log systems published here
    list these handles as [epochEnd] creates them, without an interface:
    what [trackRejoins] has stored in the shared handles by the time of a
    publication is told by [rejoin], not here.  Every failure flag starts
    out set, since the handles are created without an interface. *)
Definition epochEnd (dbgid : UID) (prevState : DBCoreState) (locality : LocalityData)
    : itree epochE unit :=
  match prev_tLogs prevState with
  | [] =>
      ITree.bind (ITree.trigger (SetOutLogSystem (newDatabaseLogSystem dbgid locality prevState)))
        (fun _ =>
           ITree.bind (ITree.trigger WaitNever)
             (fun _ : Empty_set => raise internal_error))
  | _ =>
      let logServers := List.map logSetOfCore (prev_tLogs prevState) in
      let oldLogData := List.map oldLogDataOfCore (prev_oldTLogData prevState) in
      ITree.iter (recoveryTurn dbgid locality prevState logServers oldLogData)
        (mkRecoveryLoop None 0 (initialLockResults logServers oldLogData)
           (List.map allFailed logServers))
  end.

(** ** The primary start version of [newEpoch] *)

(** The inner [loop] of [newEpoch]: [getDurableVersion] is tried on the
    replies as they are, and again on each later state of the replies that
    [getDurableVersionChanged] wakes it with; [Ok None] is the actor still
    waiting when the observed states are used up. *)
Fixpoint awaitDurableVersion (dbgid : UID) (lock : LogLockInfo)
    (later : list (list (FutureState TLogLockResult)))
    : Result (option (Version * Version)) :=
  match getDurableVersion dbgid lock [] None with
  | Ok (Some versions) => Ok (Some versions)
  | Ok None =>
      match later with
      | [] => Ok None
      | rs :: later' => awaitDurableVersion dbgid (set_replies rs lock) later'
      end
  | Throw e => Throw e
  | Undefined => Undefined
  end.

(** [logSystem->tLogs[0]->startVersion] once the [while(lockNum < ...)] loop
    of [newEpoch] is left. *)
Definition newEpoch_startVersion (oldLogSystem : TagPartitionedLogSystem)
    (primaryLocality : Z) (later : list (list (FutureState TLogLockResult)))
    : Result (option Version) :=
  let startVersion := vadd (knownCommittedVersion oldLogSystem) 1 in
  match List.find (fun lock => set_locality (lock_logSet lock) =? primaryLocality)
          (lockResults oldLogSystem) with
  | None => Ok (Some startVersion)
  | Some lock =>
      if isCurrent lock && isLocal (lock_logSet lock) then Ok (Some startVersion)
      else
        match awaitDurableVersion (sys_dbgid oldLogSystem) lock later with
        | Ok (Some versions) =>
            Ok (Some (Z.min (Z.min (vadd (fst versions) 1) (lock_epochEnd lock)) startVersion))
        | Ok None => Ok None
        | Throw e => Throw e
        | Undefined => Undefined
        end
  end.

(** ** The entry points of [ILogSystem], the core state and the logs value *)

(** [ILogSystem::fromLogSystemConfig]: a null reference for log system
    type 0, this class for type 2. *)
Definition ILogSystem_fromLogSystemConfig (dbgid : UID) (locality : LocalityData)
    (conf : LogSystemConfig) (excludeRemote : bool)
    : Result (option TagPartitionedLogSystem) :=
  if lsConf_logSystemType conf =? 0 then Ok None
  else if lsConf_logSystemType conf =? 2 then
    do logSystem <- fromLogSystemConfig dbgid locality conf excludeRemote;
    Ok (Some logSystem)
  else Throw internal_error.

(** [ILogSystem::fromOldLogSystemConfig]. *)
Definition ILogSystem_fromOldLogSystemConfig (dbgid : UID) (locality : LocalityData)
    (conf : LogSystemConfig) : Result (option TagPartitionedLogSystem) :=
  if lsConf_logSystemType conf =? 0 then Ok None
  else if lsConf_logSystemType conf =? 2 then
    do logSystem <- fromOldLogSystemConfig dbgid locality conf;
    Ok (Some logSystem)
  else Throw internal_error.

(** [ILogSystem::fromServerDBInfo], given the two members of [dbInfo] it
    reads; [excludeRemote] takes its default. *)
Definition ILogSystem_fromServerDBInfo (dbgid : UID) (myLocality : LocalityData)
    (logSystemConfig : LogSystemConfig) : Result (option TagPartitionedLogSystem) :=
  ILogSystem_fromLogSystemConfig dbgid myLocality logSystemConfig false.

(** The locality and the address recorded in a [TLogInterface]; the address
    of a default-constructed [NetworkAddress]. *)
Variable interfaceLocality : TLogInterface -> LocalityData.
Variable interfaceAddress : TLogInterface -> Z.
Variable noAddress : Z.

(** The loop of [toCoreState] over the servers of a current set:
    [log->get().id()] and [log->get().interf().locality]; [interf()] of an
    absent interface fails its assertion. *)
Fixpoint coreServers (servers : list OptionalInterface)
    : Result (list UID * list LocalityData) :=
  match servers with
  | [] => Ok ([], [])
  | log :: rest =>
      match iface log with
      | None => Throw internal_error
      | Some interf =>
          do r <- coreServers rest;
          Ok (ident log :: fst r, interfaceLocality interf :: snd r)
      end
  end.

Definition coreSetOfCurrent (t : LogSet) : Result CoreTLogSet :=
  do r <- coreServers (logServers t);
  Ok (mkCoreTLogSet (fst r) (tLogWriteAntiQuorum t) (tLogReplicationFactor t) (snd r)
        (tLogPolicy t) (isLocal t) (hasBestPolicy t) (set_locality t) (startVersion t)).

Definition coreSetOfOld (t : LogSet) : CoreTLogSet :=
  mkCoreTLogSet (List.map ident (logServers t)) (tLogWriteAntiQuorum t)
    (tLogReplicationFactor t) (tLogLocalities t) (tLogPolicy t) (isLocal t)
    (hasBestPolicy t) (set_locality t) (startVersion t).

Fixpoint coreSetsOfCurrent (sets : list LogSet) : Result (list CoreTLogSet) :=
  match sets with
  | [] => Ok []
  | t :: rest =>
      if nonEmpty (logServers t) then
        do coreSet <- coreSetOfCurrent t;
        do coreSets <- coreSetsOfCurrent rest;
        Ok (coreSet :: coreSets)
      else coreSetsOfCurrent rest
  end.

Definition settled (f : option (FutureState unit)) : bool :=
  match f with
  | Some g => isReady g
  | None => false
  end.

(** [toCoreState]: the members of [newState] it assigns are all the
    members [DBCoreState] has here. *)
Definition toCoreState (self : TagPartitionedLogSystem) (newState : DBCoreState)
    : Result DBCoreState :=
  match recoveryComplete self with
  | Some (Failed e) => Throw e
  | _ =>
      match remoteRecoveryComplete self with
      | Some (Failed e) => Throw e
      | _ =>
          do coreSets <- coreSetsOfCurrent (tLogs self);
          let oldTLogData :=
            if negb (settled (recoveryComplete self))
               || negb (settled (remoteRecoveryComplete self))
            then
              List.map
                (fun old =>
                   mkOldTLogCoreData
                     (List.map coreSetOfOld
                        (List.filter (fun t => nonEmpty (logServers t)) (old_tLogs old)))
                     (old_logRouterTags old) (old_epochEnd old))
                (oldLogData self)
            else [] in
          Ok (mkDBCoreState coreSets (logRouterTags self) oldTLogData (logSystemType self))
      end
  end.

Definition logsOf (servers : list OptionalInterface) : list (UID * Z) :=
  List.map (fun log =>
              (ident log,
               match iface log with
               | Some interf => interfaceAddress interf
               | None => noAddress
               end)) servers.

(** [getLogsValue]: the two vectors handed to [logsValue]. *)
Definition getLogsValue (self : TagPartitionedLogSystem)
    : list (UID * Z) * list (UID * Z) :=
  (concat (List.map (fun t => logsOf (logServers t))
             (List.filter (fun t => isLocal t || remoteLogsWrittenToCoreState self)
                (tLogs self))),
   if recoveryCompleteWrittenToCoreState self then []
   else concat (List.map (fun old => concat (List.map (fun t => logsOf (logServers t))
                                              (old_tLogs old)))
                  (oldLogData self))).

Definition hasRemoteLogs (self : TagPartitionedLogSystem) : bool :=
  0 <? logRouterTags self.

(** What recovery knows of a set after reading it back from the core
    state: the identifiers of its servers, no interface, no log router. *)
Definition forgetInterfaces (t : LogSet) : LogSet :=
  mkLogSet (List.map (fun log => mkOptionalInterface (ident log) None) (logServers t)) []
    (tLogWriteAntiQuorum t) (tLogReplicationFactor t) (tLogLocalities t) (tLogPolicy t)
    (isLocal t) (hasBestPolicy t) (set_locality t) (startVersion t).

(** ** The other peek entry points *)

(** [int]: the sum [logServers.size() + 1 - tLogReplicationFactor] is
    narrowed to the [int] parameter of the cursor's constructor. *)
Definition wrap32 (z : Z) : Z := (z + 2 ^ 31) mod 2 ^ 32 - 2 ^ 31.

(** The test of the best-set search of [peekLocal]. *)
Definition localBestFor (tag : Tag) (log : LogSet) : bool :=
  nonEmpty (logServers log) && negb (hasBestPolicy log =? 0)
  && (localityMatches log tag
      || (isLocal log && (locality tag =? tagLocalityLogRouter))).

(** [log->logServers[log->bestLocationFor(tag)]]. *)
Definition bestServerOf (log : LogSet) (tag : Tag) : Result OptionalInterface :=
  let location := bestLocationFor log tag in
  if location <? 0 then Undefined else
  match logServers log !! Z.to_nat location with
  | Some server => Ok server
  | None => Undefined
  end.

(** The [while(begin < lastBegin)] loop of [peekLocal]; [olds] are the
    generations from index [i] on, and [self] is still the whole system,
    which the call of [peekAll] reads. *)
Fixpoint peekLocalOld (self : TagPartitionedLogSystem) (dbgid : UID) (tag : Tag)
    (begin end' : Version) (olds : list OldLogData) (foundSpecial : bool)
    (lastBegin : Version) (cursors : list IPeekCursor) (epochEnds : list Version)
    : Result IPeekCursor :=
  if negb (begin <? lastBegin) then Ok (MultiCursor cursors epochEnds) else
  match olds with
  | [] => Throw worker_removed
  | old :: olds' =>
      let bestOldSet := List.find (localBestFor tag) (old_tLogs old) in
      let foundSpecial' :=
        match bestOldSet with
        | Some log => if set_locality log =? tagLocalitySpecial then true else foundSpecial
        | None => foundSpecial
        end in
      if foundSpecial' then
        do c <- peekAll self dbgid begin (Z.min lastBegin end') tag false true;
        Ok (MultiCursor (cursors ++ [c]) (epochEnds ++ [Z.min lastBegin end']))
      else
        match bestOldSet with
        | None =>
            peekLocalOld self dbgid tag begin end' olds' foundSpecial' lastBegin
              cursors epochEnds
        | Some log =>
            let thisBegin := Z.max (startVersion log) begin in
            if thisBegin <? lastBegin then
              if thisBegin <? end' then
                peekLocalOld self dbgid tag begin end' olds' foundSpecial' thisBegin
                  (cursors ++
                   [MergedPeekCursor (logServers log) (bestLocationFor log tag)
                      (wrap32 (Z.of_nat (length (logServers log)) + 1
                               - tLogReplicationFactor log))
                      tag thisBegin (Z.min lastBegin end') false (tLogLocalities log)
                      (Some (tLogPolicy log)) (tLogReplicationFactor log)])
                  (epochEnds ++ [Z.min lastBegin end'])
              else
                peekLocalOld self dbgid tag begin end' olds' foundSpecial' thisBegin
                  cursors epochEnds
            else
              peekLocalOld self dbgid tag begin end' olds' foundSpecial' lastBegin
                cursors epochEnds
        end
  end.

Definition peekLocal (self : TagPartitionedLogSystem) (dbgid : UID) (tag : Tag)
    (begin end' : Version) : Result IPeekCursor :=
  match List.find (localBestFor tag) (tLogs self) with
  | None => Ok (emptyCursor self tag begin)
  | Some best =>
      let foundSpecial := set_locality best =? tagLocalitySpecial in
      if startVersion best <=? begin then
        do server <- bestServerOf best tag;
        Ok (ServerPeekCursor (Some server) tag begin end' false false)
      else
        do cursors <-
          (if startVersion best <? end'
           then do server <- bestServerOf best tag;
                Ok [ServerPeekCursor (Some server) tag (startVersion best) end' false false]
           else Ok []);
        peekLocalOld self dbgid tag begin end' (oldLogData self) foundSpecial
          (startVersion best) cursors []
  end.

(** [while(history.size() && begin >= history.back().first) history.pop_back()],
    on the reversed vector and on the vector. *)
Fixpoint dropStale (begin : Version) (reversed : list (Version * Tag))
    : list (Version * Tag) :=
  match reversed with
  | [] => []
  | back :: rest => if fst back <=? begin then dropStale begin rest else reversed
  end.

Definition pruneHistory (begin : Version) (history : list (Version * Tag))
    : list (Version * Tag) :=
  rev (dropStale begin (rev history)).

(** The [for] loop of [peekSingle] over the pruned history. *)
Fixpoint peekHistory (self : TagPartitionedLogSystem) (dbgid : UID) (begin : Version)
    (history : list (Version * Tag)) : Result (list IPeekCursor) :=
  match history with
  | [] => Ok []
  | entry :: rest =>
      let from :=
        match rest with
        | [] => begin
        | next :: _ => Z.max (fst next) begin
        end in
      do c <- peekLocal self dbgid (snd entry) from (fst entry);
      do cs <- peekHistory self dbgid begin rest;
      Ok (c :: cs)
  end.

Definition peekSingle (self : TagPartitionedLogSystem) (dbgid : UID) (begin : Version)
    (tag : Tag) (history : list (Version * Tag)) : Result IPeekCursor :=
  match pruneHistory begin history with
  | [] => peekLocal self dbgid tag begin (getPeekEnd self)
  | newest :: older =>
      do c <- peekLocal self dbgid tag (fst newest) (getPeekEnd self);
      do cs <- peekHistory self dbgid begin (newest :: older);
      Ok (MultiCursor (c :: cs) (List.map fst (newest :: older)))
  end.

(** The search of [peekLogRouter] for the router [dbgid] in the sets of one
    generation. *)
Definition hasRouter (dbgid : UID) (sets : list LogSet) : bool :=
  existsb (fun log => existsb (fun router => ident router =? dbgid) (logRouters log)) sets.

(** The loop of [peekLogRouter] over the old generations.  Its scan of the
    local sets is the one of [peekAll], whose [lastBegin] it does not use. *)
Fixpoint peekLogRouterOld (self : TagPartitionedLogSystem) (dbgid : UID) (begin : Version)
    (tag : Tag) (olds : list OldLogData) : Result IPeekCursor :=
  match olds with
  | [] => Ok (emptyCursor self tag begin)
  | old :: olds' =>
      if hasRouter dbgid (old_tLogs old) then
        newSetPeekCursor (scanLocalSets tag (old_tLogs old) 0) tag begin (old_epochEnd old)
          false
      else peekLogRouterOld self dbgid begin tag olds'
  end.

Definition peekLogRouter (self : TagPartitionedLogSystem) (dbgid : UID) (begin : Version)
    (tag : Tag) : Result IPeekCursor :=
  let older := peekLogRouterOld self dbgid begin tag (oldLogData self) in
  if hasRouter dbgid (tLogs self) then
    if stopped self then
      newSetPeekCursor (scanLocalSets tag (tLogs self) 0) tag begin (getPeekEnd self) false
    else
      match List.find (fun log => nonEmpty (logServers log) && isLocal log
                                  && negb (hasBestPolicy log =? 0)) (tLogs self) with
      | Some log =>
          do server <- bestServerOf log tag;
          Ok (ServerPeekCursor (Some server) tag begin (getPeekEnd self) false false)
      | None => older
      end
  else older.

(** The version range a cursor was constructed with. *)
Definition cursorRange (c : IPeekCursor) : option (Version * Version) :=
  match c with
  | ServerPeekCursor _ _ begin end' _ _ => Some (begin, end')
  | SetPeekCursor _ _ _ _ begin end' _ => Some (begin, end')
  | MergedPeekCursor _ _ _ _ begin end' _ _ _ _ => Some (begin, end')
  | MergedPeekCursorOver _ _ _ => None
  | MultiCursor _ _ => None
  end.

(** The cursors of a [MultiCursor], newest first, cover the versions below
    [top] without gap or overlap: each has a non-empty range that ends
    where the one before it begins.  The result is where the last begins. *)
Fixpoint chainBottom (top : Version) (cursors : list IPeekCursor) : option Version :=
  match cursors with
  | [] => Some top
  | c :: rest =>
      match cursorRange c with
      | Some (begin, end') =>
          if (end' =? top) && (begin <? end') then chainBottom begin rest else None
      | None => None
      end
  end.

(** Each epoch end is the end of the cursor at the same position. *)
Definition endsOf (cursors : list IPeekCursor) (epochEnds : list Version) : Prop :=
  Forall2 (fun c e => exists begin, cursorRange c = Some (begin, e)) cursors epochEnds.

(** ** What a pop call visits and records *)

(** The log routers visited by one of the loops of [popLogRouter] over the
    sets of a generation. *)
Definition routersAt (popLocality : Z) (sets : list LogSet) : list OptionalInterface :=
  concat (List.map logRouters
            (List.filter (fun t => set_locality t =? popLocality) sets)).

(** The handles a call of [pop] visits, in the order of the loops: log
    routers for a tag of locality [tagLocalityRemoteLog], log servers of the
    current generation otherwise. *)
Definition popTargets (self : TagPartitionedLogSystem) (tag : Tag) (popLocality : Z)
    : list OptionalInterface :=
  if locality tag =? tagLocalityRemoteLog then
    routersAt popLocality (tLogs self)
    ++ concat (List.map (fun old => routersAt popLocality (old_tLogs old)) (oldLogData self))
  else concat (List.map logServers (tLogs self)).

Definition popTime (tag : Tag) : PopDelay :=
  if locality tag =? tagLocalityRemoteLog then LogRouterDelay else LogServerDelay.

(** The entry a visited key holds after [if (prev < upTo) ... = (upTo, kcv)]. *)
Definition raised (upTo knownCommittedVersion : Version)
    (entry : option (Version * Version)) : Version * Version :=
  match entry with
  | Some (prev, kcv) => if prev <? upTo then (upTo, knownCommittedVersion) else (prev, kcv)
  | None => if 0 <? upTo then (upTo, knownCommittedVersion) else (0, 0)
  end.

(** A key for which [prev == 0] holds, so that the call starts a task. *)
Definition unpopped (pops : gmap (UID * Tag) (Version * Version)) (key : UID * Tag) : Prop :=
  match pops !! key with
  | Some (prev, _) => prev = 0
  | None => True
  end.

(** The pop calls among a sequence of actions, as (tag, [upTo],
    [knownCommittedVersion]). *)
Definition askedBy (a : PopAction) : list (Tag * Version * Version) :=
  match a with
  | CallPop upTo tag kcv _ => [(tag, upTo, kcv)]
  | CallPopLogRouter upTo tag kcv _ => [(tag, upTo, kcv)]
  | _ => []
  end.

Definition asked (acts : list PopAction) : list (Tag * Version * Version) :=
  concat (List.map askedBy acts).

(** Everything stored, awaited or sent is a pair some call has asked for
    (an entry may also be the value-initialized pair), and no task is
    behind version 0. *)
Record PopAsked (called : list (Tag * Version * Version)) (w : PopWorld) : Prop :=
  mkPopAsked {
  asked_entry : forall server tag u c,
    outstandingPops (world_system w) !! (server, tag) = Some (u, c) ->
    (u, c) = (0, 0) \/ (tag, u, c) ∈ called;
  asked_await : forall i t to,
    actors (world_system w) !! i = Some t -> pop_state t = AwaitingReply to ->
    (pop_tag t, fst to, snd to) ∈ called /\ 0 <= fst to;
  asked_last : forall i t,
    actors (world_system w) !! i = Some t -> 0 <= pop_last t;
  asked_wire : forall i server req,
    (i, server, req) ∈ wire w ->
    (popreq_tag req, popreq_to req, popreq_knownCommittedVersion req) ∈ called
}.

(** A (server, tag) whose task has stopped with its entry left behind. *)
Definition abandoned (server : UID) (tag : Tag) (s : TagPartitionedLogSystem) : Prop :=
  (exists u c, outstandingPops s !! (server, tag) = Some (u, c) /\ u <> 0)
  /\ forall i t, actors s !! i = Some t -> taskKey t = (server, tag) -> isLive t = false.

(** The events on which [popFromLog] returns and leaves the entry of its
    key in [outstandingPops]: the pop request fails, or the handle is not
    present when a request is due. *)
Definition stopsTask (s : TagPartitionedLogSystem) (t : PopTask) (ev : PopEvent) : Prop :=
  match pop_state t, ev with
  | AwaitingReply _, ReplySettled (Failed _) => True
  | Delaying, DelayElapsed false =>
      exists u c, outstandingPops s !! taskKey t = Some (u, c) /\ pop_last t < u
  | _, _ => False
  end.

(** ** The start version of the remote set ([newRemoteEpoch]) *)


(** ** [trackRejoins] *)

(** [id()] and [commit.getEndpoint()] of a [TLogInterface]. *)
Variable interfaceId : TLogInterface -> UID.
Variable commitEndpoint : TLogInterface -> Z.

(** One turn of the loop, for a request with interface [myInterface].
    [OptionalInterface<TLogInterface>(myInterface)] is a handle value with
    the interface's id; [lastReply[id].send(false)] on a promise that
    [operator[]] has just made reaches no request. *)
Definition rejoin (st : RejoinState) (myInterface : TLogInterface) : RejoinState :=
  let request := received st in
  match list_find (fun log => ident log = interfaceId myInterface) (rejoin_logServers st) with
  | Some (pos, log) =>
      let changed :=
        match iface log with
        | None => true
        | Some interf => negb (commitEndpoint myInterface =? commitEndpoint interf)
        end in
      mkRejoinState
        (if changed
         then <[pos := mkOptionalInterface (interfaceId myInterface) (Some myInterface)]>
                (rejoin_logServers st)
         else rejoin_logServers st)
        (<[interfaceId myInterface := request]> (lastReply st))
        (match lastReply st !! interfaceId myInterface with
         | Some previous => replied st ++ [(previous, false)]
         | None => replied st
         end)
        (S request)
  | None =>
      mkRejoinState (rejoin_logServers st) (lastReply st)
        (replied st ++ [(request, true)]) (S request)
  end.

Definition rejoinRun (requests : list TLogInterface) (st : RejoinState) : RejoinState :=
  fold_left rejoin requests st.

(** The [catch (...)] block: every promise left in [lastReply] is sent
    [true], in the order of the map's keys. *)
Definition rejoinCancelled (st : RejoinState) : list (nat * bool) :=
  replied st
  ++ List.map (fun entry => (snd entry, true))
       (merge_sort by_key (map_to_list (lastReply st))).

(** The state [trackRejoins] starts in. *)
Definition trackRejoins (logServers : list OptionalInterface) : RejoinState :=
  mkRejoinState logServers ∅ [] 0.

(** A request from a server that [trackRejoins] knows and that rejoins
    again later in the stream. *)
Definition superseded (logServers : list OptionalInterface) (requests : list TLogInterface)
    (n : nat) : Prop :=
  exists myInterface later laterInterface,
    requests !! n = Some myInterface
    /\ interfaceId myInterface ∈ List.map ident logServers
    /\ (n < later)%nat
    /\ requests !! later = Some laterInterface
    /\ interfaceId laterInterface = interfaceId myInterface.

(** What holds of the state of [trackRejoins] once it has received
    [requests]: the handles have the ids they started with; a promise kept
    in [lastReply] belongs to the last request of a server it knows; an
    answer [true] went to a server it does not know and an answer [false]
    to a superseded request; and the promises answered or kept are those
    of the requests received, each once. *)
Definition rejoinInv (logServers : list OptionalInterface) (requests : list TLogInterface)
    (st : RejoinState) : Prop :=
  List.map ident (rejoin_logServers st) = List.map ident logServers
  /\ received st = length requests
  /\ (forall id n, lastReply st !! id = Some n ->
        exists myInterface,
          requests !! n = Some myInterface /\ interfaceId myInterface = id
          /\ id ∈ List.map ident logServers
          /\ forall later laterInterface,
               (n < later)%nat -> requests !! later = Some laterInterface ->
               interfaceId laterInterface <> id)
  /\ (forall (n : nat) (b : bool), (n, b) ∈ replied st ->
        if b
        then exists myInterface,
               requests !! n = Some myInterface
               /\ interfaceId myInterface ∉ List.map ident logServers
        else superseded logServers requests n)
  /\ Permutation
       (List.map fst (replied st) ++ List.map snd (map_to_list (lastReply st)))
       (seq 0 (length requests)).

(** ** The generations walked by a peek below all of them

    What [peekAll] is to return for [txsTag] when [begin] lies below every
    generation, told generation by generation rather than by the loop's
    accumulators: the old generations [olds], newest first, each one that is
    read with the scan of its local sets and the begin and the end of its
    cursor.  [lowest] is the lowest start among the newer generations.  A
    generation that starts below [lowest] is read from its start up to
    [lowest], and up to [end'] at most; it has no cursor when it starts at or
    after [end'].  A generation that starts at or after [lowest] is passed
    over. *)
Fixpoint generationsWalked (tag : Tag) (begin end' : Version) (olds : list OldLogData)
    (lowest : Version) : list (LocalSetScan * (Version * Version)) :=
  match olds with
  | [] => []
  | old :: olds' =>
      let sc := scanLocalSets tag (old_tLogs old) begin in
      if scanBegin sc <? lowest then
        (if scanBegin sc <? end' then [(sc, (scanBegin sc, Z.min lowest end'))] else [])
        ++ generationsWalked tag begin end' olds' (scanBegin sc)
      else generationsWalked tag begin end' olds' lowest
  end.

(** The current generation, read from its start up to [end']. *)
Definition currentWalked (tag : Tag) (end' : Version) (sets : list LogSet)
    : list (LocalSetScan * (Version * Version)) :=
  let sc := scanLocalSets tag sets 0 in
  if scanBegin sc <? end' then [(sc, (scanBegin sc, end'))] else [].

(** [c] is the [SetPeekCursor] over the generation [g]. *)
Definition cursorOver (tag : Tag) (parallelGetMore : bool) (c : IPeekCursor)
    (g : LocalSetScan * (Version * Version)) : Prop :=
  newSetPeekCursor (fst g) tag (fst (snd g)) (snd (snd g)) parallelGetMore = Ok c.

(** * Theorems *)

(** ** Machine integers *)

Lemma wrap64_exact z : int64 z -> wrap64 z = z.
Proof.
  unfold int64, INT64_MIN, INT64_MAX, wrap64. intros Hz.
  rewrite Z.mod_small; lia.
Qed.

Lemma wrap64_range z : int64 (wrap64 z).
Proof.
  unfold int64, INT64_MIN, INT64_MAX, wrap64.
  pose proof (Z.mod_pos_bound (z + 2 ^ 63) (2 ^ 64)). lia.
Qed.

(** An increment that wraps can only land below the exact sum. *)
Lemma vadd_le a b : INT64_MIN <= a + b -> vadd a b <= a + b.
Proof.
  unfold vadd, wrap64, INT64_MIN. intros H.
  pose proof (Z.mod_le (a + b + 2 ^ 63) (2 ^ 64)). lia.
Qed.

(** ** getDurableVersion *)

Lemma sort_results_Permutation l : sort_results l ≡ₚ l.
Proof. apply merge_sort_Permutation. Qed.

Lemma sort_results_Sorted l : Sorted sort_by_end (sort_results l).
Proof. apply Sorted_merge_sort, _. Qed.

Lemma sort_results_length l : length (sort_results l) = length l.
Proof. apply Permutation_length, sort_results_Permutation. Qed.

(** [std::sort] is not stable, but any arrangement it may produce has the
    same sequence of [end] values as [sort_results]. *)
Lemma sort_results_ends l l' :
  l' ≡ₚ l -> Sorted sort_by_end l' ->
  List.map end_ l' = List.map end_ (sort_results l).
Proof.
  intros Hp Hs.
  apply (Sorted_unique Z.le).
  - clear Hp. induction Hs as [|a l0 Hs IH Hd]; simpl; constructor; auto.
    destruct Hd; simpl; constructor; auto.
  - pose proof (sort_results_Sorted l) as Hs'.
    induction Hs' as [|a l0 Hs' IH Hd]; simpl; constructor; auto.
    destruct Hd; simpl; constructor; auto.
  - apply fmap_Permutation. rewrite Hp. symmetry. apply sort_results_Permutation.
Qed.

Lemma maxKnownCommitted_ge_init rs init : init <= maxKnownCommitted init rs.
Proof.
  unfold maxKnownCommitted. revert init.
  induction rs as [|r rs IH]; intros init; simpl; [lia|].
  etransitivity; [|apply IH]. lia.
Qed.

Lemma maxKnownCommitted_upper rs init r :
  r ∈ rs -> lock_knownCommittedVersion r <= maxKnownCommitted init rs.
Proof.
  unfold maxKnownCommitted. revert init.
  induction rs as [|r0 rs IH]; intros init Hin; [inversion Hin|].
  simpl. apply elem_of_cons in Hin as [->|Hin].
  - etransitivity; [|apply (maxKnownCommitted_ge_init rs)]. lia.
  - apply IH, Hin.
Qed.

Lemma maxKnownCommitted_attained rs init :
  maxKnownCommitted init rs ∈ init :: List.map lock_knownCommittedVersion rs.
Proof.
  unfold maxKnownCommitted. revert init.
  induction rs as [|r rs IH]; intros init; simpl; [left|].
  specialize (IH (Z.max init (lock_knownCommittedVersion r))).
  apply elem_of_cons in IH as [IH|IH].
  - rewrite IH.
    destruct (Z.max_spec init (lock_knownCommittedVersion r)) as [[_ ->]|[_ ->]].
    + right; left.
    + left.
  - right; right; exact IH.
Qed.

Lemma classifyServer_count lockInfo failed t p p' :
  classifyServer lockInfo failed t p = Ok p' ->
  (length (results p') + length (unResponsiveSet p')
   = S (length (results p) + length (unResponsiveSet p)))%nat
  /\ length (availableItems p') = (length (availableItems p) + (length (results p') - length (results p)))%nat.
Proof.
  unfold classifyServer, addAvailable, addUnresponsive.
  destruct (replies lockInfo !! t) as [[|r|e]|];
    destruct (tLogLocalities (lock_logSet lockInfo) !! t) as [l|]; try discriminate.
  - intros [= <-]; simpl. rewrite length_app; simpl. lia.
  - destruct failed as [|b failed'].
    + intros [= <-]; simpl. rewrite !length_app; simpl. lia.
    + destruct ((b :: failed') !! t) as [[|]|]; try discriminate;
        intros [= <-]; simpl; rewrite ?length_app; simpl; lia.
  - intros [= <-]; simpl. rewrite length_app; simpl. lia.
Qed.

Lemma classifyServers_count lockInfo failed ts p p' :
  classifyServers lockInfo failed ts p = Ok p' ->
  (length (results p') + length (unResponsiveSet p')
   = length ts + (length (results p) + length (unResponsiveSet p)))%nat.
Proof.
  revert p. induction ts as [|t ts IH]; intros p; simpl.
  - intros [= <-]. lia.
  - destruct (classifyServer lockInfo failed t p) as [p1| |] eqn:E; try discriminate.
    intros H. apply IH in H. apply classifyServer_count in E. lia.
Qed.

(** Every server is either among the responded or in the unresponsive set. *)
Lemma respondedServers_count lockInfo failed p :
  respondedServers lockInfo failed = Ok p ->
  (length (results p) + length (unResponsiveSet p)
   = length (logServers (lock_logSet lockInfo)))%nat.
Proof.
  unfold respondedServers. intros H. apply classifyServers_count in H.
  rewrite length_seq in H. simpl in H. lia.
Qed.

Lemma classifyServers_defined lockInfo failed ts p :
  (forall t, t ∈ ts -> (t < length (replies lockInfo))%nat
                       /\ (t < length (tLogLocalities (lock_logSet lockInfo)))%nat
                       /\ (failed = [] \/ (t < length failed)%nat)) ->
  exists p', classifyServers lockInfo failed ts p = Ok p'.
Proof.
  revert p. induction ts as [|t ts IH]; intros p Hts; simpl; [eauto|].
  destruct (Hts t) as (Hr & Hl & Hf); [left|].
  assert (exists p1, classifyServer lockInfo failed t p = Ok p1) as [p1 E].
  { unfold classifyServer.
    destruct (lookup_lt_is_Some_2 _ _ Hr) as [r ->].
    destruct (lookup_lt_is_Some_2 _ _ Hl) as [l ->].
    destruct r as [|r|e]; eauto.
    destruct Hf as [->|Hf]; eauto.
    destruct failed as [|b failed']; eauto.
    destruct (lookup_lt_is_Some_2 _ _ Hf) as [[|] ->]; eauto. }
  rewrite E. apply IH. intros t' Ht'. apply Hts. right; exact Ht'.
Qed.

(** The loop over the servers stays in range when the reply, locality and
    failure vectors are aligned with the servers. *)
Lemma respondedServers_defined lockInfo failed :
  length (replies lockInfo) = length (logServers (lock_logSet lockInfo)) ->
  length (tLogLocalities (lock_logSet lockInfo)) = length (logServers (lock_logSet lockInfo)) ->
  failed = [] \/ length failed = length (logServers (lock_logSet lockInfo)) ->
  exists p, respondedServers lockInfo failed = Ok p.
Proof.
  intros Hr Hl Hf. unfold respondedServers. apply classifyServers_defined.
  intros t Ht. apply elem_of_seq in Ht. simpl in Ht.
  repeat split; try lia. destruct Hf as [->|Hf]; [left; reflexivity|right; lia].
Qed.

Lemma bTooManyFailures_false logSet p :
  bTooManyFailures logSet p = false ->
  tLogWriteAntiQuorum logSet < Z.of_nat (length (results p)).
Proof.
  unfold bTooManyFailures.
  destruct (Z.of_nat (length (results p)) <=? tLogWriteAntiQuorum logSet) eqn:E.
  - simpl. discriminate.
  - intros _. lia.
Qed.

Lemma getDurableVersion_unfold dbgid lockInfo failed lastEnd p :
  paramsOk lockInfo ->
  respondedServers lockInfo failed = Ok p ->
  getDurableVersion dbgid lockInfo failed lastEnd =
    if bTooManyFailures (lock_logSet lockInfo) p then Ok None else
    let logSet := lock_logSet lockInfo in
    let N := Z.of_nat (length (logServers logSet)) in
    let sorted := sort_results (results p) in
    let size := Z.of_nat (length sorted) in
    let new_safe_range_begin := Z.min (tLogWriteAntiQuorum logSet) (size - 1) in
    let safe_range_end := tLogReplicationFactor logSet - (N - size) in
    let proceed :=
      match lastEnd with
      | None => true
      | Some le =>
          (0 <? safe_range_end) && (safe_range_end - 1 <? size)
          && match sorted !! Z.to_nat (safe_range_end - 1) with
             | Some r => end_ r <? le
             | None => false
             end
      end in
    if proceed then
      if new_safe_range_begin <? 0 then Undefined else
      match sorted !! Z.to_nat new_safe_range_begin with
      | Some r => Ok (Some (maxKnownCommitted (vsub (end_ r) lifeVersions) sorted, end_ r))
      | None => Undefined
      end
    else Ok None.
Proof.
  intros (H1 & H2 & H3 & H4) Hp. unfold getDurableVersion.
  rewrite Hp.
  replace (0 <? _) with true by (symmetry; apply Z.ltb_lt; lia).
  replace (_ <=? Z.of_nat (length (logServers (lock_logSet lockInfo)))) with true
    by (symmetry; apply Z.leb_le; lia).
  replace (1 <=? _) with true by (symmetry; apply Z.leb_le; lia).
  replace (tLogReplicationFactor (lock_logSet lockInfo) <=? _) with true
    by (symmetry; apply Z.leb_le; lia).
  replace (0 <=? _) with true by (symmetry; apply Z.leb_le; lia).
  replace (tLogWriteAntiQuorum (lock_logSet lockInfo) <? _) with true
    by (symmetry; apply Z.ltb_lt; lia).
  replace (_ =? _) with true by (symmetry; apply Z.eqb_eq; lia).
  simpl. reflexivity.
Qed.

(** C1: when the parameter assertions pass and the failure pattern is not
    excessive, the responded lock results are sorted ascending by [end];
    if [lastEnd] is absent or the sorted entry at index
    [R - (N - |responded|) - 1] has [end < lastEnd], the result is the pair
    [(kcv, end)] where [end] is the [end] of the sorted entry at index
    [min(A, |responded| - 1)] and [kcv] is the maximum of [end - lifeVersions] and
    every responded server's [knownCommittedVersion]. *)
Theorem getDurableVersion_returns_pair dbgid lockInfo failed lastEnd p :
  let logSet := lock_logSet lockInfo in
  let N := Z.of_nat (length (logServers logSet)) in
  let R := tLogReplicationFactor logSet in
  let A := tLogWriteAntiQuorum logSet in
  let sorted := sort_results (results p) in
  let size := Z.of_nat (length (results p)) in
  paramsOk lockInfo ->
  respondedServers lockInfo failed = Ok p ->
  bTooManyFailures logSet p = false ->
  (lastEnd = None \/
   exists le r, lastEnd = Some le /\ 0 <= R - (N - size) - 1 /\
     sorted !! Z.to_nat (R - (N - size) - 1) = Some r /\ end_ r < le) ->
  (forall r, r ∈ results p -> int64 (end_ r - lifeVersions)) ->
  Sorted sort_by_end sorted /\ sorted ≡ₚ results p /\
  exists r kcv,
    sorted !! Z.to_nat (Z.min A (size - 1)) = Some r /\
    getDurableVersion dbgid lockInfo failed lastEnd = Ok (Some (kcv, end_ r)) /\
    kcv ∈ (end_ r - lifeVersions) :: List.map lock_knownCommittedVersion (results p) /\
    (forall v, v ∈ (end_ r - lifeVersions) :: List.map lock_knownCommittedVersion (results p) ->
               v <= kcv).
Proof.
  intros logSet N R A sorted size Hok Hp Htoo Hlast Hrange.
  split; [apply sort_results_Sorted|]. split; [apply sort_results_Permutation|].
  pose proof (bTooManyFailures_false _ _ Htoo) as Hsize. fold A size in Hsize.
  pose proof Hok as (_ & HR & HA & _). fold logSet N R A in HR, HA.
  assert (Hlen : Z.of_nat (length sorted) = size)
    by (unfold sorted, size; rewrite sort_results_length; reflexivity).
  assert (Hidx : (Z.to_nat (Z.min A (size - 1)) < length sorted)%nat) by lia.
  destruct (lookup_lt_is_Some_2 _ _ Hidx) as [r Hr].
  assert (Hin : r ∈ results p).
  { rewrite <- (sort_results_Permutation (results p)).
    eapply list_elem_of_lookup_2, Hr. }
  exists r, (maxKnownCommitted (end_ r - lifeVersions) sorted).
  split; [exact Hr|]. split.
  - rewrite (getDurableVersion_unfold _ _ _ _ p Hok Hp). fold logSet. rewrite Htoo.
    cbv zeta. fold logSet N R A sorted. rewrite Hlen.
    match goal with |- (if ?c then _ else _) = _ => assert (Hproceed : c = true) end.
    { destruct Hlast as [->|(le & r' & -> & Hpos & Hr' & Hlt)]; [reflexivity|].
      rewrite Hr'. rewrite !andb_true_iff, !Z.ltb_lt. lia. }
    rewrite Hproceed.
    replace (Z.min A (size - 1) <? 0) with false by (symmetry; apply Z.ltb_ge; lia).
    rewrite Hr. unfold vsub. rewrite wrap64_exact by (apply Hrange, Hin).
    reflexivity.
  - assert (Hperm : List.map lock_knownCommittedVersion sorted
                    ≡ₚ List.map lock_knownCommittedVersion (results p))
      by (apply fmap_Permutation, sort_results_Permutation).
    split.
    + pose proof (maxKnownCommitted_attained sorted (end_ r - lifeVersions)) as Hm.
      apply elem_of_cons in Hm as [Hm|Hm]; [rewrite Hm; left|right].
      rewrite <- Hperm. exact Hm.
    + intros v Hv. apply elem_of_cons in Hv as [->|Hv].
      * apply maxKnownCommitted_ge_init.
      * rewrite <- Hperm in Hv. apply list_elem_of_fmap in Hv as (r' & -> & Hr'in).
        apply maxKnownCommitted_upper, Hr'in.
Qed.

(** C2 (as amended): whenever the parameter assertions pass and the failure
    pattern is excessive (at most [A] servers responded, or at least [R]
    servers are unresponsive and their localities validate the policy, or
    [A > 0] and [validateAllCombinations] fails), the result is the empty
    Optional. *)
Theorem getDurableVersion_too_many_failures dbgid lockInfo failed lastEnd p :
  let logSet := lock_logSet lockInfo in
  let R := tLogReplicationFactor logSet in
  let A := tLogWriteAntiQuorum logSet in
  paramsOk lockInfo ->
  respondedServers lockInfo failed = Ok p ->
  (Z.of_nat (length (results p)) <= A
   \/ (R <= Z.of_nat (length (unResponsiveSet p))
       /\ validate (unResponsiveSet p) (tLogPolicy logSet) = true)
   \/ (0 < A
       /\ validateAllCombinations (unResponsiveSet p) (tLogPolicy logSet)
            (availableItems p) A false = false)) ->
  getDurableVersion dbgid lockInfo failed lastEnd = Ok None.
Proof.
  intros logSet R A Hok Hp Hcases.
  rewrite (getDurableVersion_unfold _ _ _ _ p Hok Hp). fold logSet.
  assert (Htoo : bTooManyFailures logSet p = true).
  { unfold bTooManyFailures. fold R A.
    destruct Hcases as [H|[[H1 H2]|[H1 H2]]].
    - replace (Z.of_nat (length (results p)) <=? A) with true
        by (symmetry; apply Z.leb_le; lia).
      simpl. reflexivity.
    - rewrite H2. replace (R <=? _) with true by (symmetry; apply Z.leb_le; lia).
      rewrite orb_true_r. simpl. reflexivity.
    - rewrite H2. replace (A =? 0) with false by (symmetry; apply Z.eqb_neq; lia).
      simpl. rewrite andb_true_r.
      destruct (_ || _); reflexivity. }
  rewrite Htoo. reflexivity.
Qed.

(** ** Configuration round trip *)

Lemma logSetOfTLogSet_tLogSetOfLogSet s : logSetOfTLogSet (tLogSetOfLogSet s) = s.
Proof. destruct s; reflexivity. Qed.

Lemma tLogSetOfLogSet_logSetOfTLogSet t : tLogSetOfLogSet (logSetOfTLogSet t) = t.
Proof. destruct t; reflexivity. Qed.

Lemma filterLogSetLocalities_fixed s :
  filterLocalityDataForPolicy (tLogPolicy s) (tLogLocalities s) = tLogLocalities s ->
  filterLogSetLocalities s = s.
Proof. destruct s; unfold filterLogSetLocalities; simpl. intros ->. reflexivity. Qed.

Lemma filter_all {A} (f : A -> bool) (l : list A) :
  (forall x, x ∈ l -> f x = true) -> List.filter f l = l.
Proof.
  induction l as [|a l IH]; intros H; simpl; [reflexivity|].
  rewrite (H a) by left. f_equal. apply IH. intros x Hx. apply H. right; exact Hx.
Qed.

Lemma map_fixed {A} (f : A -> A) (l : list A) :
  (forall x, x ∈ l -> f x = x) -> List.map f l = l.
Proof.
  induction l as [|a l IH]; intros H; simpl; [reflexivity|].
  rewrite (H a) by left. f_equal. apply IH. intros x Hx. apply H. right; exact Hx.
Qed.

Lemma oldLogData_roundtrip olds :
  List.map oldLogDataOfConf
    (List.map (fun old => mkOldTLogConf (List.map tLogSetOfLogSet (old_tLogs old))
                            (old_logRouterTags old) (old_epochEnd old)) olds) = olds.
Proof.
  rewrite List.map_map. apply map_fixed. intros [sets tags e] _.
  unfold oldLogDataOfConf; simpl. f_equal.
  rewrite List.map_map. apply map_fixed. intros s _. apply logSetOfTLogSet_tLogSetOfLogSet.
Qed.

(** C7 (as amended): the round trip restores the per-set parameters, the
    handles, [logRouterTags], [recruitmentID], [stopped] and the old
    generations of every [L] whose [logSystemType] passes the assertion,
    whose non-local sets are exported and kept, whose old generations are
    exported, and whose locality vectors are already filtered for their
    policy. *)
Theorem fromLogSystemConfig_getLogSystemConfig dbgid locality L excludeRemote :
  (logSystemType L = 2 \/ (logSystemType L = 0 /\ tLogs L = [])) ->
  (forall s, s ∈ tLogs L ->
     isLocal s = true \/ (remoteLogsWrittenToCoreState L = true /\ excludeRemote = false)) ->
  (recoveryCompleteWrittenToCoreState L = false \/ oldLogData L = []) ->
  (forall s, s ∈ tLogs L ->
     filterLocalityDataForPolicy (tLogPolicy s) (tLogLocalities s) = tLogLocalities s) ->
  exists L',
    fromLogSystemConfig dbgid locality (getLogSystemConfig L) excludeRemote = Ok L' /\
    tLogs L' = tLogs L /\
    logRouterTags L' = logRouterTags L /\
    recruitmentID L' = recruitmentID L /\
    stopped L' = stopped L /\
    oldLogData L' = oldLogData L /\
    logSystemType L' = logSystemType L /\
    expectedLogSets L' = expectedLogSets L.
Proof.
  intros Htype Hsets Hold Hfilt.
  assert (Hexp : List.filter (fun logSet => isLocal logSet || remoteLogsWrittenToCoreState L)
                   (tLogs L) = tLogs L).
  { apply filter_all. intros s Hs. destruct (Hsets s Hs) as [->|[-> _]]; [reflexivity|].
    apply orb_true_r. }
  unfold fromLogSystemConfig, getLogSystemConfig; simpl. rewrite Hexp.
  assert (Hassert : (logSystemType L =? 2)
                    || (logSystemType L =? 0)
                       && Nat.eqb (length (List.map tLogSetOfLogSet (tLogs L))) 0 = true).
  { destruct Htype as [->|[-> ->]]; reflexivity. }
  rewrite Hassert. simpl. eexists; split; [reflexivity|]. simpl.
  repeat split.
  - rewrite filter_all.
    + rewrite List.map_map. apply map_fixed. intros s Hs.
      rewrite logSetOfTLogSet_tLogSetOfLogSet. apply filterLogSetLocalities_fixed, Hfilt, Hs.
    + intros t Ht. apply list_elem_of_fmap in Ht as (s & -> & Hs). simpl.
      destruct (Hsets s Hs) as [->|[_ ->]]; [apply orb_true_r|reflexivity].
  - destruct Hold as [->| ->].
    + apply oldLogData_roundtrip.
    + destruct (recoveryCompleteWrittenToCoreState L); reflexivity.
Qed.

(** ** Push *)

Lemma succeeded_reportTLogCommitErrors f d :
  succeeded (reportTLogCommitErrors f d) = succeeded f.
Proof. destruct f as [| |[]]; reflexivity. Qed.

Lemma quorum_Ready fs k :
  quorum fs k = Ready tt -> k <= Z.of_nat (length (List.filter succeeded fs)).
Proof.
  unfold quorum. destruct (k <=? _) eqn:E; [intros _; lia|].
  destruct (firstError fs); [|discriminate].
  destruct (_ <? _); discriminate.
Qed.

Lemma firstError_None_no_error {A} (fs : list (FutureState A)) f :
  firstError fs = None -> f ∈ fs -> isError f = false.
Proof.
  unfold firstError. intros H Hin.
  destruct (isError f) eqn:E; [|reflexivity].
  assert (Hf : f ∈ List.filter isError fs)
    by (apply list_elem_of_In, List.filter_In; split; [apply list_elem_of_In, Hin|exact E]).
  destruct (List.filter isError fs) as [|g gs] eqn:Eg; [inversion Hf|].
  assert (Hg : isError g = true).
  { assert (List.In g (List.filter isError fs)) as Hg by (rewrite Eg; left; reflexivity).
    apply List.filter_In in Hg. tauto. }
  destruct g; discriminate.
Qed.

Lemma waitForAll_Ready fs f :
  waitForAll fs = Ready tt -> f ∈ fs -> f = Ready tt.
Proof.
  unfold waitForAll. destruct (firstError fs); [discriminate|].
  destruct (forallb succeeded fs) eqn:E; [|discriminate]. intros _ Hin.
  rewrite forallb_forall in E. apply list_elem_of_In, E in Hin.
  destruct f as [|[]|]; try discriminate. reflexivity.
Qed.

Lemma pushToServers_results servers location request reply d sent rs :
  pushToServers servers location request reply d = Ok (sent, rs) ->
  length rs = length servers /\
  length (List.filter succeeded rs) = acknowledged reply location (length servers).
Proof.
  revert location sent rs. induction servers as [|log rest IH]; intros location sent rs; simpl.
  - intros [= <- <-]. split; reflexivity.
  - destruct (iface log); [|discriminate].
    destruct (pushToServers rest (S location) request reply d) as [[sent' rs']| |] eqn:E;
      try discriminate.
    intros [= <- <-]. destruct (IH _ _ _ E) as [Hlen Hack]. simpl. split; [lia|].
    unfold acknowledged in *. simpl. rewrite succeeded_reportTLogCommitErrors.
    destruct (succeeded (reply location)); simpl; lia.
Qed.

Lemma locationOffset_S sets i it :
  sets !! i = Some it ->
  locationOffset sets (S i) =
    if isLocal it && nonEmpty (logServers it)
    then (locationOffset sets i + length (logServers it))%nat else locationOffset sets i.
Proof.
  intros Hi. unfold locationOffset.
  rewrite (take_S_r _ _ _ Hi), fold_left_app. reflexivity.
Qed.

Lemma locationOffset_shift (l : list LogSet) (n k : nat) :
  fold_left (fun offset log =>
               if isLocal log && nonEmpty (logServers log)
               then (offset + length (logServers log))%nat else offset) l (n + k)%nat
  = (fold_left (fun offset log =>
                 if isLocal log && nonEmpty (logServers log)
                 then (offset + length (logServers log))%nat else offset) l n + k)%nat.
Proof.
  revert n. induction l as [|a l IH]; intros n; simpl; [reflexivity|].
  destruct (isLocal a && nonEmpty (logServers a)); [|apply IH].
  replace (n + k + length (logServers a))%nat with (n + length (logServers a) + k)%nat by lia.
  apply IH.
Qed.

Lemma pushToSets_quorum sets : forall location request reply d sent qs,
  pushToSets sets location request reply d = Ok (sent, qs) ->
  (forall q, q ∈ qs -> q = Ready tt) ->
  forall i it, sets !! i = Some it -> isLocal it = true -> logServers it <> [] ->
    Z.of_nat (length (logServers it)) - tLogWriteAntiQuorum it
    <= Z.of_nat (acknowledged reply (location + locationOffset sets i) (length (logServers it))).
Proof.
  induction sets as [|s rest IH]; intros location request reply d sent qs Hpush Hall i it Hi Hloc Hne.
  - rewrite lookup_nil in Hi. discriminate.
  - simpl in Hpush. destruct (isLocal s && nonEmpty (logServers s)) eqn:Es.
    + destruct (pushToServers (logServers s) location request reply d)
        as [[sent1 rs]| |] eqn:E1; try discriminate.
      destruct (pushToSets rest (location + length (logServers s)) request reply d)
        as [[sent2 qs2]| |] eqn:E2; try discriminate.
      injection Hpush as <- <-.
      destruct (pushToServers_results _ _ _ _ _ _ _ E1) as [Hlen Hack].
      destruct i as [|i].
      * injection Hi as <-. unfold locationOffset; simpl. rewrite Nat.add_0_r.
        assert (Hq : quorum rs (Z.of_nat (length rs) - tLogWriteAntiQuorum s) = Ready tt)
          by (apply Hall; left).
        apply quorum_Ready in Hq. rewrite Hack, Hlen in Hq. exact Hq.
      * simpl in Hi.
        assert (Hoff : (location + locationOffset (s :: rest) (S i)
                        = location + length (logServers s) + locationOffset rest i)%nat).
        { unfold locationOffset. simpl. rewrite Es.
          pose proof (locationOffset_shift (take i rest) 0 (length (logServers s))) as Hs.
          simpl in Hs. rewrite Hs. lia. }
        rewrite Hoff.
        eapply (IH _ _ _ _ _ _ E2); eauto. intros q Hq. apply Hall. right; exact Hq.
    + destruct i as [|i].
      * injection Hi as <-. rewrite Hloc in Es. destruct (logServers s); [congruence|discriminate].
      * simpl in Hi.
        assert (Hoff : locationOffset (s :: rest) (S i) = locationOffset rest i).
        { unfold locationOffset. simpl. rewrite Es. reflexivity. }
        rewrite Hoff. eapply (IH _ _ _ _ _ _ Hpush); eauto.
Qed.

(** C3: whenever the future returned by [push] has completed successfully,
    every local set with servers has at least [N - A] of its commit requests
    acknowledged. *)
Theorem push_completes_only_with_quorum self prevVersion version knownCommitted data debugID
    reply sent :
  push self prevVersion version knownCommitted data debugID reply = Ok (sent, Ready tt) ->
  forall i it, tLogs self !! i = Some it -> isLocal it = true -> logServers it <> [] ->
    Z.of_nat (length (logServers it)) - tLogWriteAntiQuorum it
    <= Z.of_nat (acknowledged reply (locationOffset (tLogs self) i) (length (logServers it))).
Proof.
  unfold push. intros Hpush i it Hi Hloc Hne.
  destruct (pushToSets (tLogs self) 0 _ reply (sys_dbgid self)) as [[sent' qs]| |] eqn:E;
    try discriminate.
  injection Hpush as <- Hw.
  eapply (pushToSets_quorum _ 0%nat _ _ _ _ _ E); eauto.
  intros q Hq. eapply waitForAll_Ready; eauto.
Qed.

(** ** Peek *)

Lemma scanLocalSet_inRange tag sc log :
  scanInRange sc -> scanInRange (scanLocalSet tag sc log).
Proof.
  unfold scanInRange, scanLocalSet. intros H.
  destruct (isLocal log && nonEmpty (logServers log)); [|exact H].
  simpl. rewrite length_app. simpl.
  destruct (negb (hasBestPolicy log =? 0) && localityMatches log tag); lia.
Qed.

Lemma scanLocalSet_begin tag sc log :
  scanBegin sc <= scanBegin (scanLocalSet tag sc log) /\
  (isLocal log = true -> logServers log <> [] ->
   startVersion log <= scanBegin (scanLocalSet tag sc log)).
Proof.
  unfold scanLocalSet.
  destruct (isLocal log) eqn:El; simpl.
  - destruct (logServers log) eqn:Es; simpl; [split; [lia|congruence]|]. lia.
  - split; [lia|discriminate].
Qed.

Lemma fold_scanLocalSet tag sets : forall sc,
  let sc' := fold_left (scanLocalSet tag) sets sc in
  (scanInRange sc -> scanInRange sc') /\
  scanBegin sc <= scanBegin sc' /\
  (forall log, log ∈ sets -> isLocal log = true -> logServers log <> [] ->
               startVersion log <= scanBegin sc').
Proof.
  induction sets as [|s rest IH]; intros sc; simpl.
  - split; [auto|]. split; [lia|]. intros log Hin. inversion Hin.
  - destruct (IH (scanLocalSet tag sc s)) as (Hr & Hb & Hs).
    pose proof (scanLocalSet_begin tag sc s) as [Hb1 Hs1].
    split; [intros H; apply Hr, scanLocalSet_inRange, H|]. split; [lia|].
    intros log Hin Hl Hne. apply elem_of_cons in Hin as [->|Hin].
    + specialize (Hs1 Hl Hne). lia.
    + apply Hs; assumption.
Qed.

Lemma scanLocalSets_inRange tag sets begin : scanInRange (scanLocalSets tag sets begin).
Proof.
  unfold scanLocalSets.
  apply (fold_scanLocalSet tag sets (mkLocalSetScan [] (-1) (-1) begin)).
  left; reflexivity.
Qed.

Lemma scanLocalSets_startsAfter tag sets floor begin :
  startsAfter begin sets -> begin < scanBegin (scanLocalSets tag sets floor).
Proof.
  intros (log & Hin & Hl & Hne & Hlt). unfold scanLocalSets.
  pose proof (fold_scanLocalSet tag sets (mkLocalSetScan [] (-1) (-1) floor)) as (_ & _ & Hs).
  specialize (Hs log Hin Hl Hne). lia.
Qed.

Lemma newSetPeekCursor_defined sc tag begin end' pgm :
  scanInRange sc -> exists c, newSetPeekCursor sc tag begin end' pgm = Ok c.
Proof.
  unfold scanInRange, newSetPeekCursor. intros [H|H].
  - rewrite H. simpl. eauto.
  - replace (0 <=? bestSet sc) with true by (symmetry; apply Z.leb_le; lia).
    assert (Hlt : (Z.to_nat (bestSet sc) < length (localSets sc))%nat) by lia.
    destruct (lookup_lt_is_Some_2 _ _ Hlt) as [log ->]. eauto.
Qed.

(** When every remaining generation starts after [begin], the loop of
    [peekAll] runs out of generations. *)
Lemma peekAllOld_exhausted self begin end' tag pgm throwIfDead olds :
  forall lastBegin cursors epochEnds,
  begin < lastBegin ->
  Forall (fun old => startsAfter begin (old_tLogs old)) olds ->
  exists cursors' epochEnds',
    peekAllOld self begin end' tag pgm throwIfDead olds lastBegin cursors epochEnds =
      if bool_decide (tag = txsTag) then Ok (MultiCursor cursors' epochEnds')
      else if throwIfDead then Throw worker_removed
      else Ok (emptyCursor self tag begin).
Proof.
  induction olds as [|old olds IH]; intros lastBegin cursors epochEnds Hlt Hall; simpl.
  - replace (begin <? lastBegin) with true by (symmetry; apply Z.ltb_lt; lia). simpl.
    exists cursors, epochEnds. reflexivity.
  - replace (begin <? lastBegin) with true by (symmetry; apply Z.ltb_lt; lia). simpl.
    inversion Hall as [|? ? Hold Holds]; subst.
    pose proof (scanLocalSets_startsAfter tag _ begin begin Hold) as Hthis.
    destruct (scanBegin (scanLocalSets tag (old_tLogs old) begin) <? lastBegin) eqn:E1.
    + destruct (scanBegin (scanLocalSets tag (old_tLogs old) begin) <? end') eqn:E2.
      * destruct (newSetPeekCursor_defined (scanLocalSets tag (old_tLogs old) begin) tag
                    (scanBegin (scanLocalSets tag (old_tLogs old) begin))
                    (Z.min lastBegin end') pgm (scanLocalSets_inRange _ _ _)) as [c ->].
        simpl. apply IH; assumption.
      * apply IH; assumption.
    + apply IH; assumption.
Qed.

Lemma peekAll_exhausted self dbgid begin end' tag pgm throwIfDead :
  startsAfter begin (tLogs self) ->
  Forall (fun old => startsAfter begin (old_tLogs old)) (oldLogData self) ->
  exists cursors epochEnds,
    peekAll self dbgid begin end' tag pgm throwIfDead =
      if bool_decide (tag = txsTag) then Ok (MultiCursor cursors epochEnds)
      else if throwIfDead then Throw worker_removed
      else Ok (emptyCursor self tag begin).
Proof.
  intros Hcur Holds. unfold peekAll.
  pose proof (scanLocalSets_startsAfter tag _ 0 begin Hcur) as Hlt.
  replace (scanBegin (scanLocalSets tag (tLogs self) 0) <=? begin) with false
    by (symmetry; apply Z.leb_gt; lia).
  destruct (scanBegin (scanLocalSets tag (tLogs self) 0) <? end').
  - destruct (newSetPeekCursor_defined (scanLocalSets tag (tLogs self) 0) tag
                (scanBegin (scanLocalSets tag (tLogs self) 0)) end' pgm
                (scanLocalSets_inRange _ _ _)) as [c ->].
    simpl. apply peekAllOld_exhausted; assumption.
  - simpl. apply peekAllOld_exhausted; assumption.
Qed.

(** For [txsTag] the loop of [peekAll] appends one cursor for each
    generation walked, with its end. *)
Lemma peekAllOld_walked self begin end' pgm throwIfDead olds :
  forall lastBegin cursors epochEnds,
  begin < lastBegin ->
  Forall (fun old => startsAfter begin (old_tLogs old)) olds ->
  exists collected,
    peekAllOld self begin end' txsTag pgm throwIfDead olds lastBegin cursors epochEnds
      = Ok (MultiCursor (cursors ++ collected)
              (epochEnds ++ List.map (fun g => snd (snd g))
                              (generationsWalked txsTag begin end' olds lastBegin)))
    /\ Forall2 (cursorOver txsTag pgm) collected
         (generationsWalked txsTag begin end' olds lastBegin).
Proof.
  induction olds as [|old olds IH]; intros lastBegin cursors epochEnds Hlt Hall; simpl.
  - replace (begin <? lastBegin) with true by (symmetry; apply Z.ltb_lt; lia). simpl.
    rewrite bool_decide_eq_true_2 by reflexivity.
    exists []. rewrite !app_nil_r. split; [reflexivity|constructor].
  - replace (begin <? lastBegin) with true by (symmetry; apply Z.ltb_lt; lia). simpl.
    inversion Hall as [|? ? Hold Holds]; subst.
    pose proof (scanLocalSets_startsAfter txsTag _ begin begin Hold) as Hthis.
    destruct (scanBegin (scanLocalSets txsTag (old_tLogs old) begin) <? lastBegin) eqn:E1.
    + destruct (scanBegin (scanLocalSets txsTag (old_tLogs old) begin) <? end') eqn:E2.
      * destruct (newSetPeekCursor_defined (scanLocalSets txsTag (old_tLogs old) begin) txsTag
                    (scanBegin (scanLocalSets txsTag (old_tLogs old) begin))
                    (Z.min lastBegin end') pgm (scanLocalSets_inRange _ _ _)) as [c Hc].
        rewrite Hc. cbn [bindResult].
        destruct (IH (scanBegin (scanLocalSets txsTag (old_tLogs old) begin))
                    (cursors ++ [c]) (epochEnds ++ [Z.min lastBegin end']) Hthis Holds)
          as (collected & -> & Hover).
        exists (c :: collected). split.
        -- rewrite <- !app_assoc. reflexivity.
        -- constructor; [exact Hc|exact Hover].
      * apply IH; assumption.
    + apply IH; assumption.
Qed.

(** C6 (as amended): a peek of a tag whose locality is not [RemoteLog],
    from a [begin] below the local sets of the current and of every old
    generation, does not fail.  For a tag other than [txsTag] it returns the
    empty [ServerPeekCursor]; [WorkerRemoved] is thrown by [peekAll] only
    when it is called with [throwIfDead], which [peek] does not do.  For
    [txsTag] it returns the [MultiCursor] of the cursors collected for the
    generations walked: the cursor over the current generation from its
    start to [getPeekEnd()], then one cursor for each old generation that
    starts below all newer ones and below [getPeekEnd()], from its start to
    the lowest start of the newer ones (to [getPeekEnd()] at most), and the
    ends of the cursors of the old generations as the epoch ends. *)
Theorem peek_below_all_generations self dbgid begin tag pgm :
  locality tag <> tagLocalityRemoteLog ->
  startsAfter begin (tLogs self) ->
  Forall (fun old => startsAfter begin (old_tLogs old)) (oldLogData self) ->
  (tag <> txsTag ->
     peek self dbgid begin tag pgm
       = Ok (ServerPeekCursor None tag begin (getPeekEnd self) false false)
     /\ peekAll self dbgid begin (getPeekEnd self) tag pgm true = Throw worker_removed)
  /\ (tag = txsTag ->
     let current := currentWalked tag (getPeekEnd self) (tLogs self) in
     let old := generationsWalked tag begin (getPeekEnd self) (oldLogData self)
                  (scanBegin (scanLocalSets tag (tLogs self) 0)) in
     exists cursors,
       peek self dbgid begin tag pgm
         = Ok (MultiCursor cursors (List.map (fun g => snd (snd g)) old))
       /\ Forall2 (cursorOver tag pgm) cursors (current ++ old)).
Proof.
  intros Hloc Hcur Holds.
  assert (Hpeek : peek self dbgid begin tag pgm
                  = peekAll self dbgid begin (getPeekEnd self) tag pgm false).
  { unfold peek. destruct Hcur as (log & Hin & _).
    destruct (tLogs self); [inversion Hin|]. simpl.
    replace (locality tag =? tagLocalityRemoteLog) with false
      by (symmetry; apply Z.eqb_neq; exact Hloc).
    reflexivity. }
  split.
  - intros Htag. split.
    + rewrite Hpeek.
      destruct (peekAll_exhausted self dbgid begin (getPeekEnd self) tag pgm false Hcur Holds)
        as (cs & es & ->).
      rewrite bool_decide_eq_false_2 by exact Htag. reflexivity.
    + destruct (peekAll_exhausted self dbgid begin (getPeekEnd self) tag pgm true Hcur Holds)
        as (cs & es & ->).
      rewrite bool_decide_eq_false_2 by exact Htag. reflexivity.
  - intros -> current old. rewrite Hpeek. unfold peekAll.
    pose proof (scanLocalSets_startsAfter txsTag _ 0 begin Hcur) as Hlt.
    replace (scanBegin (scanLocalSets txsTag (tLogs self) 0) <=? begin) with false
      by (symmetry; apply Z.leb_gt; lia).
    subst current old. unfold currentWalked.
    destruct (scanBegin (scanLocalSets txsTag (tLogs self) 0) <? getPeekEnd self).
    + destruct (newSetPeekCursor_defined (scanLocalSets txsTag (tLogs self) 0) txsTag
                  (scanBegin (scanLocalSets txsTag (tLogs self) 0)) (getPeekEnd self) pgm
                  (scanLocalSets_inRange _ _ _)) as [c Hc].
      rewrite Hc. cbn [bindResult].
      destruct (peekAllOld_walked self begin (getPeekEnd self) pgm false (oldLogData self)
                  _ [c] [] Hlt Holds) as (collected & -> & Hover).
      exists (c :: collected). split; [reflexivity|].
      constructor; [exact Hc|exact Hover].
    + cbn [bindResult].
      destruct (peekAllOld_walked self begin (getPeekEnd self) pgm false (oldLogData self)
                  _ [] [] Hlt Holds) as (collected & -> & Hover).
      exists collected. split; [reflexivity|exact Hover].
Qed.

(** C10: with no log sets, and with an empty tag list, [peek] returns an
    empty [ServerPeekCursor] from [begin] to [getPeekEnd()] and throws
    nothing. *)
Theorem peek_nothing_to_read self dbgid begin tag pgm :
  (tLogs self = [] ->
   peek self dbgid begin tag pgm
     = Ok (ServerPeekCursor None tag begin (getPeekEnd self) false false))
  /\ peekTags self dbgid begin [] pgm
     = Ok (ServerPeekCursor None invalidTag begin (getPeekEnd self) false false).
Proof.
  split; [|reflexivity]. intros Hsets. unfold peek. rewrite Hsets. reflexivity.
Qed.

(** ** Pop *)

(** C9: [pop] with [upTo <= 0], and [popLogRouter] with [upTo = 0], return
    at once and leave the log system as it was: no entry of
    [outstandingPops] is created or changed and no task is spawned. *)
Theorem pop_nonpositive_returns self upTo tag knownCommitted popLocality :
  upTo <= 0 ->
  pop self upTo tag knownCommitted popLocality = Ok self
  /\ popLogRouter self 0 tag knownCommitted popLocality = self.
Proof.
  intros H. unfold pop, popLogRouter.
  replace (upTo <=? 0) with true by (symmetry; apply Z.leb_le; exact H).
  split; reflexivity.
Qed.

Lemma popsGrow_refl m : popsGrow m m.
Proof. intros key u c H. exists u, c. split; [exact H|lia]. Qed.

Lemma popsGrow_trans m1 m2 m3 : popsGrow m1 m2 -> popsGrow m2 m3 -> popsGrow m1 m3.
Proof.
  intros H12 H23 key u c H.
  destruct (H12 key u c H) as (u2 & c2 & H2 & Hle).
  destruct (H23 key u2 c2 H2) as (u3 & c3 & H3 & Hle').
  exists u3, c3. split; [exact H3|lia].
Qed.

Lemma popsGrow_monotone m m' : popsGrow m m' -> popsMonotone m m'.
Proof.
  intros H key u c u' c' Hm Hm'.
  destruct (H key u c Hm) as (u2 & c2 & H2 & Hle). rewrite H2 in Hm'.
  injection Hm' as <- <-. exact Hle.
Qed.

Lemma sentBy_snoc j w i server req :
  sentBy j (w ++ [(i, server, req)]) =
    if Nat.eqb i j then sentBy j w ++ [popreq_to req] else sentBy j w.
Proof.
  unfold sentBy. rewrite List.filter_app, List.map_app. simpl.
  destruct (Nat.eqb i j); simpl; [reflexivity|apply app_nil_r].
Qed.

(** *** One handle of a [pop] call *)

Lemma popOne_inv upTo tag kcv time self log w :
  0 < upTo ->
  PopInv (outstandingPops self) (actors self) w ->
  PopInv (outstandingPops (popOne upTo tag kcv time self log))
         (actors (popOne upTo tag kcv time self log)) w
  /\ popsGrow (outstandingPops self) (outstandingPops (popOne upTo tag kcv time self log)).
Proof.
  intros Hpos Hinv. unfold popOne, subscript.
  destruct (outstandingPops self !! (ident log, tag)) as [[u c]|] eqn:E; simpl.
  - pose proof (inv_positive _ _ _ Hinv _ _ _ E) as Hu.
    replace (u =? 0) with false by (symmetry; apply Z.eqb_neq; lia).
    destruct (u <? upTo) eqn:Eu; simpl; [|split; [exact Hinv|apply popsGrow_refl]].
    apply Z.ltb_lt in Eu. split.
    + destruct Hinv as [Huniq Hentry Hposi Hlast Hsorted Hbound Htasks].
      constructor; auto.
      * intros i t Ht Hl. apply lookup_insert_is_Some'. right. eapply Hentry; eauto.
      * intros key u' c' Hk. apply lookup_insert_Some in Hk as [[_ [= <- <-]]|[_ Hk]]; eauto.
    + intros key u' c' Hk. destruct (decide ((ident log, tag) = key)) as [<-|Hne].
      * pose proof (eq_trans (eq_sym E) Hk) as Heq. injection Heq as <- <-.
        exists upTo, kcv. rewrite lookup_insert_eq. split; [reflexivity|lia].
      * exists u', c'. rewrite lookup_insert_ne by exact Hne. split; [exact Hk|lia].
  - replace (0 <? upTo) with true by (symmetry; apply Z.ltb_lt; lia). simpl.
    rewrite insert_insert_eq. split.
    + destruct Hinv as [Huniq Hentry Hposi Hlast Hsorted Hbound Htasks].
      constructor; auto.
      * intros i j ti tj Hi Hj Hli Hlj Hkey.
        apply lookup_snoc_Some in Hi as [[Hi1 Hi]|[-> <-]];
          apply lookup_snoc_Some in Hj as [[Hj1 Hj]|[-> <-]].
        -- eauto.
        -- exfalso. destruct (Hentry i ti Hi Hli) as [x Hx].
           rewrite Hkey in Hx. unfold taskKey in Hx; simpl in Hx. congruence.
        -- exfalso. destruct (Hentry j tj Hj Hlj) as [x Hx].
           rewrite <- Hkey in Hx. unfold taskKey in Hx; simpl in Hx. congruence.
        -- reflexivity.
      * intros i t Ht Hl. apply lookup_insert_is_Some'.
        apply lookup_snoc_Some in Ht as [[_ Ht]|[_ <-]]; [right; eauto|left; reflexivity].
      * intros key u' c' Hk. apply lookup_insert_Some in Hk as [[_ [= <- <-]]|[_ Hk]]; eauto.
      * intros i t Ht. apply lookup_snoc_Some in Ht as [[_ Ht]|[_ <-]]; [eauto|].
        simpl. split; [lia|exact I].
      * intros i t v Ht Hl Hv. apply lookup_snoc_Some in Ht as [[_ Ht]|[-> <-]]; [eauto|].
        rewrite Htasks in Hv by lia. inversion Hv.
      * intros i Hi. rewrite length_app in Hi. simpl in Hi. apply Htasks. lia.
    + intros key u' c' Hk. exists u', c'.
      rewrite lookup_insert_ne; [split; [exact Hk|lia]|].
      intros Heq. subst key. pose proof (eq_trans (eq_sym E) Hk). discriminate.
Qed.

Lemma popStep_fold {A} w (f : TagPartitionedLogSystem -> A -> TagPartitionedLogSystem) :
  (forall s x, popStep w s (f s x)) ->
  forall l s, popStep w s (fold_left f l s).
Proof.
  intros Hf l. induction l as [|x l IH]; intros s Hinv; simpl.
  - split; [exact Hinv|apply popsGrow_refl].
  - destruct (Hf s x Hinv) as [H1 G1]. destruct (IH (f s x) H1) as [H2 G2].
    split; [exact H2|eapply popsGrow_trans; eauto].
Qed.

Lemma popRouters_step w upTo tag kcv popLocality s t :
  0 < upTo -> popStep w s (popRouters upTo tag kcv popLocality s t).
Proof.
  intros Hpos. unfold popRouters. destruct (set_locality t =? popLocality).
  - apply popStep_fold. intros s' log Hinv. apply popOne_inv; assumption.
  - intros Hinv. split; [exact Hinv|apply popsGrow_refl].
Qed.

Lemma popLogRouter_step w upTo tag kcv popLocality s :
  0 <= upTo -> popStep w s (popLogRouter s upTo tag kcv popLocality).
Proof.
  intros Hpos. unfold popLogRouter. destruct (upTo =? 0) eqn:E.
  - intros Hinv. split; [exact Hinv|apply popsGrow_refl].
  - apply Z.eqb_neq in E. intros Hinv.
    destruct (popStep_fold w (popRouters upTo tag kcv popLocality)
                (fun s0 t => popRouters_step w upTo tag kcv popLocality s0 t ltac:(lia))
                (tLogs s) s Hinv) as [H1 G1].
    destruct (popStep_fold w
                (fun s0 old => fold_left (popRouters upTo tag kcv popLocality) (old_tLogs old) s0)
                (fun s0 old => popStep_fold w (popRouters upTo tag kcv popLocality)
                   (fun s1 t => popRouters_step w upTo tag kcv popLocality s1 t ltac:(lia))
                   (old_tLogs old) s0)
                (oldLogData s) _ H1) as [H2 G2].
    split; [exact H2|eapply popsGrow_trans; eauto].
Qed.

Lemma pop_step w upTo tag kcv popLocality s s' :
  pop s upTo tag kcv popLocality = Ok s' -> popStep w s s'.
Proof.
  unfold pop. destruct (upTo <=? 0) eqn:E.
  - intros [= <-] Hinv. split; [exact Hinv|apply popsGrow_refl].
  - apply Z.leb_gt in E. destruct (locality tag =? tagLocalityRemoteLog).
    + intros [= <-]. apply popLogRouter_step. lia.
    + destruct (negb (popLocality =? tagLocalityInvalid)); [discriminate|].
      intros [= <-]. apply popStep_fold. intros s0 t. apply popStep_fold.
      intros s1 log Hinv. apply popOne_inv; assumption.
Qed.

(** *** One resumption of [popFromLog] *)

Lemma isLive_Finished t last : isLive (task_with t last Finished) = false.
Proof. reflexivity. Qed.

(** Task [i] returns; its entry is erased or left in place. *)
Lemma PopInv_finish pops pops' tasks w i t :
  PopInv pops tasks w -> tasks !! i = Some t -> isLive t = true ->
  (forall k, k <> taskKey t -> pops' !! k = pops !! k) ->
  (forall v, pops' !! taskKey t = Some v -> pops !! taskKey t = Some v) ->
  PopInv pops' (<[i := task_with t (pop_last t) Finished]> tasks) w.
Proof.
  intros [Huniq Hentry Hposi Hlast Hsorted Hbound Htasks] Hi Hlive Hother Hkey.
  constructor.
  - intros i1 j1 ti tj H1 H2 Hl1 Hl2 Hk.
    apply list_lookup_insert_Some in H1 as [(_ & <- & _)|[Hn1 H1]]; [discriminate|].
    apply list_lookup_insert_Some in H2 as [(_ & <- & _)|[Hn2 H2]]; [discriminate|].
    eauto.
  - intros j tj Hj Hl.
    apply list_lookup_insert_Some in Hj as [(_ & <- & _)|[Hn Hj]]; [discriminate|].
    rewrite Hother; [eauto|]. intros Hk. apply Hn. eauto.
  - intros key u c Hk. destruct (decide (key = taskKey t)) as [->|Hne].
    + eapply Hposi, Hkey, Hk.
    + rewrite Hother in Hk by exact Hne. eauto.
  - intros j tj Hj.
    apply list_lookup_insert_Some in Hj as [(_ & <- & _)|[Hn Hj]]; [|eauto].
    simpl. split; [apply (Hlast i t Hi)|exact I].
  - exact Hsorted.
  - intros j tj v Hj Hl.
    apply list_lookup_insert_Some in Hj as [(_ & <- & _)|[Hn Hj]]; [discriminate|].
    eauto.
  - intros j Hj. rewrite length_insert in Hj. auto.
Qed.

(** Task [i] sends the request [to] and waits for the reply. *)
Lemma PopInv_send pops tasks w i t to :
  PopInv pops tasks w -> tasks !! i = Some t -> pop_state t = Delaying ->
  pop_last t < fst to ->
  PopInv pops (<[i := task_with t (pop_last t) (AwaitingReply to)]> tasks)
    (w ++ [(i, pop_log t, mkTLogPopRequest (fst to) (snd to) (pop_tag t))]).
Proof.
  intros [Huniq Hentry Hposi Hlast Hsorted Hbound Htasks] Hi Hst Hlt.
  assert (Hlive : isLive t = true) by (unfold isLive; rewrite Hst; reflexivity).
  assert (Hlen : (i < length tasks)%nat) by (eapply lookup_lt_Some; eauto).
  constructor.
  - intros i1 j1 ti tj H1 H2 Hl1 Hl2 Hk.
    apply list_lookup_insert_Some in H1 as [(<- & <- & _)|[Hn1 H1]];
      apply list_lookup_insert_Some in H2 as [(<- & <- & _)|[Hn2 H2]].
    + reflexivity.
    + eapply Huniq; eauto.
    + eapply Huniq; eauto.
    + eauto.
  - intros j tj Hj Hl.
    apply list_lookup_insert_Some in Hj as [(_ & <- & _)|[Hn Hj]]; [|eauto].
    apply (Hentry i t Hi Hlive).
  - exact Hposi.
  - intros j tj Hj.
    apply list_lookup_insert_Some in Hj as [(_ & <- & _)|[Hn Hj]]; [|eauto].
    simpl. split; [apply (Hlast i t Hi)|exact Hlt].
  - intros j. rewrite sentBy_snoc. destruct (Nat.eqb_spec i j) as [<-|Hn]; [|apply Hsorted].
    apply StronglySorted_app_2; [|apply Hsorted|repeat constructor].
    intros x1 x2 Hx1 Hx2. apply list_elem_of_singleton in Hx2 as ->. simpl.
    pose proof (Hbound i t x1 Hi Hlive Hx1) as Hb. rewrite Hst in Hb. lia.
  - intros j tj v Hj Hl Hv. rewrite sentBy_snoc in Hv.
    apply list_lookup_insert_Some in Hj as [(<- & <- & _)|[Hn Hj]].
    + rewrite Nat.eqb_refl in Hv. simpl.
      apply elem_of_app in Hv as [Hv|Hv].
      * pose proof (Hbound i t v Hi Hlive Hv) as Hb. rewrite Hst in Hb. unfold Version in *. lia.
      * apply list_elem_of_singleton in Hv as ->. simpl. unfold Version in *. lia.
    + destruct (Nat.eqb_spec i j) as [->|_]; [congruence|]. eauto.
  - intros j Hj. rewrite length_insert in Hj. rewrite sentBy_snoc.
    destruct (Nat.eqb_spec i j) as [->|_]; [lia|]. auto.
Qed.

(** The reply to the request [to] of task [i] arrives. *)
Lemma PopInv_reply pops tasks w i t to :
  PopInv pops tasks w -> tasks !! i = Some t -> pop_state t = AwaitingReply to ->
  PopInv pops (<[i := task_with t (fst to) Delaying]> tasks) w.
Proof.
  intros [Huniq Hentry Hposi Hlast Hsorted Hbound Htasks] Hi Hst.
  assert (Hlive : isLive t = true) by (unfold isLive; rewrite Hst; reflexivity).
  constructor.
  - intros i1 j1 ti tj H1 H2 Hl1 Hl2 Hk.
    apply list_lookup_insert_Some in H1 as [(<- & <- & _)|[Hn1 H1]];
      apply list_lookup_insert_Some in H2 as [(<- & <- & _)|[Hn2 H2]].
    + reflexivity.
    + eapply Huniq; eauto.
    + eapply Huniq; eauto.
    + eauto.
  - intros j tj Hj Hl.
    apply list_lookup_insert_Some in Hj as [(_ & <- & _)|[Hn Hj]]; [|eauto].
    apply (Hentry i t Hi Hlive).
  - exact Hposi.
  - intros j tj Hj.
    apply list_lookup_insert_Some in Hj as [(_ & <- & _)|[Hn Hj]]; [|eauto].
    simpl. pose proof (Hlast i t Hi) as [H0 Hlt]. rewrite Hst in Hlt. split; [lia|exact I].
  - exact Hsorted.
  - intros j tj v Hj Hl Hv.
    apply list_lookup_insert_Some in Hj as [(<- & <- & _)|[Hn Hj]]; [|eauto].
    simpl. pose proof (Hbound i t v Hi Hlive Hv) as Hb. rewrite Hst in Hb. exact Hb.
  - intros j Hj. rewrite length_insert in Hj. auto.
Qed.

Lemma popsMonotone_refl m : popsMonotone m m.
Proof. apply popsGrow_monotone, popsGrow_refl. Qed.

Lemma popsMonotone_delete m key : popsMonotone m (delete key m).
Proof.
  intros k u c u' c' Hm Hd. apply lookup_delete_Some in Hd as [_ Hd].
  pose proof (eq_trans (eq_sym Hm) Hd) as Heq. injection Heq as <- <-. lia.
Qed.

Lemma popFromLog_inv self i ev w :
  PopInv (outstandingPops self) (actors self) w ->
  PopInv (outstandingPops (fst (popFromLog self i ev)))
         (actors (fst (popFromLog self i ev)))
         (match snd (popFromLog self i ev) with
          | Some (server, req) => w ++ [(i, server, req)]
          | None => w
          end)
  /\ popsMonotone (outstandingPops self) (outstandingPops (fst (popFromLog self i ev))).
Proof.
  intros Hinv. unfold popFromLog.
  destruct (actors self !! i) as [t|] eqn:Hi; [|split; [exact Hinv|apply popsMonotone_refl]].
  destruct (pop_state t) as [|to|] eqn:Hst.
  - assert (Hlive : isLive t = true) by (unfold isLive; rewrite Hst; reflexivity).
    destruct ev as [isPresent|reply|].
    + destruct (inv_entry _ _ _ Hinv i t Hi Hlive) as [to Hto].
      unfold subscript. change (pop_log t, pop_tag t) with (taskKey t). rewrite Hto.
      destruct (fst to <=? pop_last t) eqn:E; simpl.
      * split; [|apply popsMonotone_delete].
        eapply PopInv_finish; eauto.
        -- intros k Hk. apply lookup_delete_ne. congruence.
        -- intros v Hv. rewrite lookup_delete_eq in Hv. discriminate.
      * apply Z.leb_gt in E. destruct isPresent; simpl.
        -- split; [|apply popsMonotone_refl]. apply PopInv_send; assumption.
        -- split; [|apply popsMonotone_refl]. eapply PopInv_finish; eauto.
    + simpl. split; [exact Hinv|apply popsMonotone_refl].
    + simpl. split; [|apply popsMonotone_refl]. eapply PopInv_finish; eauto.
  - assert (Hlive : isLive t = true) by (unfold isLive; rewrite Hst; reflexivity).
    destruct ev as [isPresent|[|[]|e]|]; simpl;
      (split; [|apply popsMonotone_refl]);
      try exact Hinv;
      try (eapply PopInv_finish; eauto; fail).
    eapply PopInv_reply; eauto.
  - simpl. split; [exact Hinv|apply popsMonotone_refl].
Qed.

(** *** Any interleaving of calls and resumptions *)

Lemma popAct_inv w a :
  positiveUpTo a -> worldInv w ->
  worldInv (popAct w a)
  /\ popsMonotone (outstandingPops (world_system w))
                  (outstandingPops (world_system (popAct w a))).
Proof.
  unfold worldInv. intros Hpos Hinv. destruct a as [upTo tag kcv loc|upTo tag kcv loc|i ev|sets olds];
    simpl in *.
  - destruct (pop (world_system w) upTo tag kcv loc) as [s| |] eqn:E; simpl;
      try (split; [exact Hinv|apply popsMonotone_refl]).
    destruct (pop_step (wire w) _ _ _ _ _ _ E Hinv) as [H G].
    split; [exact H|apply popsGrow_monotone, G].
  - destruct (popLogRouter_step (wire w) upTo tag kcv loc (world_system w) Hpos Hinv) as [H G].
    split; [exact H|apply popsGrow_monotone, G].
  - pose proof (popFromLog_inv (world_system w) i ev (wire w) Hinv) as [H G].
    destruct (popFromLog (world_system w) i ev) as [s [[server req]|]]; simpl in *;
      split; assumption.
  - split; [exact Hinv|apply popsMonotone_refl].
Qed.

Lemma popRun_inv acts : forall w,
  Forall positiveUpTo acts -> worldInv w -> worldInv (popRun acts w).
Proof.
  unfold popRun. induction acts as [|a acts IH]; intros w Hall Hinv; simpl; [exact Hinv|].
  inversion Hall as [|? ? Ha Hacts]; subst.
  apply IH; [exact Hacts|]. apply popAct_inv; assumption.
Qed.

Lemma worldInv_initial w :
  outstandingPops (world_system w) = ∅ -> actors (world_system w) = [] -> wire w = [] ->
  worldInv w.
Proof.
  unfold worldInv. intros -> -> ->. constructor.
  - intros i j ti tj H. rewrite lookup_nil in H. discriminate.
  - intros i t H. rewrite lookup_nil in H. discriminate.
  - intros key u c H. rewrite lookup_empty in H. discriminate.
  - intros i t H. rewrite lookup_nil in H. discriminate.
  - intros i. constructor.
  - intros i t v H. rewrite lookup_nil in H. discriminate.
  - reflexivity.
Qed.

(** C4 (as amended): from a log system without outstanding pops, after any
    sequence of [pop] calls, [popLogRouter] calls with [upTo >= 0],
    resumptions of [popFromLog] tasks and changes of the log sets, and one
    more such action: at most one live [popFromLog] task exists for each
    (server, tag); the [upTo] stored for a pair has not decreased where the
    entry exists before and after the action; and the [upTo] values sent by
    each task are strictly increasing. *)
Theorem pop_coalescing acts a w0 :
  outstandingPops (world_system w0) = ∅ ->
  actors (world_system w0) = [] ->
  wire w0 = [] ->
  Forall positiveUpTo (acts ++ [a]) ->
  let w := popRun acts w0 in
  let w' := popAct w a in
  (forall i j ti tj,
     actors (world_system w') !! i = Some ti -> actors (world_system w') !! j = Some tj ->
     isLive ti = true -> isLive tj = true -> taskKey ti = taskKey tj -> i = j)
  /\ popsMonotone (outstandingPops (world_system w)) (outstandingPops (world_system w'))
  /\ (forall i, StronglySorted Z.lt (sentBy i (wire w'))).
Proof.
  intros Hp Ha Hw Hall w w'.
  apply Forall_app in Hall as [Hacts Hlast]. inversion Hlast as [|? ? Hpos _]; subst.
  assert (Hinv : worldInv w) by (apply popRun_inv; [exact Hacts|apply worldInv_initial; assumption]).
  destruct (popAct_inv w a Hpos Hinv) as [Hinv' Hmono].
  split; [apply (inv_unique _ _ _ Hinv')|]. split; [exact Hmono|].
  apply (inv_wire_sorted _ _ _ Hinv').
Qed.

(** ** Epoch recovery *)

(** C8: for a brand new database ([prevState.tLogs] empty), [epochEnd]
    publishes through [outLogSystem] a log system with no log sets,
    [epochEndVersion = 0], [knownCommittedVersion = 0] and [stopped = true],
    then waits on [Never()]: nothing can resume it, and it never returns. *)
Theorem epochEnd_new_database dbgid prevState locality :
  prev_tLogs prevState = [] ->
  exists logSystem,
    tLogs logSystem = []
    /\ epochEndVersion logSystem = Some 0
    /\ knownCommittedVersion logSystem = 0
    /\ stopped logSystem = true
    /\ eq_itree eq (epochEnd dbgid prevState locality)
         (Vis (SetOutLogSystem logSystem)
            (fun _ => Vis WaitNever (fun v : Empty_set => match v with end)))
    /\ forall r : unit, ~ Leaf r (epochEnd dbgid prevState locality).
Proof.
  intros Hnew. exists (newDatabaseLogSystem dbgid locality prevState).
  assert (Heq : eq_itree eq (epochEnd dbgid prevState locality)
                  (Vis (SetOutLogSystem (newDatabaseLogSystem dbgid locality prevState))
                     (fun _ => Vis WaitNever (fun v : Empty_set => match v with end)))).
  { unfold epochEnd. rewrite Hnew. rewrite bind_trigger.
    apply eqit_Vis. intros _. rewrite bind_trigger. apply eqit_Vis. intros []. }
  do 4 (split; [reflexivity|]). split; [exact Heq|].
  intros r Hleaf. rewrite Heq in Hleaf.
  apply Leaf_Vis_inv in Hleaf as [_ Hleaf].
  apply Leaf_Vis_inv in Hleaf as [[] _].
Qed.

(** ** The primary start version of [newEpoch] *)


(** The wait ends as soon as one observed state of the replies resolves. *)
Lemma awaitDurableVersion_progress dbgid later : forall lock,
  (forall rs, rs = replies lock \/ rs ∈ later ->
     exists o, getDurableVersion dbgid (set_replies rs lock) [] None = Ok o) ->
  (exists rs versions, rs ∈ later /\
     getDurableVersion dbgid (set_replies rs lock) [] None = Ok (Some versions)) ->
  exists versions, awaitDurableVersion dbgid lock later = Ok (Some versions).
Proof.
  induction later as [|rs later IH]; intros lock Hdef (rs0 & v0 & Hin & Hres).
  - inversion Hin.
  - simpl. destruct (Hdef (replies lock) (or_introl eq_refl)) as [o Ho].
    replace (set_replies (replies lock) lock) with lock in Ho by (destruct lock; reflexivity).
    rewrite Ho. destruct o as [v|]; [eauto|].
    apply elem_of_cons in Hin as [->|Hin].
    + destruct later as [|rs' later']; simpl; unfold set_replies in Hres; simpl in Hres;
        unfold set_replies; rewrite Hres; eauto.
    + apply IH.
      * intros rs' [->|Hrs']; [apply (Hdef rs); right; left|apply (Hdef rs'); right; right; exact Hrs'].
      * exists rs0, v0. split; [exact Hin|exact Hres].
Qed.

Lemma set_replies_replies (lock : LogLockInfo) : set_replies (replies lock) lock = lock.
Proof. destruct lock; reflexivity. Qed.

(** The wait returns what the first observed state of the replies that
    resolves gives: the states before it left the actor waiting. *)
Lemma awaitDurableVersion_first dbgid later : forall lock waited rs rest versions,
  replies lock :: later = waited ++ rs :: rest ->
  Forall (fun rs' => getDurableVersion dbgid (set_replies rs' lock) [] None = Ok None) waited ->
  getDurableVersion dbgid (set_replies rs lock) [] None = Ok (Some versions) ->
  awaitDurableVersion dbgid lock later = Ok (Some versions).
Proof.
  induction later as [|next later IH]; intros lock waited rs rest versions Hsplit Hwait Hres.
  - destruct waited as [|w [|w' waited]]; simpl in Hsplit.
    + injection Hsplit as <- _. rewrite set_replies_replies in Hres.
      simpl. rewrite Hres. reflexivity.
    + injection Hsplit as _ Hnil. destruct rest; discriminate Hnil.
    + injection Hsplit as _ Hnil. discriminate Hnil.
  - destruct waited as [|w waited]; simpl in Hsplit.
    + injection Hsplit as <- _. rewrite set_replies_replies in Hres.
      simpl. rewrite Hres. reflexivity.
    + injection Hsplit as <- Hsplit. apply Forall_cons in Hwait as [Hw Hwait].
      rewrite set_replies_replies in Hw. simpl. rewrite Hw.
      apply (IH (set_replies next lock) waited rs rest versions).
      * exact Hsplit.
      * exact Hwait.
      * exact Hres.
Qed.

Lemma awaitDurableVersion_first_inv dbgid later : forall lock versions,
  awaitDurableVersion dbgid lock later = Ok (Some versions) ->
  exists waited rs rest,
    replies lock :: later = waited ++ rs :: rest
    /\ Forall (fun rs' => getDurableVersion dbgid (set_replies rs' lock) [] None = Ok None) waited
    /\ getDurableVersion dbgid (set_replies rs lock) [] None = Ok (Some versions).
Proof.
  induction later as [|next later IH]; intros lock versions; simpl.
  - destruct (getDurableVersion dbgid lock [] None) as [[v|]| |] eqn:E; try discriminate.
    intros [= <-]. exists [], (replies lock), []. rewrite set_replies_replies.
    split; [reflexivity|]. split; [constructor|exact E].
  - destruct (getDurableVersion dbgid lock [] None) as [[v|]| |] eqn:E; try discriminate.
    + intros [= <-]. exists [], (replies lock), (next :: later). rewrite set_replies_replies.
      split; [reflexivity|]. split; [constructor|exact E].
    + intros H. apply IH in H as (waited & rs & rest & Hsplit & Hwait & Hres).
      simpl in Hsplit. exists (replies lock :: waited), rs, rest.
      split; [simpl; rewrite Hsplit; reflexivity|].
      split; [|exact Hres].
      constructor; [rewrite set_replies_replies; exact E|exact Hwait].
Qed.

(** While no observed state of the replies resolves, the actor is still
    waiting. *)
Lemma awaitDurableVersion_waiting dbgid later : forall lock,
  Forall (fun rs' => getDurableVersion dbgid (set_replies rs' lock) [] None = Ok None)
    (replies lock :: later) ->
  awaitDurableVersion dbgid lock later = Ok None.
Proof.
  induction later as [|next later IH]; intros lock Hall;
    apply Forall_cons in Hall as [Hnow Hall]; rewrite set_replies_replies in Hnow;
    simpl; rewrite Hnow; [reflexivity|].
  apply (IH (set_replies next lock)). exact Hall.
Qed.

(** Among lock results of pairwise different localities, the search of the
    lock loop finds the one lock result of the locality. *)
Lemma find_lock_of_locality (locks : list LogLockInfo) (primaryLocality : Z) lock :
  NoDup (List.map (fun l => set_locality (lock_logSet l)) locks) ->
  lock ∈ locks ->
  set_locality (lock_logSet lock) = primaryLocality ->
  List.find (fun l => set_locality (lock_logSet l) =? primaryLocality) locks = Some lock.
Proof.
  induction locks as [|l locks IH]; intros Hnd Hin Hloc; [inversion Hin|].
  simpl in *. apply NoDup_cons in Hnd as [Hnotin Hnd].
  apply elem_of_cons in Hin as [->|Hin].
  - rewrite Hloc, Z.eqb_refl. reflexivity.
  - destruct (set_locality (lock_logSet l) =? primaryLocality) eqn:E.
    + apply Z.eqb_eq in E. exfalso. apply Hnotin.
      apply list_elem_of_fmap. exists lock. split; [congruence|exact Hin].
    + apply IH; assumption.
Qed.

(** C5: the start version of the new primary set is initialised to
    [oldLogSystem.knownCommittedVersion + 1] and stays there when no old lock
    result has [primaryLocality], or when the first one that has it is both
    current and local.  Otherwise [newEpoch] waits for [getDurableVersion] of
    that lock result: while no observed state of its replies resolves no
    start version is there yet, and with the first state that resolves, to
    [(kcv, end)], the start version becomes the minimum of [kcv + 1], the lock
    result's [epochEnd] and [oldLogSystem.knownCommittedVersion + 1].  These
    are the only start versions [newEpoch] uses, so the one finally used is at
    most [oldLogSystem.knownCommittedVersion + 1].  The lock result waited for
    is the first one of [primaryLocality]; among lock results of pairwise
    different localities it is the only one. *)
Theorem newEpoch_startVersion_bounded oldLogSystem primaryLocality later :
  let start := vadd (knownCommittedVersion oldLogSystem) 1 in
  let found := List.find (fun lock => set_locality (lock_logSet lock) =? primaryLocality)
                 (lockResults oldLogSystem) in
  let kept := found = None
              \/ exists lock, found = Some lock
                              /\ isCurrent lock && isLocal (lock_logSet lock) = true in
  let lowered v := exists lock waited rs rest versions,
        found = Some lock
        /\ isCurrent lock && isLocal (lock_logSet lock) = false
        /\ replies lock :: later = waited ++ rs :: rest
        /\ Forall (fun rs' => getDurableVersion (sys_dbgid oldLogSystem)
                                (set_replies rs' lock) [] None = Ok None) waited
        /\ getDurableVersion (sys_dbgid oldLogSystem) (set_replies rs lock) [] None
           = Ok (Some versions)
        /\ v = Z.min (Z.min (vadd (fst versions) 1) (lock_epochEnd lock)) start in
  (kept -> newEpoch_startVersion oldLogSystem primaryLocality later = Ok (Some start))
  /\ (forall v, lowered v ->
        newEpoch_startVersion oldLogSystem primaryLocality later = Ok (Some v))
  /\ (forall lock, found = Some lock ->
        isCurrent lock && isLocal (lock_logSet lock) = false ->
        Forall (fun rs' => getDurableVersion (sys_dbgid oldLogSystem)
                             (set_replies rs' lock) [] None = Ok None)
          (replies lock :: later) ->
        newEpoch_startVersion oldLogSystem primaryLocality later = Ok None)
  /\ (forall v, newEpoch_startVersion oldLogSystem primaryLocality later = Ok (Some v) ->
        ((v = start /\ kept) \/ lowered v)
        /\ v <= start
        /\ (int64 (knownCommittedVersion oldLogSystem) ->
            v <= knownCommittedVersion oldLogSystem + 1))
  /\ (NoDup (List.map (fun l => set_locality (lock_logSet l)) (lockResults oldLogSystem)) ->
      forall lock, lock ∈ lockResults oldLogSystem ->
                   set_locality (lock_logSet lock) = primaryLocality ->
                   found = Some lock).
Proof.
  intros start found kept lowered.
  unfold newEpoch_startVersion. fold start. fold found.
  split; [|split; [|split; [|split]]];
    [| | | |intros Hnd lock Hin Hloc; apply find_lock_of_locality; assumption].
  - intros [Hnone|(lock & Hsome & Hcur)].
    + rewrite Hnone. reflexivity.
    + rewrite Hsome, Hcur. reflexivity.
  - intros v (lock & waited & rs & rest & versions & Hsome & Hcur & Hsplit & Hwait & Hres & ->).
    rewrite Hsome, Hcur.
    rewrite (awaitDurableVersion_first _ _ _ _ _ _ _ Hsplit Hwait Hres). reflexivity.
  - intros lock Hsome Hcur Hall. rewrite Hsome, Hcur.
    rewrite (awaitDurableVersion_waiting _ _ _ Hall). reflexivity.
  - intros v Hres.
    assert (Hcases : (v = start /\ kept) \/ lowered v).
    { destruct found as [lock|] eqn:Efound.
      - destruct (isCurrent lock && isLocal (lock_logSet lock)) eqn:Ecur.
        + injection Hres as <-. left. split; [reflexivity|].
          right. exists lock. split; [reflexivity|exact Ecur].
        + destruct (awaitDurableVersion (sys_dbgid oldLogSystem) lock later)
            as [[versions|]| |] eqn:Ewait; try discriminate.
          injection Hres as <-. right.
          apply awaitDurableVersion_first_inv in Ewait
            as (waited & rs & rest & Hsplit & Hwait & Hdur).
          exists lock, waited, rs, rest, versions.
          split; [reflexivity|]. split; [exact Ecur|]. split; [exact Hsplit|].
          split; [exact Hwait|]. split; [exact Hdur|reflexivity].
      - injection Hres as <-. left. split; [reflexivity|]. left. reflexivity. }
    assert (Hle : v <= start).
    { destruct Hcases as [[-> _]|(lock & waited & rs & rest & versions & _ & _ & _ & _ & _ & ->)];
        lia. }
    split; [exact Hcases|]. split; [exact Hle|].
    intros Hrange. etransitivity; [exact Hle|].
    apply vadd_le. unfold int64, INT64_MIN in *. lia.
Qed.

(** * Further properties *)

(** ** getDurableVersion: parameters, partition, order statistics *)

(** The four assertions passed whenever the call answers. *)
Lemma getDurableVersion_asserts dbgid lockInfo failed lastEnd o :
  getDurableVersion dbgid lockInfo failed lastEnd = Ok o -> paramsOk lockInfo.
Proof.
  intros H. unfold paramsOk. cbv zeta. unfold getDurableVersion in H. cbv zeta in H.
  set (logSet := lock_logSet lockInfo) in *.
  set (N := Z.of_nat (length (logServers logSet))) in *.
  destruct ((0 <? N + 1 - tLogReplicationFactor logSet + tLogWriteAntiQuorum logSet)
            && (N + 1 - tLogReplicationFactor logSet + tLogWriteAntiQuorum logSet <=? N))
    eqn:E1; simpl in H; [|discriminate].
  destruct ((1 <=? tLogReplicationFactor logSet) && (tLogReplicationFactor logSet <=? N))
    eqn:E2; simpl in H; [|discriminate].
  destruct ((0 <=? tLogWriteAntiQuorum logSet) && (tLogWriteAntiQuorum logSet <? N))
    eqn:E3; simpl in H; [|discriminate].
  destruct (respondedServers lockInfo failed) as [p| |]; try discriminate.
  destruct (N =? Z.of_nat (length (replies lockInfo))) eqn:E4; simpl in H; [|discriminate].
  apply andb_true_iff in E1 as [E1a E1b]. apply andb_true_iff in E2 as [E2a E2b].
  apply andb_true_iff in E3 as [E3a E3b].
  apply Z.ltb_lt in E1a, E3b. apply Z.leb_le in E1b, E2a, E2b, E3a. apply Z.eqb_eq in E4.
  unfold N in *. repeat split; lia.
Qed.

(** The loop over the servers stops at the first server without a reply
    slot. *)
Lemma classifyServers_out_of_range lockInfo failed t0 ts : forall p,
  t0 ∈ ts -> replies lockInfo !! t0 = None ->
  classifyServers lockInfo failed ts p = Undefined.
Proof.
  induction ts as [|t ts IH]; intros p Hin Hnone; [inversion Hin|]. simpl.
  destruct (classifyServer lockInfo failed t p) as [p1|e|] eqn:E.
  - apply elem_of_cons in Hin as [<-|Hin]; [|apply IH; assumption].
    unfold classifyServer in E. rewrite Hnone in E. discriminate E.
  - unfold classifyServer in E.
    destruct (replies lockInfo !! t) as [[|r|e']|];
      destruct (tLogLocalities (lock_logSet lockInfo) !! t); try discriminate E.
    destruct failed as [|b failed']; [discriminate E|].
    destruct ((b :: failed') !! t) as [[|]|]; discriminate E.
  - reflexivity.
Qed.

(** X1: The call answers (a pair or the empty Optional) only for a set whose
    parameters satisfy [1 <= R <= N], [0 <= A < R] and whose reply vector has
    one entry per server.  When the parameters are outside these bounds one
    of the first three assertions fails, whatever the replies.  When they
    are within the bounds and the reply vector is shorter than the servers,
    no assertion fails: the loop reads [replies[t]] out of range before the
    assertion on [replies.size()] is reached. *)
Theorem getDurableVersion_answers_only_wellformed dbgid lockInfo failed lastEnd :
  let logSet := lock_logSet lockInfo in
  let N := Z.of_nat (length (logServers logSet)) in
  let bounds := 1 <= tLogReplicationFactor logSet <= N
                /\ 0 <= tLogWriteAntiQuorum logSet < tLogReplicationFactor logSet in
  (forall o, getDurableVersion dbgid lockInfo failed lastEnd = Ok o ->
     bounds /\ length (replies lockInfo) = length (logServers logSet))
  /\ (~ bounds -> getDurableVersion dbgid lockInfo failed lastEnd = Throw internal_error)
  /\ (bounds -> (length (replies lockInfo) < length (logServers logSet))%nat ->
      getDurableVersion dbgid lockInfo failed lastEnd = Undefined).
Proof.
  intros logSet N bounds. split; [|split].
  - intros o H.
    pose proof (getDurableVersion_asserts _ _ _ _ _ H) as Hok.
    unfold paramsOk in Hok. cbv zeta in Hok. fold logSet in Hok. fold N in Hok.
    unfold bounds. repeat split; lia.
  - intros Hbad. unfold getDurableVersion. cbv zeta. fold logSet. fold N.
    destruct ((0 <? N + 1 - tLogReplicationFactor logSet + tLogWriteAntiQuorum logSet)
              && (N + 1 - tLogReplicationFactor logSet + tLogWriteAntiQuorum logSet <=? N))
      eqn:E1; simpl; [|reflexivity].
    destruct ((1 <=? tLogReplicationFactor logSet) && (tLogReplicationFactor logSet <=? N))
      eqn:E2; simpl; [|reflexivity].
    destruct ((0 <=? tLogWriteAntiQuorum logSet) && (tLogWriteAntiQuorum logSet <? N))
      eqn:E3; simpl; [|reflexivity].
    exfalso. apply Hbad. unfold bounds.
    apply andb_true_iff in E1 as [E1a E1b]. apply andb_true_iff in E2 as [E2a E2b].
    apply andb_true_iff in E3 as [E3a E3b].
    apply Z.ltb_lt in E1a, E3b. apply Z.leb_le in E1b, E2a, E2b, E3a. lia.
  - intros ((HR1 & HR2) & HA1 & HA2) Hshort.
    unfold getDurableVersion. cbv zeta. fold logSet. fold N.
    replace ((0 <? N + 1 - tLogReplicationFactor logSet + tLogWriteAntiQuorum logSet)
             && (N + 1 - tLogReplicationFactor logSet + tLogWriteAntiQuorum logSet <=? N))
      with true
      by (symmetry; apply andb_true_iff; split; [apply Z.ltb_lt|apply Z.leb_le]; lia).
    replace ((1 <=? tLogReplicationFactor logSet) && (tLogReplicationFactor logSet <=? N))
      with true by (symmetry; apply andb_true_iff; split; apply Z.leb_le; lia).
    replace ((0 <=? tLogWriteAntiQuorum logSet) && (tLogWriteAntiQuorum logSet <? N))
      with true
      by (symmetry; apply andb_true_iff; split; [apply Z.leb_le|apply Z.ltb_lt]; lia).
    simpl. unfold respondedServers. fold logSet.
    rewrite (classifyServers_out_of_range lockInfo failed (length (replies lockInfo))).
    + reflexivity.
    + apply elem_of_seq. lia.
    + apply lookup_ge_None. lia.
Qed.

Lemma classifyServer_results lockInfo failed t p p' :
  classifyServer lockInfo failed t p = Ok p' ->
  (exists r, replies lockInfo !! t = Some (Ready r)
             /\ (failed = [] \/ failed !! t = Some false)
             /\ results p' = results p ++ [r]
             /\ length (availableItems p') = S (length (availableItems p)))
  \/ (results p' = results p /\ availableItems p' = availableItems p
      /\ forall r, replies lockInfo !! t = Some (Ready r) -> failed !! t = Some true).
Proof.
  unfold classifyServer, addAvailable, addUnresponsive.
  destruct (replies lockInfo !! t) as [[|r|e]|];
    destruct (tLogLocalities (lock_logSet lockInfo) !! t) as [l|]; try discriminate.
  - intros [= <-]. right. simpl. split; [reflexivity|]. split; [reflexivity|]. intros r [=].
  - destruct failed as [|b failed'].
    + intros [= <-]. left. exists r. simpl. rewrite length_app. simpl.
      repeat split; auto. lia.
    + destruct ((b :: failed') !! t) as [[|]|] eqn:E; try discriminate; intros [= <-].
      * right. simpl. split; [reflexivity|]. split; [reflexivity|]. intros r' _. reflexivity.
      * left. exists r. simpl. rewrite length_app. simpl. repeat split; auto. lia.
  - intros [= <-]. right. simpl. split; [reflexivity|]. split; [reflexivity|]. intros r [=].
Qed.

Lemma classifyServers_results lockInfo failed ts : forall p p',
  classifyServers lockInfo failed ts p = Ok p' ->
  length (availableItems p) = length (results p) ->
  length (availableItems p') = length (results p')
  /\ forall r, r ∈ results p' <->
       r ∈ results p
       \/ exists t, t ∈ ts /\ replies lockInfo !! t = Some (Ready r)
                    /\ (failed = [] \/ failed !! t = Some false).
Proof.
  induction ts as [|t ts IH]; intros p p'; simpl.
  - intros [= <-] Hlen. split; [exact Hlen|]. intros r. split; [auto|].
    intros [H|(t & Ht & _)]; [exact H|inversion Ht].
  - destruct (classifyServer lockInfo failed t p) as [p1| |] eqn:E; try discriminate.
    intros H Hlen.
    destruct (classifyServer_results _ _ _ _ _ E)
      as [(r0 & Hr0 & Hf0 & Hres & Hav)|(Hres & Hav & Hno)].
    + destruct (IH p1 p' H) as [Hlen' Hmem].
      { rewrite Hres, length_app. simpl. lia. }
      split; [exact Hlen'|]. intros r. rewrite Hmem, Hres, elem_of_app, list_elem_of_singleton.
      split.
      * intros [[Hr| ->]|(t' & Ht' & Hrest)]; [left; exact Hr| |].
        -- right. exists t. split; [left|]. split; assumption.
        -- right. exists t'. split; [right; exact Ht'|exact Hrest].
      * intros [Hr|(t' & Ht' & Hr' & Hf')]; [left; left; exact Hr|].
        apply elem_of_cons in Ht' as [->|Ht'].
        -- left; right. rewrite Hr0 in Hr'. congruence.
        -- right. exists t'. repeat split; assumption.
    + destruct (IH p1 p' H) as [Hlen' Hmem].
      { rewrite Hres, Hav. exact Hlen. }
      split; [exact Hlen'|]. intros r. rewrite Hmem, Hres. split.
      * intros [Hr|(t' & Ht' & Hrest)]; [left; exact Hr|].
        right. exists t'. split; [right; exact Ht'|exact Hrest].
      * intros [Hr|(t' & Ht' & Hr' & Hf')]; [left; exact Hr|].
        apply elem_of_cons in Ht' as [->|Ht'].
        -- exfalso. specialize (Hno r Hr'). destruct Hf' as [->|Hf']; [|congruence].
           rewrite lookup_nil in Hno. discriminate.
        -- right. exists t'. repeat split; assumption.
Qed.

(** X2: The loop over the servers puts every server in exactly one of the two
    groups; the responded results are the ready, error-free replies of the
    servers not flagged failed, and the responded localities are aligned
    with them. *)
Theorem respondedServers_partition lockInfo failed p :
  respondedServers lockInfo failed = Ok p ->
  (length (results p) + length (unResponsiveSet p)
   = length (logServers (lock_logSet lockInfo)))%nat
  /\ length (availableItems p) = length (results p)
  /\ forall r, r ∈ results p <->
       exists t, (t < length (logServers (lock_logSet lockInfo)))%nat
                 /\ replies lockInfo !! t = Some (Ready r)
                 /\ (failed = [] \/ failed !! t = Some false).
Proof.
  intros H. split; [eapply respondedServers_count; exact H|].
  unfold respondedServers in H.
  destruct (classifyServers_results _ _ _ _ _ H eq_refl) as [Hlen Hmem].
  split; [exact Hlen|]. intros r. rewrite Hmem. simpl. split.
  - intros [Hr|(t & Ht & Hrest)]; [inversion Hr|].
    exists t. split; [|exact Hrest]. apply elem_of_seq in Ht. lia.
  - intros (t & Ht & Hrest). right. exists t. split; [|exact Hrest].
    apply elem_of_seq. lia.
Qed.

Lemma filter_none {A} (P : A -> Prop) `{forall x, Decision (P x)} (l : list A) :
  Forall (fun x => ~ P x) l -> base.filter P l = [].
Proof.
  induction 1 as [|x l Hx _ IH]; [reflexivity|].
  rewrite filter_cons_False by exact Hx. exact IH.
Qed.

Lemma filter_every {A} (P : A -> Prop) `{forall x, Decision (P x)} (l : list A) :
  Forall P l -> base.filter P l = l.
Proof.
  induction 1 as [|x l Hx _ IH]; [reflexivity|].
  rewrite filter_cons_True by exact Hx. f_equal. exact IH.
Qed.

(** In a list sorted by [end], the entry at index [k] has at most [k]
    entries strictly before it and at least [k + 1] entries not after it. *)
Lemma sorted_rank (l : list TLogLockResult) (k : nat) (r : TLogLockResult) :
  Sorted sort_by_end l -> l !! k = Some r ->
  (length (base.filter (fun x => (end_ x < end_ r)%Z) l) <= k)%nat
  /\ (k < length (base.filter (fun x => (end_ x <= end_ r)%Z) l))%nat.
Proof.
  intros Hs Hk. apply Sorted_StronglySorted in Hs; [|apply _].
  rewrite <- (take_drop_middle l k r Hk) in Hs |- *.
  apply StronglySorted_app in Hs as (Hcross & _ & Htail).
  apply StronglySorted_cons in Htail as [Hafter _].
  assert (Hlen : length (take k l) = k).
  { rewrite length_take. apply lookup_lt_Some in Hk. lia. }
  rewrite !filter_app, !length_app. split.
  - rewrite (filter_none _ (r :: drop (S k) l)).
    + simpl. pose proof (length_filter (fun x => end_ x < end_ r) (take k l)). lia.
    + constructor; [lia|].
      rewrite Forall_forall in Hafter |- *. intros x Hx. specialize (Hafter x Hx).
      unfold sort_by_end in Hafter. lia.
  - rewrite (filter_every _ (take k l)).
    + rewrite Hlen, filter_cons_True by lia. simpl. lia.
    + rewrite Forall_forall. intros x Hx. apply (Hcross x r Hx). left.
Qed.

(** X3: Whenever a pair [(kcv, end)] is returned, more than [A] servers have
    responded, [end] is the end of a responded reply with at most [A]
    responded ends strictly below it and more than [A] not above it, and
    [kcv] is at least every responded known committed version and at least
    [end] minus the configured bound. *)
Theorem getDurableVersion_pair_sound dbgid lockInfo failed lastEnd kcv e :
  getDurableVersion dbgid lockInfo failed lastEnd = Ok (Some (kcv, e)) ->
  exists p,
    respondedServers lockInfo failed = Ok p
    /\ (exists r, r ∈ results p /\ end_ r = e)
    /\ Z.of_nat (length (base.filter (fun x => end_ x < e) (results p)))
       <= tLogWriteAntiQuorum (lock_logSet lockInfo)
    /\ tLogWriteAntiQuorum (lock_logSet lockInfo)
       < Z.of_nat (length (base.filter (fun x => end_ x <= e) (results p)))
    /\ (forall r, r ∈ results p -> lock_knownCommittedVersion r <= kcv)
    /\ vsub e lifeVersions <= kcv.
Proof.
  intros H.
  pose proof (getDurableVersion_asserts _ _ _ _ _ H) as Hok.
  assert (HA : 0 <= tLogWriteAntiQuorum (lock_logSet lockInfo))
    by (unfold paramsOk in Hok; cbv zeta in Hok; lia).
  destruct (respondedServers lockInfo failed) as [p| |] eqn:Hp.
  2,3: unfold getDurableVersion in H; rewrite Hp in H;
    repeat (destruct (negb _); [discriminate|]); discriminate.
  exists p. split; [reflexivity|].
  rewrite (getDurableVersion_unfold _ _ _ _ p Hok Hp) in H.
  destruct (bTooManyFailures (lock_logSet lockInfo) p) eqn:Htoo; [discriminate|].
  pose proof (bTooManyFailures_false _ _ Htoo) as Hsize.
  cbv zeta in H. rewrite sort_results_length in H.
  destruct (match lastEnd with Some _ => _ | None => _ end); [|discriminate].
  replace (Z.min (tLogWriteAntiQuorum (lock_logSet lockInfo))
             (Z.of_nat (length (results p)) - 1))
    with (tLogWriteAntiQuorum (lock_logSet lockInfo)) in H by lia.
  destruct (tLogWriteAntiQuorum (lock_logSet lockInfo) <? 0); [discriminate|].
  destruct (sort_results (results p) !! Z.to_nat (tLogWriteAntiQuorum (lock_logSet lockInfo)))
    as [r|] eqn:Hr; [|discriminate].
  injection H as <- <-.
  pose proof (sort_results_Permutation (results p)) as Hperm.
  destruct (sorted_rank _ _ _ (sort_results_Sorted (results p)) Hr) as [Hlt Hle].
  split; [exists r; split; [|reflexivity]|].
  { rewrite <- Hperm. eapply list_elem_of_lookup_2, Hr. }
  rewrite Hperm in Hlt, Hle.
  unfold Version in *. split; [lia|]. split; [apply Nat2Z.inj_lt in Hle; rewrite Z2Nat.id in Hle by lia; exact Hle|]. split.
  - intros r' Hr'. apply maxKnownCommitted_upper. rewrite Hperm. exact Hr'.
  - apply maxKnownCommitted_ge_init.
Qed.

Lemma maxKnownCommitted_Permutation l l' init :
  l ≡ₚ l' -> maxKnownCommitted init l = maxKnownCommitted init l'.
Proof.
  intros Hp. apply Z.le_antisymm.
  - pose proof (maxKnownCommitted_attained l init) as Hm.
    apply elem_of_cons in Hm as [->|Hm]; [apply maxKnownCommitted_ge_init|].
    apply list_elem_of_fmap in Hm as (r & -> & Hr).
    apply maxKnownCommitted_upper. rewrite <- Hp. exact Hr.
  - pose proof (maxKnownCommitted_attained l' init) as Hm.
    apply elem_of_cons in Hm as [->|Hm]; [apply maxKnownCommitted_ge_init|].
    apply list_elem_of_fmap in Hm as (r & -> & Hr).
    apply maxKnownCommitted_upper. rewrite Hp. exact Hr.
Qed.

(** X4: [std::sort] may order replies with equal [end] in any way: whatever
    sorted arrangement of the responded results it produces, the [end] read
    at each index and the maximum taken over the results are those of
    [sort_results]. *)
Theorem sort_order_immaterial (rs sorted : list TLogLockResult) :
  sorted ≡ₚ rs -> Sorted sort_by_end sorted ->
  (forall i, end_ <$> (sorted !! i) = end_ <$> (sort_results rs !! i))
  /\ (forall init, maxKnownCommitted init sorted = maxKnownCommitted init (sort_results rs)).
Proof.
  intros Hp Hs. split.
  - intros i. pose proof (sort_results_ends rs sorted Hp Hs) as He.
    rewrite <- !list_lookup_fmap. change (@fmap list _ _ _ end_) with (List.map end_).
    rewrite He. reflexivity.
  - intros init. apply maxKnownCommitted_Permutation.
    rewrite Hp. symmetry. apply sort_results_Permutation.
Qed.

(** ** Configuration and core state *)

(** X5: Through [ILogSystem::fromLogSystemConfig] the assertion of the class
    method cannot fail: the result is a null reference exactly for log
    system type 0, a log system for type 2, and [internal_error] is thrown
    exactly for every other type. *)
Theorem ILogSystem_fromLogSystemConfig_cases dbgid locality conf excludeRemote :
  match ILogSystem_fromLogSystemConfig dbgid locality conf excludeRemote with
  | Ok None => lsConf_logSystemType conf = 0
  | Ok (Some logSystem) =>
      lsConf_logSystemType conf = 2
      /\ fromLogSystemConfig dbgid locality conf excludeRemote = Ok logSystem
  | Throw e => e = internal_error /\ lsConf_logSystemType conf <> 0
               /\ lsConf_logSystemType conf <> 2
  | Undefined => False
  end.
Proof.
  unfold ILogSystem_fromLogSystemConfig, fromLogSystemConfig.
  destruct (lsConf_logSystemType conf =? 0) eqn:E0; [apply Z.eqb_eq in E0; exact E0|].
  destruct (lsConf_logSystemType conf =? 2) eqn:E2.
  - simpl. split; [apply Z.eqb_eq in E2; exact E2|reflexivity].
  - apply Z.eqb_neq in E0, E2. auto.
Qed.

(** X6: [fromOldLogSystemConfig] applied to the configuration of [L] promotes
    the newest old generation of [L] to the current one: its sets and its
    [logRouterTags] become the current ones, the remaining generations stay
    old, the current sets of [L] are dropped, and the result is stopped. *)
Theorem fromOldLogSystemConfig_promotes dbgid locality L old olds :
  logSystemType L = 2 ->
  recoveryCompleteWrittenToCoreState L = false ->
  oldLogData L = old :: olds ->
  exists L',
    fromOldLogSystemConfig dbgid locality (getLogSystemConfig L) = Ok L'
    /\ tLogs L' = old_tLogs old
    /\ logRouterTags L' = old_logRouterTags old
    /\ oldLogData L' = olds
    /\ stopped L' = true.
Proof.
  intros Htype Hrec Hold.
  unfold fromOldLogSystemConfig, getLogSystemConfig; simpl.
  rewrite Htype, Hrec, Hold. simpl. eexists. split; [reflexivity|]. simpl.
  split.
  { rewrite List.map_map. apply map_fixed. intros s _. apply logSetOfTLogSet_tLogSetOfLogSet. }
  split; [reflexivity|]. split; [apply oldLogData_roundtrip|reflexivity].
Qed.

(** X7: Non-local sets stay out: [getLogSystemConfig] exports none before
    [remoteLogsWrittenToCoreState], and [fromLogSystemConfig] with
    [excludeRemote] builds none. *)
Theorem remote_sets_left_out dbgid locality L conf L' :
  (remoteLogsWrittenToCoreState L = false ->
   forall t, t ∈ lsConf_tLogs (getLogSystemConfig L) -> conf_isLocal t = true)
  /\ (fromLogSystemConfig dbgid locality conf true = Ok L' ->
      forall s, s ∈ tLogs L' -> isLocal s = true).
Proof.
  split.
  - intros Hrem t Ht. unfold getLogSystemConfig in Ht; simpl in Ht. rewrite Hrem in Ht.
    apply list_elem_of_fmap in Ht as (s & -> & Hs).
    apply list_elem_of_In, List.filter_In in Hs as [_ Hs].
    rewrite orb_false_r in Hs. exact Hs.
  - unfold fromLogSystemConfig. destruct (negb _); [discriminate|].
    intros [= <-] s Hs. simpl in Hs.
    apply list_elem_of_fmap in Hs as (t & -> & Ht).
    apply list_elem_of_In, List.filter_In in Ht as [_ Ht]. simpl in Ht. exact Ht.
Qed.

Lemma logsOf_ids servers : List.map fst (logsOf servers) = List.map ident servers.
Proof. unfold logsOf. rewrite List.map_map. reflexivity. Qed.

Lemma map_concat_map {A B C} (f : B -> C) (g : A -> list B) (l : list A) :
  List.map f (concat (List.map g l)) = concat (List.map (fun x => List.map f (g x)) l).
Proof.
  induction l as [|a l IH]; simpl; [reflexivity|].
  rewrite List.map_app, IH. reflexivity.
Qed.

(** X8: [getLogsValue] names exactly the servers that [getLogSystemConfig]
    exports, in the same order: the servers of the exported current sets,
    and the servers of the exported old generations. *)
Theorem getLogsValue_matches_config L :
  List.map fst (fst (getLogsValue L))
    = concat (List.map (fun t => List.map ident (conf_tLogs t))
                (lsConf_tLogs (getLogSystemConfig L)))
  /\ List.map fst (snd (getLogsValue L))
    = concat (List.map (fun o => concat (List.map (fun t => List.map ident (conf_tLogs t))
                                           (oldconf_tLogs o)))
                (lsConf_oldTLogs (getLogSystemConfig L))).
Proof.
  unfold getLogsValue, getLogSystemConfig; simpl. split.
  - rewrite map_concat_map, List.map_map. f_equal. apply List.map_ext.
    intros t. apply logsOf_ids.
  - destruct (recoveryCompleteWrittenToCoreState L); [reflexivity|].
    rewrite map_concat_map, List.map_map. f_equal. apply List.map_ext. intros o. simpl.
    rewrite map_concat_map, List.map_map. f_equal. apply List.map_ext.
    intros t. apply logsOf_ids.
Qed.

Lemma coreServers_ids servers r :
  coreServers servers = Ok r -> fst r = List.map ident servers.
Proof.
  revert r. induction servers as [|log rest IH]; intros r; simpl.
  - intros [= <-]. reflexivity.
  - destruct (iface log); [|discriminate].
    destruct (coreServers rest) as [r'| |]; try discriminate. simpl.
    intros [= <-]. simpl. f_equal. apply IH. reflexivity.
Qed.

Lemma coreSetsOfCurrent_sets sets : forall coreSets,
  coreSetsOfCurrent sets = Ok coreSets ->
  List.map core_tLogs coreSets
    = List.map (fun t => List.map ident (logServers t))
        (List.filter (fun t => nonEmpty (logServers t)) sets)
  /\ List.map core_isLocal coreSets
    = List.map isLocal (List.filter (fun t => nonEmpty (logServers t)) sets).
Proof.
  induction sets as [|t rest IH]; intros coreSets; simpl.
  - intros [= <-]. split; reflexivity.
  - destruct (nonEmpty (logServers t)); [|apply IH].
    unfold coreSetOfCurrent.
    destruct (coreServers (logServers t)) as [r| |] eqn:Er; try discriminate. simpl.
    destruct (coreSetsOfCurrent rest) as [cs| |]; try discriminate. simpl.
    intros [= <-]. destruct (IH cs eq_refl) as [IH1 IH2]. simpl.
    rewrite (coreServers_ids _ _ Er), IH1, IH2. split; reflexivity.
Qed.

Lemma nonEmpty_map {A B} (f : A -> B) (l : list A) : nonEmpty (List.map f l) = nonEmpty l.
Proof. destruct l; reflexivity. Qed.

Lemma toCoreState_shape self newState written :
  toCoreState self newState = Ok written ->
  exists coreSets,
    coreSetsOfCurrent (tLogs self) = Ok coreSets
    /\ written = mkDBCoreState coreSets (logRouterTags self)
         (if negb (settled (recoveryComplete self))
             || negb (settled (remoteRecoveryComplete self))
          then List.map
                 (fun old =>
                    mkOldTLogCoreData
                      (List.map coreSetOfOld
                         (List.filter (fun t => nonEmpty (logServers t)) (old_tLogs old)))
                      (old_logRouterTags old) (old_epochEnd old))
                 (oldLogData self)
          else []) (logSystemType self).
Proof.
  unfold toCoreState. intros H.
  destruct (recoveryComplete self) as [[| |e1]|];
    destruct (remoteRecoveryComplete self) as [[| |e2]|]; try discriminate;
    destruct (coreSetsOfCurrent (tLogs self)) as [cs| |]; try discriminate;
    simpl in H; injection H as <-; eexists; split; reflexivity.
Qed.

(** X9: What [toCoreState] writes: no set without servers, current or old; no
    old generation once [recoveryComplete] and [remoteRecoveryComplete] are
    both ready; and otherwise old generations that recovery reads back
    ([epochEnd] materializes them with [oldLogDataOfCore]) as they are in
    memory, less the sets without servers, the interfaces and the log
    routers. *)
Theorem toCoreState_written self newState written :
  toCoreState self newState = Ok written ->
  (forall coreSet, coreSet ∈ prev_tLogs written -> core_tLogs coreSet <> [])
  /\ (forall old coreSet, old ∈ prev_oldTLogData written ->
        coreSet ∈ oldcore_tLogs old -> core_tLogs coreSet <> [])
  /\ (settled (recoveryComplete self) = true ->
      settled (remoteRecoveryComplete self) = true ->
      prev_oldTLogData written = [])
  /\ (settled (recoveryComplete self) && settled (remoteRecoveryComplete self) = false ->
      List.map oldLogDataOfCore (prev_oldTLogData written)
      = List.map (fun old =>
                    mkOldLogData
                      (List.map forgetInterfaces
                         (List.filter (fun t => nonEmpty (logServers t)) (old_tLogs old)))
                      (old_logRouterTags old) (old_epochEnd old))
          (oldLogData self)).
Proof.
  intros H. destruct (toCoreState_shape _ _ _ H) as (coreSets & Hcur & ->). simpl.
  destruct (coreSetsOfCurrent_sets _ _ Hcur) as [Hids _].
  split; [|split; [|split]].
  - intros coreSet Hin Hempty.
    assert (Hm : core_tLogs coreSet ∈ List.map core_tLogs coreSets)
      by (apply list_elem_of_fmap; eauto).
    rewrite Hids in Hm. apply list_elem_of_fmap in Hm as (t & Ht & Hin').
    apply list_elem_of_In, List.filter_In in Hin' as [_ Hne].
    rewrite Hempty in Ht. destruct (logServers t); discriminate.
  - intros old coreSet Hold Hin Hempty.
    destruct (negb _ || negb _); [|inversion Hold].
    apply list_elem_of_fmap in Hold as (o & -> & _). simpl in Hin.
    apply list_elem_of_fmap in Hin as (t & -> & Ht).
    apply list_elem_of_In, List.filter_In in Ht as [_ Hne]. simpl in Hempty.
    destruct (logServers t); discriminate.
  - intros -> ->. reflexivity.
  - intros Hnot.
    replace (negb (settled (recoveryComplete self))
             || negb (settled (remoteRecoveryComplete self))) with true
      by (destruct (settled (recoveryComplete self)),
                   (settled (remoteRecoveryComplete self)); simpl in *; congruence).
    rewrite List.map_map. apply List.map_ext. intros old.
    unfold oldLogDataOfCore; simpl. f_equal. rewrite List.map_map.
    apply List.map_ext. intros t.
    unfold logSetOfCore, coreSetOfOld, forgetInterfaces; simpl.
    rewrite List.map_map. reflexivity.
Qed.

(** X10: Once the core state written by [toCoreState] is acknowledged with
    [coreStateWritten], [getLogSystemConfig] exports every current set that
    has servers, and exports no old generation if both recoveries were
    ready when the state was written. *)
Theorem written_core_state_exports self newState written :
  toCoreState self newState = Ok written ->
  let self' := coreStateWritten self written in
  (forall t, t ∈ tLogs self -> logServers t <> [] ->
     tLogSetOfLogSet t ∈ lsConf_tLogs (getLogSystemConfig self'))
  /\ (settled (recoveryComplete self) = true ->
      settled (remoteRecoveryComplete self) = true ->
      lsConf_oldTLogs (getLogSystemConfig self') = []).
Proof.
  intros Hw self'.
  destruct (toCoreState_shape _ _ _ Hw) as (coreSets & Hcur & Hwritten).
  assert (Hprev : prev_tLogs written = coreSets) by (rewrite Hwritten; reflexivity).
  destruct (coreSetsOfCurrent_sets _ _ Hcur) as [_ Hlocal].
  split.
  - intros t Ht Hne. unfold self', getLogSystemConfig, coreStateWritten; simpl.
    apply list_elem_of_fmap. exists t. split; [reflexivity|].
    apply list_elem_of_In, List.filter_In. split; [apply list_elem_of_In, Ht|].
    destruct (isLocal t) eqn:Eloc; [reflexivity|]. simpl.
    destruct (forallb core_isLocal (prev_tLogs written)) eqn:Eall; [|reflexivity].
    exfalso. rewrite forallb_forall in Eall.
    assert (Hin : false ∈ List.map core_isLocal coreSets).
    { rewrite Hlocal. apply list_elem_of_fmap. exists t. split; [symmetry; exact Eloc|].
      apply list_elem_of_In, List.filter_In. split; [apply list_elem_of_In, Ht|].
      destruct (logServers t); [congruence|reflexivity]. }
    apply list_elem_of_fmap in Hin as (c & Hc & Hcin).
    rewrite <- Hprev in Hcin. apply list_elem_of_In, Eall in Hcin. congruence.
  - intros H1 H2. unfold self', getLogSystemConfig, coreStateWritten; simpl.
    rewrite Hwritten; simpl. rewrite H1, H2. reflexivity.
Qed.

(** ** Peek: the ranges of the cursors *)

Lemma newSetPeekCursor_range sc tag begin end' pgm c :
  newSetPeekCursor sc tag begin end' pgm = Ok c ->
  exists best server, c = SetPeekCursor (localSets sc) best server tag begin end' pgm.
Proof.
  unfold newSetPeekCursor. destruct (0 <=? bestSet sc).
  - destruct (localSets sc !! Z.to_nat (bestSet sc)); [|discriminate].
    intros [= <-]. eauto.
  - intros [= <-]. eauto.
Qed.

Lemma chainBottom_snoc c low cursors : forall top mid,
  chainBottom top cursors = Some mid ->
  cursorRange c = Some (low, mid) -> low < mid ->
  chainBottom top (cursors ++ [c]) = Some low.
Proof.
  induction cursors as [|c0 rest IH]; intros top mid; simpl.
  - intros [= <-] -> Hlt. rewrite Z.eqb_refl. simpl.
    replace (low <? top) with true by (symmetry; apply Z.ltb_lt; exact Hlt). reflexivity.
  - destruct (cursorRange c0) as [[b e]|]; [|discriminate].
    destruct ((e =? top) && (b <? e)); [|discriminate]. apply IH.
Qed.

Lemma endsOf_snoc k cursors epochEnds c low e :
  (k <= length cursors)%nat ->
  endsOf (drop k cursors) epochEnds ->
  cursorRange c = Some (low, e) ->
  endsOf (drop k (cursors ++ [c])) (epochEnds ++ [e]).
Proof.
  intros Hk Hends Hc. unfold endsOf in *. rewrite drop_app_le by exact Hk.
  apply Forall2_app; [exact Hends|]. constructor; [eauto|constructor].
Qed.

Lemma scanLocalSets_begin_le tag sets begin :
  begin <= scanBegin (scanLocalSets tag sets begin).
Proof.
  unfold scanLocalSets.
  apply (fold_scanLocalSet tag sets (mkLocalSetScan [] (-1) (-1) begin)).
Qed.

Lemma fold_scanLocalSet_localSets tag sets : forall sc,
  localSets (fold_left (scanLocalSet tag) sets sc)
  = localSets sc
    ++ List.filter (fun log => isLocal log && nonEmpty (logServers log)) sets.
Proof.
  induction sets as [|log rest IH]; intros sc; simpl; [rewrite app_nil_r; reflexivity|].
  rewrite IH. unfold scanLocalSet.
  destruct (isLocal log && nonEmpty (logServers log)); simpl; [|reflexivity].
  rewrite <- app_assoc. reflexivity.
Qed.

Lemma scanLocalSets_localSets tag sets begin :
  localSets (scanLocalSets tag sets begin)
  = List.filter (fun log => isLocal log && nonEmpty (logServers log)) sets.
Proof. unfold scanLocalSets. rewrite fold_scanLocalSet_localSets. reflexivity. Qed.

(** The loop of [peekAll] keeps the chain of ranges: it enters with the
    cursors covering [end'] down to [min lastBegin end'] and leaves with
    them covering down to [min begin end']. *)
Lemma peekAllOld_chain self begin end' tag pgm throwIfDead k olds :
  forall lastBegin cursors epochEnds c,
  begin <= lastBegin ->
  chainBottom end' cursors = Some (Z.min lastBegin end') ->
  (k <= length cursors)%nat ->
  endsOf (drop k cursors) epochEnds ->
  peekAllOld self begin end' tag pgm throwIfDead olds lastBegin cursors epochEnds = Ok c ->
  (exists cursors' epochEnds' bottom,
     c = MultiCursor cursors' epochEnds'
     /\ chainBottom end' cursors' = Some bottom
     /\ Z.min begin end' <= bottom
     /\ (tag <> txsTag -> bottom = Z.min begin end')
     /\ (k <= length cursors')%nat
     /\ endsOf (drop k cursors') epochEnds')
  \/ (c = emptyCursor self tag begin /\ tag <> txsTag /\ throwIfDead = false).
Proof.
  induction olds as [|old olds IH]; intros lastBegin cursors epochEnds c Hle Hchain Hk Hends;
    simpl.
  - destruct (begin <? lastBegin) eqn:E; simpl.
    + apply Z.ltb_lt in E. destruct (bool_decide (tag = txsTag)) eqn:Etag.
      * intros [= <-]. left. exists cursors, epochEnds, (Z.min lastBegin end').
        repeat split; try assumption; [lia|].
        intros Hne. apply bool_decide_eq_true in Etag. contradiction.
      * apply bool_decide_eq_false in Etag.
        destruct throwIfDead; [discriminate|]. intros [= <-]. right. auto.
    + apply Z.ltb_ge in E. intros [= <-]. left.
      exists cursors, epochEnds, (Z.min lastBegin end').
      assert (lastBegin = begin) by lia. subst lastBegin.
      repeat split; try assumption; lia.
  - destruct (begin <? lastBegin) eqn:E; simpl.
    2:{ apply Z.ltb_ge in E. intros [= <-]. left.
        exists cursors, epochEnds, (Z.min lastBegin end').
        assert (lastBegin = begin) by lia. subst lastBegin.
        repeat split; try assumption; lia. }
    apply Z.ltb_lt in E.
    pose proof (scanLocalSets_begin_le tag (old_tLogs old) begin) as Hthis.
    set (sc := scanLocalSets tag (old_tLogs old) begin) in *.
    destruct (scanBegin sc <? lastBegin) eqn:E1.
    + apply Z.ltb_lt in E1.
      destruct (scanBegin sc <? end') eqn:E2.
      * apply Z.ltb_lt in E2.
        destruct (newSetPeekCursor sc tag (scanBegin sc) (Z.min lastBegin end') pgm)
          as [c0| |] eqn:Ec0; simpl; try discriminate.
        destruct (newSetPeekCursor_range _ _ _ _ _ _ Ec0) as (best & server & ->).
        apply IH; [exact Hthis| |rewrite length_app; lia|].
        -- rewrite (chainBottom_snoc _ (scanBegin sc) _ _ _ Hchain); [|reflexivity|lia].
           f_equal. lia.
        -- apply endsOf_snoc with (low := scanBegin sc); [exact Hk|exact Hends|reflexivity].
      * apply Z.ltb_ge in E2. apply IH; [exact Hthis| |exact Hk|exact Hends].
        rewrite Hchain. f_equal. lia.
    + apply IH; assumption.
Qed.

(** X11: What [peekAll] returns.  A [MultiCursor] holds cursors that, newest
    first, cover [end'] down to [begin] (down to [end'] if [begin] is not
    below it) without gap or overlap, each with a non-empty range; for
    [txsTag] they may stop above [begin].  Its epoch ends are the ends of
    the cursors of the old generations.  A [SetPeekCursor] reads the local
    sets of the current generation from [begin] to [end'].  Anything else
    is the empty cursor, for a tag other than [txsTag] and without
    [throwIfDead]. *)
Theorem peekAll_covers self dbgid begin end' tag pgm throwIfDead c :
  peekAll self dbgid begin end' tag pgm throwIfDead = Ok c ->
  match c with
  | MultiCursor cursors epochEnds =>
      exists bottom,
        chainBottom end' cursors = Some bottom
        /\ Z.min begin end' <= bottom
        /\ (tag <> txsTag -> bottom = Z.min begin end')
        /\ (length epochEnds <= length cursors <= length epochEnds + 1)%nat
        /\ endsOf (drop (length cursors - length epochEnds) cursors) epochEnds
  | SetPeekCursor sets _ _ tag' begin' end'' pgm' =>
      sets = List.filter (fun log => isLocal log && nonEmpty (logServers log)) (tLogs self)
      /\ tag' = tag /\ begin' = begin /\ end'' = end' /\ pgm' = pgm
  | _ => c = emptyCursor self tag begin /\ tag <> txsTag /\ throwIfDead = false
  end.
Proof.
  unfold peekAll. set (sc := scanLocalSets tag (tLogs self) 0).
  destruct (scanBegin sc <=? begin) eqn:E.
  - intros H. destruct (newSetPeekCursor_range _ _ _ _ _ _ H) as (best & server & ->).
    split; [apply scanLocalSets_localSets|]. auto.
  - apply Z.leb_gt in E.
    assert (Hfinish : forall k cursors epochEnds,
               (k <= 1)%nat ->
               (k <= length cursors)%nat ->
               chainBottom end' cursors = Some (Z.min (scanBegin sc) end') ->
               endsOf (drop k cursors) epochEnds ->
               peekAllOld self begin end' tag pgm throwIfDead (oldLogData self)
                 (scanBegin sc) cursors epochEnds = Ok c ->
               match c with
               | MultiCursor cursors epochEnds =>
                   exists bottom,
                   chainBottom end' cursors = Some bottom
                   /\ Z.min begin end' <= bottom
                   /\ (tag <> txsTag -> bottom = Z.min begin end')
                   /\ (length epochEnds <= length cursors <= length epochEnds + 1)%nat
                   /\ endsOf (drop (length cursors - length epochEnds) cursors) epochEnds
               | SetPeekCursor sets _ _ tag' begin' end'' pgm' =>
                   sets = List.filter (fun log => isLocal log && nonEmpty (logServers log))
                            (tLogs self)
                   /\ tag' = tag /\ begin' = begin /\ end'' = end' /\ pgm' = pgm
               | _ => c = emptyCursor self tag begin /\ tag <> txsTag /\ throwIfDead = false
               end).
    { intros k cursors epochEnds Hk1 Hk Hchain Hends H.
      destruct (peekAllOld_chain self begin end' tag pgm throwIfDead k (oldLogData self)
                  (scanBegin sc) cursors epochEnds c ltac:(lia) Hchain Hk Hends H)
        as [(cs & es & bottom & -> & Hc & Hb & Htag & Hk' & He)|(-> & Htag & Htid)].
      - exists bottom. pose proof (Forall2_length _ _ _ He) as Hlen.
        rewrite length_drop in Hlen.
        replace (length cs - length es)%nat with k by lia.
        repeat split; try assumption; lia.
      - simpl. auto. }
    destruct (scanBegin sc <? end') eqn:E2.
    + apply Z.ltb_lt in E2.
      destruct (newSetPeekCursor sc tag (scanBegin sc) end' pgm) as [c0| |] eqn:Ec0;
        simpl; try discriminate.
      destruct (newSetPeekCursor_range _ _ _ _ _ _ Ec0) as (best & server & ->).
      apply (Hfinish 1%nat); [lia|simpl; lia| |constructor].
      simpl. rewrite Z.eqb_refl. simpl.
      replace (scanBegin sc <? end') with true by (symmetry; apply Z.ltb_lt; lia).
      f_equal. lia.
    + apply Z.ltb_ge in E2. simpl.
      apply (Hfinish 0%nat); [lia|simpl; lia| |constructor].
      simpl. f_equal. lia.
Qed.

Lemma scanRouterSets_found sets : forall t best begin best' begin',
  0 <= t ->
  scanRouterSets sets t best begin = Ok (best', begin') ->
  begin <= begin'
  /\ (best' = best
      \/ (t <= best' /\ exists log, sets !! Z.to_nat (best' - t) = Some log
                                    /\ logRouters log <> [])).
Proof.
  induction sets as [|log rest IH]; intros t best begin best' begin' Ht; simpl.
  - intros [= <- <-]. split; [lia|left; reflexivity].
  - set (b := if isLocal log then Z.max begin (startVersion log) else begin).
    assert (Hb : begin <= b) by (unfold b; destruct (isLocal log); lia).
    assert (Hnext : forall best0,
               scanRouterSets rest (t + 1) best0 b = Ok (best', begin') ->
               begin <= begin'
               /\ (best' = best0
                   \/ (t <= best' /\ exists log0,
                         (log :: rest) !! Z.to_nat (best' - t) = Some log0
                         /\ logRouters log0 <> []))).
    { intros best0 H. destruct (IH (t + 1) best0 b best' begin' ltac:(lia) H)
        as [Hle [->|(Hin & l & Hl & Hr)]];
        unfold Version in *.
      - split; [lia|left; reflexivity].
      - split; [lia|]. right. split; [lia|]. exists l. split; [|exact Hr].
        replace (Z.to_nat (best' - t)) with (S (Z.to_nat (best' - (t + 1)))) by lia.
        exact Hl. }
    destruct (logRouters log) as [|r rs] eqn:Er; simpl.
    + apply Hnext.
    + destruct (best =? -1); simpl; [|discriminate].
      intros H. destruct (Hnext _ H) as [Hle [->|Hfound]].
      * split; [exact Hle|]. right. split; [lia|]. exists log.
        rewrite Z.sub_diag. simpl. split; [reflexivity|]. rewrite Er. discriminate.
      * split; [exact Hle|right; exact Hfound].
Qed.

Lemma scanRouterSets_throws sets : forall t best begin e,
  scanRouterSets sets t best begin = Throw e -> e = internal_error.
Proof.
  induction sets as [|log rest IH]; intros t best begin e; simpl; [discriminate|].
  destruct (nonEmpty (logRouters log)).
  - destruct (negb (best =? -1)); [intros [= <-]; reflexivity|apply IH].
  - apply IH.
Qed.

Lemma scanRouterSets_defined sets : forall t best begin,
  scanRouterSets sets t best begin <> Undefined.
Proof.
  induction sets as [|log rest IH]; intros t best begin; simpl; [discriminate|].
  destruct (nonEmpty (logRouters log)).
  - destruct (negb (best =? -1)); [discriminate|apply IH].
  - apply IH.
Qed.

(** The loop of [peekRemote] keeps the chain of ranges below the cursor
    of the current generation. *)
Lemma peekRemoteOld_chain self begin tag newest top olds :
  forall lastBegin older epochEnds,
  begin <= lastBegin ->
  chainBottom top older = Some lastBegin ->
  endsOf older epochEnds ->
  Forall (fun c => exists log from to,
            logRouters log <> [] /\ c = routerCursor log tag from to) older ->
  match peekRemoteOld self begin tag olds lastBegin (newest :: older) epochEnds with
  | Ok c =>
      (exists older' epochEnds',
         c = MultiCursor (newest :: older') epochEnds'
         /\ chainBottom top older' = Some begin
         /\ endsOf older' epochEnds'
         /\ Forall (fun c => exists log from to,
                      logRouters log <> [] /\ c = routerCursor log tag from to) older')
      \/ c = emptyCursor self tag begin
  | Throw e => e = internal_error
  | Undefined => False
  end.
Proof.
  induction olds as [|old olds IH]; intros lastBegin older epochEnds Hle Hchain Hends Hall;
    simpl.
  - destruct (begin <? lastBegin) eqn:E; simpl; [right; reflexivity|].
    apply Z.ltb_ge in E. assert (lastBegin = begin) by lia. subst. left.
    exists older, epochEnds. auto.
  - destruct (begin <? lastBegin) eqn:E; simpl.
    2:{ apply Z.ltb_ge in E. assert (lastBegin = begin) by lia. subst. left.
        exists older, epochEnds. auto. }
    apply Z.ltb_lt in E.
    destruct (scanRouterSets (old_tLogs old) 0 (-1) begin) as [[bestOldSet thisBegin]| |]
      eqn:Escan; simpl.
    + destruct (scanRouterSets_found _ 0 _ _ _ _ ltac:(lia) Escan) as [Hthis Hbest].
      destruct (bestOldSet =? -1) eqn:Eb; [right; reflexivity|].
      apply Z.eqb_neq in Eb.
      destruct Hbest as [Hbest|(Hnn & log & Hlog & Hrouters)]; [contradiction|].
      rewrite Z.sub_0_r in Hlog.
      destruct (thisBegin <? lastBegin) eqn:E1.
      * apply Z.ltb_lt in E1. rewrite Hlog.
        apply (IH thisBegin (older ++ [routerCursor log tag thisBegin lastBegin])
                 (epochEnds ++ [lastBegin])); [exact Hthis| | |].
        -- apply (chainBottom_snoc _ thisBegin _ _ _ Hchain); [reflexivity|lia].
        -- apply Forall2_app; [exact Hends|]. constructor; [|constructor].
           exists thisBegin. reflexivity.
        -- apply Forall_app. split; [exact Hall|]. constructor; [|constructor]. eauto.
      * apply IH; assumption.
    + apply (scanRouterSets_throws _ _ _ _ _ Escan).
    + apply (scanRouterSets_defined _ _ _ _ Escan).
Qed.

(** X12: What [peekRemote] does.  It fails only on the assertion (a generation
    with two sets that have log routers).  A [MultiCursor] starts with the
    routers of the current generation, from the start of its local sets to
    [getPeekEnd()], followed by the routers of old generations covering the
    versions from there down to [begin] without gap or overlap, with the
    ends of these as epoch ends.  A [MergedPeekCursor] reads the routers of
    the current generation from [begin] to [getPeekEnd()].  Every cursor
    reads from a set that has log routers.  Anything else is the empty
    cursor. *)
Theorem peekRemote_covers self dbgid begin tag pgm :
  match peekRemote self dbgid begin tag pgm with
  | Ok (MultiCursor cursors epochEnds) =>
      exists log lastBegin older,
        logRouters log <> [] /\ log ∈ tLogs self
        /\ cursors = routerCursor log tag lastBegin (getPeekEnd self) :: older
        /\ chainBottom lastBegin older = Some begin
        /\ endsOf older epochEnds
        /\ Forall (fun c => exists log from to,
                     logRouters log <> [] /\ c = routerCursor log tag from to) older
  | Ok (MergedPeekCursor routers bestServer readQuorum tag' begin' end' pgm' l p r) =>
      exists log,
        logRouters log <> [] /\ log ∈ tLogs self
        /\ MergedPeekCursor routers bestServer readQuorum tag' begin' end' pgm' l p r
           = routerCursor log tag begin (getPeekEnd self)
  | Ok c => c = emptyCursor self tag begin
  | Throw e => e = internal_error
  | Undefined => False
  end.
Proof.
  unfold peekRemote.
  destruct (scanRouterSets (tLogs self) 0 (-1) 0) as [[best lastBegin]| |] eqn:Escan; simpl.
  - destruct (scanRouterSets_found _ 0 _ _ _ _ ltac:(lia) Escan) as [Hlast Hbest].
    destruct (best =? -1) eqn:Eb; [reflexivity|].
    apply Z.eqb_neq in Eb.
    destruct Hbest as [Hbest|(Hnn & log & Hlog & Hrouters)]; [contradiction|].
    rewrite Z.sub_0_r in Hlog. rewrite Hlog.
    assert (Hin : log ∈ tLogs self) by (eapply list_elem_of_lookup_2; exact Hlog).
    destruct (lastBegin <=? begin) eqn:E.
    + simpl. exists log. auto.
    + apply Z.leb_gt in E.
      pose proof (peekRemoteOld_chain self begin tag
                    (routerCursor log tag lastBegin (getPeekEnd self)) lastBegin
                    (oldLogData self) lastBegin [] [] ltac:(lia) eq_refl
                    ltac:(constructor) ltac:(constructor)) as H.
      destruct (peekRemoteOld self begin tag (oldLogData self) lastBegin
                  [routerCursor log tag lastBegin (getPeekEnd self)] []) as [c| |];
        [|exact H|exact H].
      destruct H as [(older & es & -> & Hc & He & Hall)| ->]; [|reflexivity].
      exists log, lastBegin, older.
      do 5 (split; [first [assumption|reflexivity]|]). exact Hall.
  - apply (scanRouterSets_throws _ _ _ _ _ Escan).
  - apply (scanRouterSets_defined _ _ _ _ Escan).
Qed.

(** ** [peekLocal], [peekSingle], [peekLogRouter] and the peek of several tags *)

Lemma bestServerOf_member log tag server :
  bestServerOf log tag = Ok server -> server ∈ logServers log.
Proof.
  unfold bestServerOf. destruct (bestLocationFor log tag <? 0); [discriminate|].
  destruct (logServers log !! Z.to_nat (bestLocationFor log tag)) eqn:E; [|discriminate].
  intros [= <-]. eapply list_elem_of_lookup_2. exact E.
Qed.

Lemma bestServerOf_throws log tag e : bestServerOf log tag <> Throw e.
Proof.
  unfold bestServerOf. destruct (bestLocationFor log tag <? 0); [discriminate|].
  destruct (logServers log !! Z.to_nat (bestLocationFor log tag)); discriminate.
Qed.

(** A generation in which the best-set search of [peekLocal] finds no set
    of locality [tagLocalitySpecial]. *)
Lemma find_not_special tag sets :
  (forall log, log ∈ sets -> localBestFor tag log = true ->
               set_locality log <> tagLocalitySpecial) ->
  match List.find (localBestFor tag) sets with
  | Some log => (set_locality log =? tagLocalitySpecial) = false
  | None => True
  end.
Proof.
  intros H. destruct (List.find (localBestFor tag) sets) as [log|] eqn:E; [|exact I].
  apply List.find_some in E as [Hin Hbest]. apply Z.eqb_neq, H; [|exact Hbest].
  apply list_elem_of_In, Hin.
Qed.

Lemma peekLocalOld_chain self dbgid tag begin end' k olds :
  Forall (fun old => forall log, log ∈ old_tLogs old -> localBestFor tag log = true ->
                                 set_locality log <> tagLocalitySpecial) olds ->
  forall lastBegin cursors epochEnds,
  begin <= lastBegin ->
  chainBottom end' cursors = Some (Z.min lastBegin end') ->
  (k <= length cursors)%nat ->
  endsOf (drop k cursors) epochEnds ->
  match peekLocalOld self dbgid tag begin end' olds false lastBegin cursors epochEnds with
  | Ok c =>
      exists cursors' epochEnds',
        c = MultiCursor cursors' epochEnds'
        /\ chainBottom end' cursors' = Some (Z.min begin end')
        /\ (k <= length cursors')%nat
        /\ endsOf (drop k cursors') epochEnds'
  | Throw e => e = worker_removed
  | Undefined => False
  end.
Proof.
  induction olds as [|old olds IH]; intros Hall lastBegin cursors epochEnds Hle Hchain Hk Hends;
    simpl.
  - destruct (begin <? lastBegin) eqn:E; simpl; [reflexivity|].
    apply Z.ltb_ge in E. assert (lastBegin = begin) by lia. subst lastBegin.
    exists cursors, epochEnds. auto.
  - destruct (begin <? lastBegin) eqn:E; simpl.
    2:{ apply Z.ltb_ge in E. assert (lastBegin = begin) by lia. subst lastBegin.
        exists cursors, epochEnds. auto. }
    apply Z.ltb_lt in E. inversion Hall as [|? ? Hold Holds]; subst.
    pose proof (find_not_special tag (old_tLogs old) Hold) as Hns.
    destruct (List.find (localBestFor tag) (old_tLogs old)) as [log|].
    + rewrite Hns.
      destruct (Z.max (startVersion log) begin <? lastBegin) eqn:E1.
      * apply Z.ltb_lt in E1.
        destruct (Z.max (startVersion log) begin <? end') eqn:E2.
        -- apply Z.ltb_lt in E2. apply IH; [exact Holds|lia| |rewrite length_app; lia|].
           ++ rewrite (chainBottom_snoc _ (Z.max (startVersion log) begin) _ _ _ Hchain);
                [|reflexivity|lia].
              f_equal. lia.
           ++ apply endsOf_snoc with (low := Z.max (startVersion log) begin);
                [exact Hk|exact Hends|reflexivity].
        -- apply Z.ltb_ge in E2. apply IH; [exact Holds|lia| |exact Hk|exact Hends].
           rewrite Hchain. f_equal. lia.
      * apply IH; assumption.
    + apply IH; assumption.
Qed.

(** X13: What [peekLocal] does when no set it picks has locality
    [tagLocalitySpecial].  A [MultiCursor] holds cursors that, newest
    first, cover [end'] down to [begin] without gap or overlap.  A
    [ServerPeekCursor] is either the empty cursor, when no set of the
    current generation qualifies (it then ends at [getPeekEnd()], not at
    [end']), or reads one server of the best set from [begin] to [end'].
    The only error is [worker_removed]; the only undefined step is an
    index [bestLocationFor] gives outside the best set's servers. *)
Theorem peekLocal_covers self dbgid tag begin end' :
  (forall log, log ∈ tLogs self -> localBestFor tag log = true ->
               set_locality log <> tagLocalitySpecial) ->
  Forall (fun old => forall log, log ∈ old_tLogs old -> localBestFor tag log = true ->
                                 set_locality log <> tagLocalitySpecial) (oldLogData self) ->
  match peekLocal self dbgid tag begin end' with
  | Ok (MultiCursor cursors epochEnds) =>
      chainBottom end' cursors = Some (Z.min begin end')
      /\ (length epochEnds <= length cursors <= length epochEnds + 1)%nat
      /\ endsOf (drop (length cursors - length epochEnds) cursors) epochEnds
  | Ok (ServerPeekCursor server tag' begin' end'' _ _) =>
      tag' = tag /\ begin' = begin
      /\ ((server = None /\ end'' = getPeekEnd self
           /\ List.find (localBestFor tag) (tLogs self) = None)
          \/ (exists best s,
                List.find (localBestFor tag) (tLogs self) = Some best
                /\ startVersion best <= begin
                /\ server = Some s /\ s ∈ logServers best /\ end'' = end'))
  | Ok _ => False
  | Throw e => e = worker_removed
  | Undefined =>
      exists best, List.find (localBestFor tag) (tLogs self) = Some best
                   /\ bestServerOf best tag = Undefined
  end.
Proof.
  intros Hcur Holds. unfold peekLocal.
  pose proof (find_not_special tag (tLogs self) Hcur) as Hns.
  destruct (List.find (localBestFor tag) (tLogs self)) as [best|] eqn:Efind.
  2:{ simpl. split; [reflexivity|]. split; [reflexivity|]. left. auto. }
  rewrite Hns.
  destruct (startVersion best <=? begin) eqn:E.
  - apply Z.leb_le in E.
    destruct (bestServerOf best tag) as [server|e|] eqn:Es; simpl.
    + split; [reflexivity|]. split; [reflexivity|]. right. exists best, server.
      pose proof (bestServerOf_member _ _ _ Es). auto.
    + destruct (bestServerOf_throws _ _ _ Es).
    + eauto.
  - apply Z.leb_gt in E.
    assert (Hfinish : forall k cursors,
               (k <= 1)%nat -> (k <= length cursors)%nat ->
               chainBottom end' cursors = Some (Z.min (startVersion best) end') ->
               endsOf (drop k cursors) [] ->
               match peekLocalOld self dbgid tag begin end' (oldLogData self) false
                       (startVersion best) cursors [] with
               | Ok (MultiCursor cursors epochEnds) =>
                   chainBottom end' cursors = Some (Z.min begin end')
                   /\ (length epochEnds <= length cursors <= length epochEnds + 1)%nat
                   /\ endsOf (drop (length cursors - length epochEnds) cursors) epochEnds
               | Ok (ServerPeekCursor server tag' begin' end'' _ _) =>
                   tag' = tag /\ begin' = begin
                   /\ ((server = None /\ end'' = getPeekEnd self
                        /\ Some best = None)
                       \/ (exists best0 s,
                             Some best = Some best0
                             /\ startVersion best0 <= begin
                             /\ server = Some s /\ s ∈ logServers best0 /\ end'' = end'))
               | Ok _ => False
               | Throw e => e = worker_removed
               | Undefined =>
                   exists best0, Some best = Some best0
                                 /\ bestServerOf best0 tag = Undefined
               end).
    { intros k cursors Hk1 Hk Hchain Hends.
      pose proof (peekLocalOld_chain self dbgid tag begin end' k (oldLogData self) Holds
                    (startVersion best) cursors [] ltac:(lia) Hchain Hk Hends) as H.
      destruct (peekLocalOld self dbgid tag begin end' (oldLogData self) false
                  (startVersion best) cursors []) as [c|e|]; [|exact H|destruct H].
      destruct H as (cs & es & -> & Hc & Hk' & He).
      pose proof (Forall2_length _ _ _ He) as Hlen. rewrite length_drop in Hlen.
      replace (length cs - length es)%nat with k by lia.
      split; [exact Hc|]. split; [lia|exact He]. }
    destruct (startVersion best <? end') eqn:E2.
    + apply Z.ltb_lt in E2.
      destruct (bestServerOf best tag) as [server|e|] eqn:Es; simpl.
      * apply (Hfinish 1%nat); [lia|simpl; lia| |constructor].
        simpl. rewrite Z.eqb_refl. simpl.
        replace (startVersion best <? end') with true by (symmetry; apply Z.ltb_lt; lia).
        f_equal. lia.
      * destruct (bestServerOf_throws _ _ _ Es).
      * eauto.
    + apply Z.ltb_ge in E2. simpl.
      apply (Hfinish 0%nat); [lia|simpl; lia| |constructor].
      simpl. f_equal. lia.
Qed.

(** X14: Where [peek] gives up silently, [peekLocal] throws: when the best
    set of the current generation is not of locality [tagLocalitySpecial],
    starts after [begin] and has [bestLocationFor(tag)] within its servers,
    and every old generation that has a best set has one that is not of
    locality [tagLocalitySpecial] either and starts after [begin], the
    result is [worker_removed]. *)
Theorem peekLocal_exhausted self dbgid tag begin end' best :
  List.find (localBestFor tag) (tLogs self) = Some best ->
  begin < startVersion best ->
  set_locality best <> tagLocalitySpecial ->
  0 <= bestLocationFor best tag < Z.of_nat (length (logServers best)) ->
  Forall (fun old => forall log,
            List.find (localBestFor tag) (old_tLogs old) = Some log ->
            begin < startVersion log /\ set_locality log <> tagLocalitySpecial)
    (oldLogData self) ->
  peekLocal self dbgid tag begin end' = Throw worker_removed.
Proof.
  intros Hfind Hlt Hns Hloc Holds. unfold peekLocal. rewrite Hfind.
  replace (startVersion best <=? begin) with false by (symmetry; apply Z.leb_gt; lia).
  replace (set_locality best =? tagLocalitySpecial) with false
    by (symmetry; apply Z.eqb_neq; exact Hns).
  assert (Hloop : forall olds,
             Forall (fun old => forall log,
                       List.find (localBestFor tag) (old_tLogs old) = Some log ->
                       begin < startVersion log /\ set_locality log <> tagLocalitySpecial)
               olds ->
             forall lastBegin cursors epochEnds,
             begin < lastBegin ->
             peekLocalOld self dbgid tag begin end' olds false lastBegin cursors epochEnds
             = Throw worker_removed).
  { induction olds as [|old olds IH]; intros Hall lastBegin cursors epochEnds Hl; simpl;
      replace (begin <? lastBegin) with true by (symmetry; apply Z.ltb_lt; lia); simpl;
      [reflexivity|].
    inversion Hall as [|? ? Hold Hrest]; subst.
    destruct (List.find (localBestFor tag) (old_tLogs old)) as [log|].
    - destruct (Hold log eq_refl) as [Hstart Hsp].
      replace (set_locality log =? tagLocalitySpecial) with false
        by (symmetry; apply Z.eqb_neq; exact Hsp).
      destruct (Z.max (startVersion log) begin <? lastBegin).
      + destruct (Z.max (startVersion log) begin <? end'); apply IH; try assumption; lia.
      + apply IH; assumption.
    - apply IH; assumption. }
  assert (Hserver : exists server, bestServerOf best tag = Ok server).
  { unfold bestServerOf.
    replace (bestLocationFor best tag <? 0) with false by (symmetry; apply Z.ltb_ge; lia).
    assert (Hin : (Z.to_nat (bestLocationFor best tag) < length (logServers best))%nat)
      by lia.
    destruct (lookup_lt_is_Some_2 _ _ Hin) as [server ->]. eauto. }
  destruct Hserver as [server ->].
  destruct (startVersion best <? end'); simpl; apply Hloop; assumption.
Qed.

Lemma dropStale_app begin stale rest :
  Forall (fun entry => fst entry <= begin) stale ->
  dropStale begin (stale ++ rest) = dropStale begin rest.
Proof.
  induction 1 as [|entry stale Hentry _ IH]; simpl; [reflexivity|].
  apply Z.leb_le in Hentry. unfold Version in *. rewrite Hentry. exact IH.
Qed.

Lemma pruneHistory_app begin history stale :
  Forall (fun entry => fst entry <= begin) stale ->
  pruneHistory begin (history ++ stale) = pruneHistory begin history.
Proof.
  intros H. unfold pruneHistory. rewrite rev_app_distr, dropStale_app; [reflexivity|].
  apply Forall_forall. intros entry Hin. rewrite Forall_forall in H. apply H.
  apply list_elem_of_In. apply list_elem_of_In, in_rev in Hin. exact Hin.
Qed.

Lemma dropStale_last begin reversed :
  match dropStale begin reversed with
  | [] => True
  | back :: _ => begin < fst back
  end.
Proof.
  induction reversed as [|back rest IH]; simpl; [exact I|].
  destruct (fst back <=? begin) eqn:E; [exact IH|]. apply Z.leb_gt in E. exact E.
Qed.

Lemma peekHistory_length self dbgid begin history cs :
  peekHistory self dbgid begin history = Ok cs -> length cs = length history.
Proof.
  revert cs. induction history as [|entry rest IH]; intros cs; simpl.
  - intros [= <-]. reflexivity.
  - destruct (peekLocal self dbgid (snd entry) _ (fst entry)); try discriminate. simpl.
    destruct (peekHistory self dbgid begin rest) as [cs'| |]; try discriminate. simpl.
    intros [= <-]. simpl. f_equal. apply IH. reflexivity.
Qed.

(** X15: [peekSingle] ignores the entries at the back of the history that are
    not above [begin]: with only such entries it is [peekLocal] of the tag
    from [begin] to [getPeekEnd()]; otherwise a [MultiCursor] it returns
    has the versions of the remaining entries as epoch ends, the last of
    them above [begin], and one cursor more than epoch ends. *)
Theorem peekSingle_history self dbgid begin tag history stale :
  Forall (fun entry => fst entry <= begin) stale ->
  peekSingle self dbgid begin tag (history ++ stale)
    = peekSingle self dbgid begin tag history
  /\ peekSingle self dbgid begin tag stale = peekLocal self dbgid tag begin (getPeekEnd self)
  /\ (forall c, pruneHistory begin history <> [] ->
        peekSingle self dbgid begin tag history = Ok c ->
        exists cursors,
          c = MultiCursor cursors (List.map fst (pruneHistory begin history))
          /\ length cursors = S (length (pruneHistory begin history))
          /\ (forall v, last (List.map fst (pruneHistory begin history)) = Some v ->
                        begin < v)).
Proof.
  intros Hstale. split; [|split].
  - unfold peekSingle. rewrite pruneHistory_app by exact Hstale. reflexivity.
  - unfold peekSingle.
    rewrite <- (app_nil_l stale), pruneHistory_app by exact Hstale. reflexivity.
  - intros c Hne. unfold peekSingle.
    destruct (pruneHistory begin history) as [|newest older] eqn:Ep; [contradiction|].
    destruct (peekLocal self dbgid tag (fst newest) (getPeekEnd self)) as [c0| |];
      try discriminate. cbn [bindResult].
    destruct (peekHistory self dbgid begin (newest :: older)) as [cs| |] eqn:Eh;
      try discriminate. cbn [bindResult].
    intros [= <-]. exists (c0 :: cs). split; [reflexivity|]. split.
    + simpl. f_equal. apply (peekHistory_length _ _ _ _ _ Eh).
    + intros v Hv. rewrite <- Ep in Hv. unfold pruneHistory in Hv.
      pose proof (dropStale_last begin (rev history)) as Hlast.
      unfold Version in *.
      destruct (dropStale begin (rev history)) as [|back rest]; [discriminate|].
      simpl in Hv. rewrite map_app in Hv. cbn [List.map] in Hv.
      rewrite last_snoc in Hv. injection Hv as <-. exact Hlast.
Qed.

Lemma peekLogRouterOld_cases self dbgid begin tag olds :
  match peekLogRouterOld self dbgid begin tag olds with
  | Ok c =>
      (c = emptyCursor self tag begin
       /\ Forall (fun old => hasRouter dbgid (old_tLogs old) = false) olds)
      \/ (exists older old rest best server,
            olds = older ++ old :: rest
            /\ Forall (fun o => hasRouter dbgid (old_tLogs o) = false) older
            /\ hasRouter dbgid (old_tLogs old) = true
            /\ c = SetPeekCursor
                     (List.filter (fun log => isLocal log && nonEmpty (logServers log))
                        (old_tLogs old))
                     best server tag begin (old_epochEnd old) false)
  | _ => False
  end.
Proof.
  induction olds as [|old olds IH]; simpl.
  - left. split; [reflexivity|constructor].
  - destruct (hasRouter dbgid (old_tLogs old)) eqn:E.
    + destruct (newSetPeekCursor_defined (scanLocalSets tag (old_tLogs old) 0) tag begin
                  (old_epochEnd old) false (scanLocalSets_inRange _ _ _)) as [c Hc].
      rewrite Hc. destruct (newSetPeekCursor_range _ _ _ _ _ _ Hc) as (best & server & ->).
      right. exists [], old, olds, best, server. rewrite scanLocalSets_localSets.
      split; [reflexivity|]. split; [constructor|]. split; [exact E|reflexivity].
    + destruct (peekLogRouterOld self dbgid begin tag olds) as [c| |]; try contradiction.
      destruct IH as [[-> Hall]|(older & o & rest & best & server & -> & Hall & Ho & ->)].
      * left. split; [reflexivity|]. constructor; assumption.
      * right. exists (old :: older), o, rest, best, server.
        split; [reflexivity|]. split; [constructor; assumption|]. split; [exact Ho|reflexivity].
Qed.

(** X16: [peekLogRouter] throws nothing.  For a router of the current
    generation of a stopped system it reads that generation's local sets
    from [begin] to [getPeekEnd()].  When it does not answer from the
    current generation, it reads the local sets of the newest old
    generation that lists the router, up to that generation's [epochEnd];
    a router that no generation lists gets the empty cursor. *)
Theorem peekLogRouter_cases self dbgid begin tag :
  (forall e, peekLogRouter self dbgid begin tag <> Throw e)
  /\ (hasRouter dbgid (tLogs self) = true -> stopped self = true ->
      exists best server,
        peekLogRouter self dbgid begin tag
        = Ok (SetPeekCursor
                (List.filter (fun log => isLocal log && nonEmpty (logServers log))
                   (tLogs self))
                best server tag begin (getPeekEnd self) false))
  /\ (hasRouter dbgid (tLogs self) = false ->
      (Forall (fun old => hasRouter dbgid (old_tLogs old) = false) (oldLogData self)
       /\ peekLogRouter self dbgid begin tag = Ok (emptyCursor self tag begin))
      \/ (exists older old rest best server,
            oldLogData self = older ++ old :: rest
            /\ Forall (fun o => hasRouter dbgid (old_tLogs o) = false) older
            /\ hasRouter dbgid (old_tLogs old) = true
            /\ peekLogRouter self dbgid begin tag
               = Ok (SetPeekCursor
                       (List.filter (fun log => isLocal log && nonEmpty (logServers log))
                          (old_tLogs old))
                       best server tag begin (old_epochEnd old) false))).
Proof.
  pose proof (peekLogRouterOld_cases self dbgid begin tag (oldLogData self)) as Hold.
  split; [|split].
  - intros e. unfold peekLogRouter.
    destruct (hasRouter dbgid (tLogs self)).
    + destruct (stopped self).
      * destruct (newSetPeekCursor_defined (scanLocalSets tag (tLogs self) 0) tag begin
                    (getPeekEnd self) false (scanLocalSets_inRange _ _ _)) as [c ->].
        discriminate.
      * destruct (List.find _ (tLogs self)) as [log|].
        -- destruct (bestServerOf log tag) as [s|e'|] eqn:Es; simpl; try discriminate.
           destruct (bestServerOf_throws _ _ _ Es).
        -- destruct (peekLogRouterOld self dbgid begin tag (oldLogData self));
             [discriminate|contradiction|discriminate].
    + destruct (peekLogRouterOld self dbgid begin tag (oldLogData self));
        [discriminate|contradiction|discriminate].
  - intros Hcur Hstopped. unfold peekLogRouter. rewrite Hcur, Hstopped.
    destruct (newSetPeekCursor_defined (scanLocalSets tag (tLogs self) 0) tag begin
                (getPeekEnd self) false (scanLocalSets_inRange _ _ _)) as [c Hc].
    rewrite Hc. destruct (newSetPeekCursor_range _ _ _ _ _ _ Hc) as (best & server & ->).
    rewrite scanLocalSets_localSets. eauto.
  - intros Hcur. unfold peekLogRouter. rewrite Hcur.
    destruct (peekLogRouterOld self dbgid begin tag (oldLogData self)) as [c| |];
      try contradiction.
    destruct Hold as [[-> Hall]|(older & o & rest & best & server & Heq & Hall & Ho & ->)].
    + left. auto.
    + right. exists older, o, rest, best, server. auto.
Qed.

Lemma peekEach_each self dbgid begin pgm tags : forall cursors,
  peekEach self dbgid begin tags pgm = Ok cursors ->
  Forall2 (fun tag c => peek self dbgid begin tag pgm = Ok c) tags cursors.
Proof.
  induction tags as [|tag rest IH]; intros cursors; simpl.
  - intros [= <-]. constructor.
  - destruct (peek self dbgid begin tag pgm) as [c| |] eqn:Ec; try discriminate. simpl.
    destruct (peekEach self dbgid begin rest pgm) as [cs| |]; try discriminate. simpl.
    intros [= <-]. constructor; [exact Ec|]. apply IH. reflexivity.
Qed.

(** X17: The peek of two or more tags merges, in the order of the tags, the
    cursors that [peek] returns for each of them, starting at [begin]; it
    returns a cursor only if the peek of every tag does. *)
Theorem peekTags_merges self dbgid begin tags pgm c :
  (2 <= length tags)%nat ->
  peekTags self dbgid begin tags pgm = Ok c ->
  exists cursors,
    c = MergedPeekCursorOver cursors begin
          (match tLogs self with
           | log :: _ => set_locality log =? tagLocalityUpgraded
           | [] => false
           end)
    /\ Forall2 (fun tag cursor => peek self dbgid begin tag pgm = Ok cursor) tags cursors.
Proof.
  intros Hlen. unfold peekTags.
  destruct tags as [|t1 [|t2 rest]]; simpl in Hlen; try lia.
  destruct (peekEach self dbgid begin (t1 :: t2 :: rest) pgm) as [cs| |] eqn:E;
    try discriminate.
  cbn [bindResult]. intros [= <-]. exists cs. split; [reflexivity|].
  apply peekEach_each. exact E.
Qed.

(** ** Pop: what a call records, and what the tasks send *)

Lemma set_same s : set_actors (actors s) (set_outstandingPops (outstandingPops s) s) = s.
Proof. destruct s; reflexivity. Qed.

Lemma popOne_fields upTo tag kcv time s h :
  tLogs (popOne upTo tag kcv time s h) = tLogs s
  /\ oldLogData (popOne upTo tag kcv time s h) = oldLogData s.
Proof.
  unfold popOne. destruct (subscript (outstandingPops s) (ident h, tag)) as [pops entry].
  split; reflexivity.
Qed.

Lemma fold_popOne_fields upTo tag kcv time hs : forall s,
  tLogs (fold_left (popOne upTo tag kcv time) hs s) = tLogs s
  /\ oldLogData (fold_left (popOne upTo tag kcv time) hs s) = oldLogData s.
Proof.
  induction hs as [|h hs IH]; intros s; simpl; [split; reflexivity|].
  destruct (IH (popOne upTo tag kcv time s h)) as [-> ->]. apply popOne_fields.
Qed.

Lemma popOne_lookup upTo tag kcv time s h key :
  outstandingPops (popOne upTo tag kcv time s h) !! key
  = if decide (key = (ident h, tag))
    then Some (raised upTo kcv (outstandingPops s !! key))
    else outstandingPops s !! key.
Proof.
  unfold popOne, subscript, raised.
  destruct (decide (key = (ident h, tag))) as [->|Hne].
  - destruct (outstandingPops s !! (ident h, tag)) as [[u c]|] eqn:E; simpl.
    + destruct (u <? upTo); simpl; [apply lookup_insert_eq|exact E].
    + destruct (0 <? upTo); simpl.
      * rewrite insert_insert_eq. apply lookup_insert_eq.
      * apply lookup_insert_eq.
  - destruct (outstandingPops s !! (ident h, tag)) as [[u c]|] eqn:E; simpl.
    + destruct (u <? upTo); simpl; [|reflexivity].
      apply lookup_insert_ne. congruence.
    + destruct (0 <? upTo); simpl.
      * rewrite insert_insert_eq. apply lookup_insert_ne. congruence.
      * apply lookup_insert_ne. congruence.
Qed.

Lemma popOne_actors upTo tag kcv time s h :
  (unpopped (outstandingPops s) (ident h, tag) ->
   actors (popOne upTo tag kcv time s h)
   = actors s ++ [mkPopTask (ident h) tag time 0 Delaying])
  /\ (~ unpopped (outstandingPops s) (ident h, tag) ->
      actors (popOne upTo tag kcv time s h) = actors s).
Proof.
  unfold popOne, subscript, unpopped.
  destruct (outstandingPops s !! (ident h, tag)) as [[u c]|]; simpl.
  - destruct (u =? 0) eqn:E.
    + apply Z.eqb_eq in E. split; [reflexivity|contradiction].
    + apply Z.eqb_neq in E. split; [contradiction|reflexivity].
  - split; [reflexivity|]. intros H. destruct (H I).
Qed.

Lemma raised_first upTo kcv entry : 0 < upTo -> upTo <= fst (raised upTo kcv entry).
Proof.
  intros Hpos. unfold raised. destruct entry as [[u c]|].
  - destruct (u <? upTo) eqn:E; simpl; [lia|apply Z.ltb_ge in E; exact E].
  - replace (0 <? upTo) with true by (symmetry; apply Z.ltb_lt; exact Hpos). simpl. lia.
Qed.

Lemma raised_raised upTo kcv entry :
  0 < upTo -> raised upTo kcv (Some (raised upTo kcv entry)) = raised upTo kcv entry.
Proof.
  intros Hpos. pose proof (raised_first upTo kcv entry Hpos) as H.
  destruct (raised upTo kcv entry) as [u c]. simpl in *.
  replace (u <? upTo) with false by (symmetry; apply Z.ltb_ge; exact H). reflexivity.
Qed.

(** The loop over a list of handles: the entries it leaves and the tasks
    it starts. *)
Lemma fold_popOne_records upTo tag kcv time hs :
  0 < upTo ->
  forall s,
  let s' := fold_left (popOne upTo tag kcv time) hs s in
  (forall key,
     outstandingPops s' !! key
     = if bool_decide (key ∈ List.map (fun h => (ident h, tag)) hs)
       then Some (raised upTo kcv (outstandingPops s !! key))
       else outstandingPops s !! key)
  /\ exists added,
       actors s' = actors s ++ added
       /\ NoDup (List.map taskKey added)
       /\ forall t, t ∈ added <->
            exists h, h ∈ hs /\ unpopped (outstandingPops s) (ident h, tag)
                      /\ t = mkPopTask (ident h) tag time 0 Delaying.
Proof.
  intros Hpos. induction hs as [|h hs IH]; intros s; simpl.
  - split; [intros key; reflexivity|]. exists []. rewrite app_nil_r.
    split; [reflexivity|]. split; [constructor|].
    intros t. split; [intros H; inversion H|intros (h & H & _); inversion H].
  - destruct (IH (popOne upTo tag kcv time s h)) as [Hlook (added1 & Hact & Hnd & Hadded)].
    assert (Hraised : forall key, key = (ident h, tag) ->
               ~ unpopped (outstandingPops (popOne upTo tag kcv time s h)) key).
    { intros key -> Hun. unfold unpopped in Hun. rewrite popOne_lookup in Hun.
      destruct (decide ((ident h, tag) = (ident h, tag))); [|congruence].
      pose proof (raised_first upTo kcv (outstandingPops s !! (ident h, tag)) Hpos) as Hf.
      destruct (raised upTo kcv (outstandingPops s !! (ident h, tag))) as [u c].
      simpl in Hf. lia. }
    split.
    + intros key. rewrite Hlook, popOne_lookup.
      destruct (decide (key = (ident h, tag))) as [->|Hne].
      * rewrite (bool_decide_eq_true_2 (_ ∈ _ :: _)) by left.
        destruct (bool_decide _); [rewrite raised_raised by exact Hpos|]; reflexivity.
      * destruct (bool_decide (key ∈ List.map (fun h0 => (ident h0, tag)) hs)) eqn:Eb.
        -- apply bool_decide_eq_true in Eb.
           rewrite (bool_decide_eq_true_2 (_ ∈ _ :: _)) by (right; exact Eb). reflexivity.
        -- apply bool_decide_eq_false in Eb.
           rewrite (bool_decide_eq_false_2 (_ ∈ _ :: _)); [reflexivity|].
           intros Hin. apply elem_of_cons in Hin as [Heq|Hin]; contradiction.
    + destruct (popOne_actors upTo tag kcv time s h) as [Hnew Hsame].
      assert (Hother : forall h', (ident h', tag) <> (ident h, tag) ->
                 (unpopped (outstandingPops (popOne upTo tag kcv time s h)) (ident h', tag)
                  <-> unpopped (outstandingPops s) (ident h', tag))).
      { intros h' Hne. unfold unpopped. rewrite popOne_lookup.
        destruct (decide ((ident h', tag) = (ident h, tag))); [contradiction|reflexivity]. }
      assert (Hdec : unpopped (outstandingPops s) (ident h, tag)
                     \/ ~ unpopped (outstandingPops s) (ident h, tag)).
      { unfold unpopped. destruct (outstandingPops s !! (ident h, tag)) as [[u c]|]; [|auto].
        destruct (decide (u = 0)); auto. }
      destruct Hdec as [Hun|Hun].
      * exists (mkPopTask (ident h) tag time 0 Delaying :: added1).
        rewrite Hact, (Hnew Hun), <- app_assoc. split; [reflexivity|]. split.
        -- simpl. constructor; [|exact Hnd]. intros Hin.
           apply list_elem_of_fmap in Hin as (t & Hk & Ht).
           apply Hadded in Ht as (h' & _ & Hun' & ->). unfold taskKey in Hk; simpl in Hk.
           apply (Hraised (ident h', tag)); [symmetry; exact Hk|exact Hun'].
        -- intros t. rewrite elem_of_cons, Hadded. split.
           ++ intros [->|(h' & Hin & Hun' & ->)].
              ** exists h. split; [left|]. auto.
              ** exists h'. split; [right; exact Hin|]. split; [|reflexivity].
                 destruct (decide ((ident h', tag) = (ident h, tag))) as [Heq|Hne].
                 --- rewrite Heq. exact Hun.
                 --- apply Hother; assumption.
           ++ intros (h' & Hin & Hun' & ->).
              destruct (decide ((ident h', tag) = (ident h, tag))) as [Heq|Hne].
              ** left. injection Heq as ->. reflexivity.
              ** right. exists h'. apply elem_of_cons in Hin as [->|Hin]; [congruence|].
                 split; [exact Hin|]. split; [apply Hother; assumption|reflexivity].
      * exists added1. rewrite Hact, (Hsame Hun). split; [reflexivity|].
        split; [exact Hnd|]. intros t. rewrite Hadded. split.
        -- intros (h' & Hin & Hun' & ->). exists h'. split; [right; exact Hin|].
           split; [|reflexivity].
           destruct (decide ((ident h', tag) = (ident h, tag))) as [Heq|Hne].
           ++ destruct (Hraised _ Heq Hun').
           ++ apply Hother; assumption.
        -- intros (h' & Hin & Hun' & ->).
           destruct (decide ((ident h', tag) = (ident h, tag))) as [Heq|Hne].
           ++ rewrite Heq in Hun'. contradiction.
           ++ exists h'. apply elem_of_cons in Hin as [->|Hin]; [congruence|].
              split; [exact Hin|]. split; [apply Hother; assumption|reflexivity].
Qed.

Lemma fold_left_concat {A B C} (g : A -> C -> A) (f : B -> list C) (l : list B) : forall s,
  fold_left (fun s t => fold_left g (f t) s) l s = fold_left g (concat (List.map f l)) s.
Proof.
  induction l as [|t l IH]; intros s; simpl; [reflexivity|].
  rewrite fold_left_app. apply IH.
Qed.

Lemma fold_left_pointwise {A B} (f g : A -> B -> A) (l : list B) :
  (forall s x, f s x = g s x) -> forall s, fold_left f l s = fold_left g l s.
Proof.
  intros H. induction l as [|x l IH]; intros s; simpl; [reflexivity|].
  rewrite H. apply IH.
Qed.

Lemma fold_popRouters upTo tag kcv popLocality sets : forall s,
  fold_left (popRouters upTo tag kcv popLocality) sets s
  = fold_left (popOne upTo tag kcv LogRouterDelay) (routersAt popLocality sets) s.
Proof.
  unfold routersAt. induction sets as [|t sets IH]; intros s; simpl; [reflexivity|].
  unfold popRouters at 2. destruct (set_locality t =? popLocality); simpl.
  - rewrite fold_left_app. apply IH.
  - apply IH.
Qed.

Lemma popLogRouter_as_fold self upTo tag kcv popLocality :
  popLogRouter self upTo tag kcv popLocality
  = if upTo =? 0 then self
    else fold_left (popOne upTo tag kcv LogRouterDelay)
           (routersAt popLocality (tLogs self)
            ++ concat (List.map (fun old => routersAt popLocality (old_tLogs old))
                         (oldLogData self)))
           self.
Proof.
  unfold popLogRouter. destruct (upTo =? 0); [reflexivity|].
  rewrite fold_left_app, fold_popRouters.
  rewrite <- (fold_left_concat (popOne upTo tag kcv LogRouterDelay)
                (fun old => routersAt popLocality (old_tLogs old))).
  apply fold_left_pointwise. intros s old. apply fold_popRouters.
Qed.

Lemma pop_as_fold self upTo tag kcv popLocality s' :
  0 < upTo ->
  pop self upTo tag kcv popLocality = Ok s' ->
  s' = fold_left (popOne upTo tag kcv (popTime tag)) (popTargets self tag popLocality) self
  /\ ((locality tag =? tagLocalityRemoteLog) = true \/ popLocality = tagLocalityInvalid).
Proof.
  intros Hpos. unfold pop, popTargets, popTime.
  replace (upTo <=? 0) with false by (symmetry; apply Z.leb_gt; exact Hpos).
  destruct (locality tag =? tagLocalityRemoteLog).
  - intros [= <-]. rewrite popLogRouter_as_fold.
    replace (upTo =? 0) with false by (symmetry; apply Z.eqb_neq; lia). auto.
  - destruct (popLocality =? tagLocalityInvalid) eqn:E; simpl; [|discriminate].
    apply Z.eqb_eq in E. intros [= <-]. rewrite fold_left_concat. auto.
Qed.

(** X18: What a [pop] call with a positive [upTo] records.  Of the keys
    (server, tag) of the handles it visits, each ends with the larger of
    its stored [upTo] and the new one; every other entry is untouched.  It
    starts one [popFromLog] task for each visited key that had no entry
    (or a zero one), and no two for the same key, even if a handle is
    visited twice. *)
Theorem pop_records self upTo tag kcv popLocality s' :
  0 < upTo ->
  pop self upTo tag kcv popLocality = Ok s' ->
  (forall key,
     outstandingPops s' !! key
     = if bool_decide (key ∈ List.map (fun h => (ident h, tag))
                               (popTargets self tag popLocality))
       then Some (raised upTo kcv (outstandingPops self !! key))
       else outstandingPops self !! key)
  /\ exists added,
       actors s' = actors self ++ added
       /\ NoDup (List.map taskKey added)
       /\ forall t, t ∈ added <->
            exists h, h ∈ popTargets self tag popLocality
                      /\ unpopped (outstandingPops self) (ident h, tag)
                      /\ t = mkPopTask (ident h) tag (popTime tag) 0 Delaying.
Proof.
  intros Hpos H. destruct (pop_as_fold _ _ _ _ _ _ Hpos H) as [-> _].
  apply fold_popOne_records. exact Hpos.
Qed.

Lemma fold_popOne_absorbed upTo tag kcv time hs : forall s,
  (forall h, h ∈ hs -> exists u c,
     outstandingPops s !! (ident h, tag) = Some (u, c) /\ upTo <= u /\ u <> 0) ->
  fold_left (popOne upTo tag kcv time) hs s = s.
Proof.
  induction hs as [|h hs IH]; intros s Hall; simpl; [reflexivity|].
  assert (Hone : popOne upTo tag kcv time s h = s).
  { destruct (Hall h ltac:(left)) as (u & c & E & Hu & Hnz).
    unfold popOne, subscript. unfold Version in *. rewrite E. simpl.
    replace (u <? upTo) with false by (symmetry; apply Z.ltb_ge; exact Hu).
    replace (u =? 0) with false by (symmetry; apply Z.eqb_neq; exact Hnz).
    apply set_same. }
  rewrite Hone. apply IH. intros h' Hin. apply Hall. right. exact Hin.
Qed.

(** X19: A pop changes nothing, no entry and no task, when every key it
    visits still holds an entry with a non-zero version at least as large as
    its [upTo].  This is so in the state a pop of the same tag and locality
    to a version at least as large has just returned, before any task of
    [popFromLog] has run. *)
Theorem pop_absorbs self upTo' tag kcv' popLocality :
  (locality tag = tagLocalityRemoteLog \/ popLocality = tagLocalityInvalid ->
   (forall h, h ∈ popTargets self tag popLocality ->
      exists u c, outstandingPops self !! (ident h, tag) = Some (u, c)
                  /\ upTo' <= u /\ u <> 0) ->
   pop self upTo' tag kcv' popLocality = Ok self)
  /\ (forall before upTo kcv,
        0 < upTo -> upTo' <= upTo ->
        pop before upTo tag kcv popLocality = Ok self ->
        pop self upTo' tag kcv' popLocality = Ok self).
Proof.
  assert (Hkeep : (locality tag =? tagLocalityRemoteLog) = true
                  \/ popLocality = tagLocalityInvalid ->
                  (forall h, h ∈ popTargets self tag popLocality ->
                     exists u c, outstandingPops self !! (ident h, tag) = Some (u, c)
                                 /\ upTo' <= u /\ u <> 0) ->
                  pop self upTo' tag kcv' popLocality = Ok self).
  { intros Hloc Hall.
    destruct (Z.leb_spec upTo' 0) as [Hnp|Hp'].
    { unfold pop. replace (upTo' <=? 0) with true by (symmetry; apply Z.leb_le; exact Hnp).
      reflexivity. }
    assert (Hdef : pop self upTo' tag kcv' popLocality
                   = Ok (fold_left (popOne upTo' tag kcv' (popTime tag))
                           (popTargets self tag popLocality) self)).
    { unfold pop, popTargets, popTime.
      replace (upTo' <=? 0) with false by (symmetry; apply Z.leb_gt; exact Hp').
      destruct Hloc as [Hr|Hinv].
      - rewrite Hr, popLogRouter_as_fold.
        replace (upTo' =? 0) with false by (symmetry; apply Z.eqb_neq; lia). reflexivity.
      - destruct (locality tag =? tagLocalityRemoteLog).
        + rewrite popLogRouter_as_fold.
          replace (upTo' =? 0) with false by (symmetry; apply Z.eqb_neq; lia). reflexivity.
        + rewrite Hinv, Z.eqb_refl. simpl. rewrite fold_left_concat. reflexivity. }
    rewrite Hdef. f_equal. apply fold_popOne_absorbed. exact Hall. }
  split.
  - intros [Hr|Hinv] Hall; apply Hkeep; try exact Hall.
    + left. apply Z.eqb_eq. exact Hr.
    + right. exact Hinv.
  - intros before upTo kcv Hpos Hle H.
    destruct (pop_as_fold _ _ _ _ _ _ Hpos H) as [Hs1 Hloc].
    apply Hkeep; [exact Hloc|].
    assert (Htargets : popTargets self tag popLocality = popTargets before tag popLocality).
    { unfold popTargets.
      destruct (fold_popOne_fields upTo tag kcv (popTime tag)
                  (popTargets before tag popLocality) before) as [Ht Ho].
      rewrite <- Hs1 in Ht, Ho. unfold popTargets in Ht, Ho. rewrite Ht, Ho. reflexivity. }
    rewrite Htargets. intros h Hin.
    destruct (fold_popOne_records upTo tag kcv (popTime tag)
                (popTargets before tag popLocality) Hpos before) as [Hlook _].
    rewrite <- Hs1 in Hlook. specialize (Hlook (ident h, tag)).
    rewrite bool_decide_eq_true_2 in Hlook
      by (apply list_elem_of_fmap; exists h; split; [reflexivity|exact Hin]).
    pose proof (raised_first upTo kcv (outstandingPops before !! (ident h, tag)) Hpos) as Hf.
    destruct (raised upTo kcv (outstandingPops before !! (ident h, tag))) as [u c].
    simpl in Hf. exists u, c. split; [exact Hlook|]. lia.
Qed.

(** *** A key whose task has stopped on an error *)

Lemma popOne_abandoned server tag upTo tag' kcv time s h :
  upTo <> 0 ->
  abandoned server tag s -> abandoned server tag (popOne upTo tag' kcv time s h).
Proof.
  intros Hnz [(u & c & Hentry & Hu) Hdead]. split.
  - rewrite popOne_lookup.
    destruct (decide ((server, tag) = (ident h, tag'))) as [Heq|Hne]; [|eauto].
    unfold Version in *. rewrite Hentry. unfold raised.
    destruct (u <? upTo); [exists upTo, kcv|exists u, c]; auto.
  - intros i t Hi Hkey.
    destruct (popOne_actors upTo tag' kcv time s h) as [Hnew Hsame].
    destruct (decide ((server, tag) = (ident h, tag'))) as [Heq|Hne].
    + rewrite Hsame in Hi; [eauto|].
      unfold unpopped. unfold Version in *. rewrite <- Heq, Hentry. exact Hu.
    + assert (Hdec : unpopped (outstandingPops s) (ident h, tag')
                     \/ ~ unpopped (outstandingPops s) (ident h, tag')).
      { unfold unpopped.
        destruct (outstandingPops s !! (ident h, tag')) as [[u' c']|]; [|auto].
        destruct (decide (u' = 0)); auto. }
      destruct Hdec as [Hun|Hun]; [|rewrite (Hsame Hun) in Hi; eauto].
      rewrite (Hnew Hun) in Hi. apply lookup_snoc_Some in Hi as [[_ Hi]|[_ <-]]; [eauto|].
      unfold taskKey in Hkey; simpl in Hkey. congruence.
Qed.

Lemma fold_popOne_abandoned server tag upTo tag' kcv time hs : forall s,
  upTo <> 0 ->
  abandoned server tag s ->
  abandoned server tag (fold_left (popOne upTo tag' kcv time) hs s).
Proof.
  induction hs as [|h hs IH]; intros s Hnz Hab; simpl; [exact Hab|].
  apply IH; [exact Hnz|]. apply popOne_abandoned; assumption.
Qed.

Lemma task_with_key t last st : taskKey (task_with t last st) = taskKey t.
Proof. reflexivity. Qed.

Lemma abandoned_set_task server tag s i t t' pops :
  actors s !! i = Some t ->
  taskKey t' = taskKey t ->
  taskKey t <> (server, tag) ->
  pops !! (server, tag) = outstandingPops s !! (server, tag) ->
  abandoned server tag s ->
  abandoned server tag (set_task i t' (set_outstandingPops pops s)).
Proof.
  intros Hi Hkey Hne Hpops [(u & c & Hentry & Hu) Hdead]. split.
  - simpl. exists u, c. split; [|exact Hu].
    exact (eq_trans Hpops Hentry).
  - intros j tj Hj Hkj. simpl in Hj.
    apply list_lookup_insert_Some in Hj as [(<- & <- & _)|[_ Hj]]; [|eauto].
    congruence.
Qed.

Lemma popFromLog_abandoned server tag s i ev :
  abandoned server tag s ->
  abandoned server tag (fst (popFromLog s i ev))
  /\ match snd (popFromLog s i ev) with
     | Some (to, req) => ~ (to = server /\ popreq_tag req = tag)
     | None => True
     end.
Proof.
  intros Hab. unfold popFromLog.
  destruct (actors s !! i) as [t|] eqn:Hi; [|split; [exact Hab|exact I]].
  destruct (decide (taskKey t = (server, tag))) as [Hkey|Hne].
  { destruct Hab as [Hentry Hdead]. pose proof (Hdead i t Hi Hkey) as Hlive.
    unfold isLive in Hlive. destruct (pop_state t); try discriminate.
    split; [split; assumption|exact I]. }
  assert (Hsame : forall t', taskKey t' = taskKey t ->
             abandoned server tag (set_task i t' s)).
  { intros t' Hk.
    rewrite <- (set_same s) at 1. unfold set_task. simpl.
    destruct Hab as [Hentry Hdead]. split; [exact Hentry|].
    intros j tj Hj Hkj. simpl in Hj.
    apply list_lookup_insert_Some in Hj as [(<- & <- & _)|[_ Hj]]; [congruence|eauto]. }
  destruct (pop_state t) as [|to|] eqn:Hst.
  - destruct ev as [isPresent|reply|]; simpl.
    + unfold subscript. fold (taskKey t).
      destruct (outstandingPops s !! taskKey t) as [to|] eqn:E; simpl.
      * destruct (fst to <=? pop_last t); simpl.
        -- split; [|exact I].
           apply (abandoned_set_task server tag s i t); auto.
           apply lookup_delete_ne. exact Hne.
        -- destruct isPresent; simpl.
           ++ split.
              ** apply (abandoned_set_task server tag s i t); auto.
              ** unfold taskKey in Hne. intros [<- <-]. apply Hne. reflexivity.
           ++ split; [|exact I]. apply (abandoned_set_task server tag s i t); auto.
      * destruct (0 <=? pop_last t); simpl.
        -- split; [|exact I].
           apply (abandoned_set_task server tag s i t); auto.
           rewrite lookup_delete_ne by exact Hne. apply lookup_insert_ne. exact Hne.
        -- destruct isPresent; simpl.
           ++ split.
              ** apply (abandoned_set_task server tag s i t); auto.
                 apply lookup_insert_ne. exact Hne.
              ** unfold taskKey in Hne. intros [<- <-]. apply Hne. reflexivity.
           ++ split; [|exact I]. apply (abandoned_set_task server tag s i t); auto.
              apply lookup_insert_ne. exact Hne.
    + split; [exact Hab|exact I].
    + split; [|exact I]. apply Hsame. reflexivity.
  - destruct ev as [isPresent|[| |e]|]; simpl; try (split; [exact Hab|exact I]);
      (split; [|exact I]); apply Hsame; reflexivity.
  - split; [exact Hab|exact I].
Qed.

Lemma sentTo_snoc server tag w i to req :
  ~ (to = server /\ popreq_tag req = tag) ->
  sentTo server tag (w ++ [(i, to, req)]) = sentTo server tag w.
Proof.
  intros Hne. unfold sentTo. rewrite List.filter_app, List.map_app. simpl.
  rewrite bool_decide_eq_false_2 by exact Hne. apply app_nil_r.
Qed.

Lemma popAct_abandoned server tag w a :
  abandoned server tag (world_system w) ->
  abandoned server tag (world_system (popAct w a))
  /\ sentTo server tag (wire (popAct w a)) = sentTo server tag (wire w).
Proof.
  intros Hab. destruct a as [upTo tag' kcv loc|upTo tag' kcv loc|i ev|sets olds]; simpl.
  - destruct (pop (world_system w) upTo tag' kcv loc) as [s| |] eqn:E; simpl; auto.
    split; [|reflexivity].
    destruct (Z.leb_spec upTo 0) as [Hnp|Hpos].
    + unfold pop in E.
      replace (upTo <=? 0) with true in E by (symmetry; apply Z.leb_le; exact Hnp).
      injection E as <-. exact Hab.
    + destruct (pop_as_fold _ _ _ _ _ _ Hpos E) as [-> _].
      apply fold_popOne_abandoned; [lia|exact Hab].
  - split; [|reflexivity]. rewrite popLogRouter_as_fold.
    destruct (upTo =? 0) eqn:E; [exact Hab|]. apply Z.eqb_neq in E.
    apply fold_popOne_abandoned; assumption.
  - destruct (popFromLog_abandoned server tag (world_system w) i ev Hab) as [H Hsent].
    destruct (popFromLog (world_system w) i ev) as [s [[to req]|]]; simpl in *.
    + split; [exact H|]. apply sentTo_snoc. exact Hsent.
    + split; [exact H|reflexivity].
  - split; [|reflexivity]. destruct Hab as [Hentry Hdead]. split; assumption.
Qed.

Lemma popRun_abandoned server tag acts : forall w,
  abandoned server tag (world_system w) ->
  sentTo server tag (wire (popRun acts w)) = sentTo server tag (wire w).
Proof.
  unfold popRun. induction acts as [|a acts IH]; intros w Hab; simpl; [reflexivity|].
  destruct (popAct_abandoned server tag w a Hab) as [Hab' Hsent].
  rewrite IH by exact Hab'. exact Hsent.
Qed.

(** X20: Once a [popFromLog] task has returned because its pop request failed,
    or because the handle was not present when a request was due, the
    entry it leaves in [outstandingPops] keeps every later [pop] from
    starting another task for that server and tag: whatever happens next,
    this log system sends that server no further pop request for the tag. *)
Theorem pop_abandoned_key_is_silent before w0 i t ev acts :
  outstandingPops (world_system w0) = ∅ ->
  actors (world_system w0) = [] ->
  wire w0 = [] ->
  Forall positiveUpTo before ->
  let w := popRun before w0 in
  actors (world_system w) !! i = Some t ->
  stopsTask (world_system w) t ev ->
  sentTo (pop_log t) (pop_tag t) (wire (popRun (Resume i ev :: acts) w))
  = sentTo (pop_log t) (pop_tag t) (wire w).
Proof.
  intros Hp Ha Hw Hbefore w Hi Hstop.
  assert (Hinv : worldInv w)
    by (apply popRun_inv; [exact Hbefore|apply worldInv_initial; assumption]).
  change (popRun (Resume i ev :: acts) w) with (popRun acts (popAct w (Resume i ev))).
  assert (Hlive : isLive t = true).
  { unfold stopsTask in Hstop. unfold isLive. destruct (pop_state t); auto. }
  destruct (inv_entry _ _ _ Hinv i t Hi Hlive) as [[u c] Hentry].
  pose proof (inv_positive _ _ _ Hinv _ _ _ Hentry) as Hu.
  assert (Hstep : exists s1,
             popAct w (Resume i ev) = mkPopWorld s1 (wire w)
             /\ outstandingPops s1 = outstandingPops (world_system w)
             /\ actors s1 = <[i := task_with t (pop_last t) Finished]>
                              (actors (world_system w))).
  { simpl. unfold popFromLog. rewrite Hi. unfold stopsTask in Hstop.
    destruct (pop_state t) as [|to|] eqn:Hst.
    - destruct ev as [[|]|reply|]; try contradiction.
      destruct Hstop as (u' & c' & Hentry' & Hlast).
      unfold subscript. unfold taskKey in Hentry'. unfold Version in *.
      rewrite Hentry'. simpl.
      replace (u' <=? pop_last t) with false by (symmetry; apply Z.leb_gt; exact Hlast).
      simpl. eexists. split; [reflexivity|]. split; reflexivity.
    - destruct ev as [p|[| |e]|]; try contradiction.
      simpl. eexists. split; [reflexivity|]. split; reflexivity.
    - contradiction. }
  destruct Hstep as (s1 & -> & Hpops & Hactors).
  rewrite (popRun_abandoned (pop_log t) (pop_tag t)); [reflexivity|]. simpl. split.
  - exists u, c. rewrite Hpops. split; [exact Hentry|lia].
  - intros j tj Hj Hkey. rewrite Hactors in Hj.
    apply list_lookup_insert_Some in Hj as [(<- & <- & _)|[Hne Hj]]; [reflexivity|].
    destruct (isLive tj) eqn:Hlj; [|reflexivity].
    exfalso. apply Hne. apply (inv_unique _ _ _ Hinv i j t tj); auto.
Qed.

(** *** Requests carry what was asked for *)

Lemma PopAsked_weaken called called' w :
  (forall x, x ∈ called -> x ∈ called') -> PopAsked called w -> PopAsked called' w.
Proof.
  intros Hsub [He Ha Hl Hw]. constructor.
  - intros server tag u c H. destruct (He _ _ _ _ H); auto.
  - intros i t to Hi Hst. destruct (Ha _ _ _ Hi Hst). auto.
  - exact Hl.
  - intros i server req H. apply Hsub. eapply Hw. exact H.
Qed.

Lemma popOne_asked called upTo tag kcv time s h wr :
  (tag, upTo, kcv) ∈ called ->
  PopAsked called (mkPopWorld s wr) ->
  PopAsked called (mkPopWorld (popOne upTo tag kcv time s h) wr).
Proof.
  intros Hin [He Ha Hl Hw]. simpl in *.
  destruct (popOne_actors upTo tag kcv time s h) as [Hnew Hsame].
  assert (Hact : forall i t, actors (popOne upTo tag kcv time s h) !! i = Some t ->
             actors s !! i = Some t \/ t = mkPopTask (ident h) tag time 0 Delaying).
  { intros i t Hi.
    assert (Hdec : unpopped (outstandingPops s) (ident h, tag)
                   \/ ~ unpopped (outstandingPops s) (ident h, tag)).
    { unfold unpopped. destruct (outstandingPops s !! (ident h, tag)) as [[u c]|]; [|auto].
      destruct (decide (u = 0)); auto. }
    destruct Hdec as [Hun|Hun].
    - rewrite (Hnew Hun) in Hi. apply lookup_snoc_Some in Hi as [[_ Hi]|[_ <-]]; auto.
    - rewrite (Hsame Hun) in Hi. auto. }
  constructor; simpl.
  - intros server tag' u c. rewrite popOne_lookup.
    destruct (decide ((server, tag') = (ident h, tag))) as [Heq|Hne]; [|apply He].
    injection Heq as -> ->. unfold raised.
    destruct (outstandingPops s !! (ident h, tag)) as [[u0 c0]|] eqn:E.
    + destruct (u0 <? upTo); intros [= <- <-]; [right; exact Hin|eapply He; exact E].
    + destruct (0 <? upTo); intros [= <- <-]; [right; exact Hin|left; reflexivity].
  - intros i t to Hi Hst. destruct (Hact i t Hi) as [Hold| ->]; [eauto|discriminate].
  - intros i t Hi. destruct (Hact i t Hi) as [Hold| ->]; [eauto|simpl; lia].
  - exact Hw.
Qed.

Lemma fold_popOne_asked called upTo tag kcv time wr hs : forall s,
  (tag, upTo, kcv) ∈ called ->
  PopAsked called (mkPopWorld s wr) ->
  PopAsked called (mkPopWorld (fold_left (popOne upTo tag kcv time) hs s) wr).
Proof.
  induction hs as [|h hs IH]; intros s Hin H; simpl; [exact H|].
  apply IH; [exact Hin|]. apply popOne_asked; assumption.
Qed.

Lemma popFromLog_asked called s wr i ev :
  PopAsked called (mkPopWorld s wr) ->
  PopAsked called
    (mkPopWorld (fst (popFromLog s i ev))
       (match snd (popFromLog s i ev) with
        | Some (server, req) => wr ++ [(i, server, req)]
        | None => wr
        end)).
Proof.
  intros H. pose proof H as [He Ha Hl Hw]. simpl in *. unfold popFromLog.
  destruct (actors s !! i) as [t|] eqn:Hi; [|exact H].
  assert (Hfinish : forall pops,
             (forall server tag u c, pops !! (server, tag) = Some (u, c) ->
                                     (u, c) = (0, 0) \/ (tag, u, c) ∈ called) ->
             PopAsked called
               (mkPopWorld (set_task i (task_with t (pop_last t) Finished)
                              (set_outstandingPops pops s)) wr)).
  { intros pops Hp. constructor; simpl.
    - exact Hp.
    - intros j tj to Hj Hst.
      apply list_lookup_insert_Some in Hj as [(_ & <- & _)|[_ Hj]]; [discriminate|eauto].
    - intros j tj Hj.
      apply list_lookup_insert_Some in Hj as [(_ & <- & _)|[_ Hj]]; [simpl; eauto|eauto].
    - exact Hw. }
  assert (Hsame : PopAsked called
                    (mkPopWorld (set_task i (task_with t (pop_last t) Finished) s) wr)).
  { rewrite <- (set_same s) at 1. apply (Hfinish (outstandingPops s)). exact He. }
  destruct (pop_state t) as [|to|] eqn:Hst.
  - destruct ev as [isPresent|reply|]; simpl; [|exact H|exact Hsame].
    unfold subscript.
    destruct (outstandingPops s !! (pop_log t, pop_tag t)) as [[u c]|] eqn:E; simpl.
    + destruct (u <=? pop_last t) eqn:Eu; simpl.
      * apply Hfinish. intros server tag u' c' Hd.
        apply lookup_delete_Some in Hd as [_ Hd]. eauto.
      * apply Z.leb_gt in Eu. destruct isPresent; simpl; [|apply Hfinish; exact He].
        pose proof (Hl i t Hi) as Hlast.
        assert (Hc : (pop_tag t, u, c) ∈ called).
        { destruct (He _ _ _ _ E) as [[= -> ->]|Hc]; [lia|exact Hc]. }
        constructor; simpl.
        -- exact He.
        -- intros j tj to Hj Hstj.
           apply list_lookup_insert_Some in Hj as [(_ & <- & _)|[_ Hj]]; [|eauto].
           simpl in Hstj. injection Hstj as <-. simpl. split; [exact Hc|lia].
        -- intros j tj Hj.
           apply list_lookup_insert_Some in Hj as [(_ & <- & _)|[_ Hj]]; [simpl|]; eauto.
        -- intros j server req Hin. apply elem_of_app in Hin as [Hin|Hin]; [eauto|].
           apply list_elem_of_singleton in Hin. injection Hin as -> -> ->. exact Hc.
    + pose proof (Hl i t Hi) as Hlast.
      replace (0 <=? pop_last t) with true by (symmetry; apply Z.leb_le; exact Hlast).
      simpl. apply Hfinish. intros server tag u' c' Hd.
      apply lookup_delete_Some in Hd as [Hne Hd].
      rewrite lookup_insert_ne in Hd by exact Hne. eauto.
  - destruct (Ha i t to Hi Hst) as [Hc Hpos].
    destruct ev as [isPresent|[| |e]|]; simpl; try exact H; try exact Hsame.
    constructor; simpl.
    + exact He.
    + intros j tj to' Hj Hstj.
      apply list_lookup_insert_Some in Hj as [(_ & <- & _)|[_ Hj]]; [discriminate|eauto].
    + intros j tj Hj.
      apply list_lookup_insert_Some in Hj as [(_ & <- & _)|[_ Hj]]; [simpl; exact Hpos|eauto].
    + exact Hw.
  - exact H.
Qed.

Lemma popAct_asked called w a :
  PopAsked called w -> PopAsked (called ++ askedBy a) (popAct w a).
Proof.
  intros H.
  assert (Hweak : PopAsked (called ++ askedBy a) w).
  { apply (PopAsked_weaken called); [|exact H]. intros x Hx. apply elem_of_app. auto. }
  destruct w as [s wr].
  destruct a as [upTo tag kcv loc|upTo tag kcv loc|i ev|sets olds]; simpl in *.
  - destruct (pop s upTo tag kcv loc) as [s'| |] eqn:E; simpl; try exact Hweak.
    destruct (Z.leb_spec upTo 0) as [Hnp|Hpos].
    + unfold pop in E.
      replace (upTo <=? 0) with true in E by (symmetry; apply Z.leb_le; exact Hnp).
      injection E as <-. exact Hweak.
    + destruct (pop_as_fold _ _ _ _ _ _ Hpos E) as [-> _].
      apply fold_popOne_asked; [|exact Hweak]. apply elem_of_app. right. left.
  - rewrite popLogRouter_as_fold. destruct (upTo =? 0); [exact Hweak|].
    apply fold_popOne_asked; [|exact Hweak]. apply elem_of_app. right. left.
  - rewrite app_nil_r in *.
    pose proof (popFromLog_asked called s wr i ev H) as H'.
    destruct (popFromLog s i ev) as [s' [[server req]|]]; exact H'.
  - rewrite app_nil_r in *. destruct H as [He Ha Hl Hw]. constructor; assumption.
Qed.

Lemma popRun_asked acts : forall called w,
  PopAsked called w -> PopAsked (called ++ asked acts) (popRun acts w).
Proof.
  unfold popRun, asked. induction acts as [|a acts IH]; intros called w H; simpl.
  - rewrite app_nil_r. exact H.
  - rewrite app_assoc. apply IH. apply popAct_asked. exact H.
Qed.

(** X21: Every pop request this log system sends carries a tag, a version and a
    [knownCommittedVersion] that one call of [pop] or [popLogRouter] was
    given together; a request is never made up from two calls. *)
Theorem pop_requests_were_asked acts w0 i server req :
  outstandingPops (world_system w0) = ∅ ->
  actors (world_system w0) = [] ->
  wire w0 = [] ->
  (i, server, req) ∈ wire (popRun acts w0) ->
  (popreq_tag req, popreq_to req, popreq_knownCommittedVersion req) ∈ asked acts.
Proof.
  intros Hp Ha Hw Hin.
  assert (H0 : PopAsked [] w0).
  { constructor.
    - intros s t u c H. rewrite Hp, lookup_empty in H. discriminate.
    - intros j t to H. rewrite Ha, lookup_nil in H. discriminate.
    - intros j t H. rewrite Ha, lookup_nil in H. discriminate.
    - intros j s r H. rewrite Hw in H. inversion H. }
  pose proof (popRun_asked acts [] w0 H0) as H. simpl in H.
  exact (asked_wire _ _ H _ _ _ Hin).
Qed.

(** ** Push: the requests sent *)

Lemma pushToServers_sent servers : forall location request reply d sent rs,
  pushToServers servers location request reply d = Ok (sent, rs) ->
  length sent = length servers
  /\ forall loc log, servers !! loc = Some log ->
       exists interf, iface log = Some interf
                      /\ sent !! loc = Some (interf, request (location + loc)%nat).
Proof.
  induction servers as [|log0 rest IH]; intros location request reply d sent rs; simpl.
  - intros [= <- <-]. split; [reflexivity|]. intros loc log H. rewrite lookup_nil in H.
    discriminate.
  - destruct (iface log0) as [interf0|] eqn:Ei; [|discriminate].
    destruct (pushToServers rest (S location) request reply d) as [[sent' rs']| |] eqn:E;
      try discriminate.
    intros [= <- <-]. destruct (IH _ _ _ _ _ _ E) as [Hlen Hsent]. split; [simpl; lia|].
    intros [|loc] log Hl; simpl in Hl.
    + injection Hl as <-. exists interf0. rewrite Nat.add_0_r. auto.
    + destruct (Hsent loc log Hl) as (interf & Hi & Hs). exists interf. split; [exact Hi|].
      simpl. rewrite Hs.
      replace (location + S loc)%nat with (S location + loc)%nat by lia. reflexivity.
Qed.

Lemma locationOffset_cons s rest i :
  locationOffset (s :: rest) (S i)
  = ((if isLocal s && nonEmpty (logServers s) then length (logServers s) else 0)
     + locationOffset rest i)%nat.
Proof.
  unfold locationOffset. simpl.
  destruct (isLocal s && nonEmpty (logServers s)); [|reflexivity].
  pose proof (locationOffset_shift (take i rest) 0 (length (logServers s))) as Hs.
  simpl in Hs. rewrite Hs. lia.
Qed.

Lemma pushToSets_sent sets : forall location request reply d sent qs,
  pushToSets sets location request reply d = Ok (sent, qs) ->
  length sent = locationOffset sets (length sets)
  /\ forall i it loc log,
       sets !! i = Some it -> isLocal it = true -> logServers it !! loc = Some log ->
       exists interf,
         iface log = Some interf
         /\ sent !! (locationOffset sets i + loc)%nat
            = Some (interf, request (location + locationOffset sets i + loc)%nat).
Proof.
  induction sets as [|s rest IH]; intros location request reply d sent qs Hpush.
  - simpl in Hpush. injection Hpush as <- <-. split; [reflexivity|].
    intros i it loc log H. rewrite lookup_nil in H. discriminate.
  - simpl in Hpush. simpl length. rewrite locationOffset_cons.
    destruct (isLocal s && nonEmpty (logServers s)) eqn:Es.
    + destruct (pushToServers (logServers s) location request reply d)
        as [[sent1 rs]| |] eqn:E1; try discriminate.
      destruct (pushToSets rest (location + length (logServers s)) request reply d)
        as [[sent2 qs2]| |] eqn:E2; try discriminate.
      injection Hpush as <- <-.
      destruct (pushToServers_sent _ _ _ _ _ _ _ E1) as [Hlen1 Hsent1].
      destruct (IH _ _ _ _ _ _ E2) as [Hlen2 Hsent2].
      split; [rewrite length_app; lia|].
      intros [|i] it loc log Hi Hloc Hl.
      * injection Hi as <-. destruct (Hsent1 loc log Hl) as (interf & Hif & Hs).
        exists interf. split; [exact Hif|].
        unfold locationOffset; simpl. rewrite Nat.add_0_r.
        rewrite lookup_app_l by (rewrite Hlen1; eapply lookup_lt_Some; exact Hl).
        exact Hs.
      * simpl in Hi. destruct (Hsent2 i it loc log Hi Hloc Hl) as (interf & Hif & Hs).
        exists interf. split; [exact Hif|]. rewrite locationOffset_cons, Es.
        rewrite lookup_app_r by lia.
        replace (length (logServers s) + locationOffset rest i + loc - length sent1)%nat
          with (locationOffset rest i + loc)%nat by lia.
        rewrite Hs.
        replace (location + length (logServers s) + locationOffset rest i + loc)%nat
          with (location + (length (logServers s) + locationOffset rest i) + loc)%nat by lia.
        reflexivity.
    + destruct (IH _ _ _ _ _ _ Hpush) as [Hlen Hsent]. split; [exact Hlen|].
      intros [|i] it loc log Hi Hloc Hl.
      * injection Hi as <-. rewrite Hloc in Es. simpl in Es.
        destruct (logServers s); [rewrite lookup_nil in Hl|]; discriminate.
      * simpl in Hi. rewrite locationOffset_cons, Es. simpl.
        apply (Hsent i it loc log Hi Hloc Hl).
Qed.

(** X22: When [push] returns, it has sent one commit request to every server
    of every local set and none to any other: the request to server [loc]
    of set [i] is the one at push location [locationOffset + loc], the
    offset [getPushLocations] uses for that set, and carries the messages
    of that location with the versions and the debug id of the call. *)
Theorem push_requests_by_location self prevVersion version knownCommitted data debugID
    reply sent result :
  push self prevVersion version knownCommitted data debugID reply = Ok (sent, result) ->
  length sent = locationOffset (tLogs self) (length (tLogs self))
  /\ forall i it loc log,
       tLogs self !! i = Some it -> isLocal it = true -> logServers it !! loc = Some log ->
       exists interf,
         iface log = Some interf
         /\ sent !! (locationOffset (tLogs self) i + loc)%nat
            = Some (interf,
                    mkTLogCommitRequest prevVersion version knownCommitted
                      (data (locationOffset (tLogs self) i + loc)%nat) debugID).
Proof.
  unfold push. intros Hpush.
  destruct (pushToSets (tLogs self) 0 _ reply (sys_dbgid self)) as [[sent' qs]| |] eqn:E;
    try discriminate.
  injection Hpush as <- _.
  destruct (pushToSets_sent _ _ _ _ _ _ _ E) as [Hlen Hsent]. split; [exact Hlen|].
  intros i it loc log Hi Hloc Hl. destruct (Hsent i it loc log Hi Hloc Hl) as (interf & H1 & H2).
  exists interf. split; [exact H1|]. exact H2.
Qed.

(** ** Epoch recovery: the lock results, the turns of the loop *)

Lemma lockOldSets_shape epochEnd sets : forall locked results found locked' results',
  lockOldSets epochEnd sets locked results = (found, locked', results') ->
  exists extra,
    results' = results ++ extra
    /\ (forall x, x ∈ locked' <->
                  x ∈ locked \/ x ∈ List.map (fun l => set_locality (lock_logSet l)) extra)
    /\ NoDup (List.map (fun l => set_locality (lock_logSet l)) extra)
    /\ Forall (fun l => lock_logSet l ∈ sets
                        /\ l = lockAll epochEnd false (lock_logSet l)
                        /\ isSpecialOrUpgraded (lock_logSet l) = false
                        /\ set_locality (lock_logSet l) ∉ locked) extra.
Proof.
  induction sets as [|log rest IH]; intros locked results found locked' results'; simpl.
  - intros [= <- <- <-]. exists []. rewrite app_nil_r. split; [reflexivity|].
    split; [intros x; simpl; split; [auto|intros [H|H]; [exact H|inversion H]]|].
    split; constructor.
  - destruct (isSpecialOrUpgraded log) eqn:Esp.
    + intros [= <- <- <-]. exists []. rewrite app_nil_r. split; [reflexivity|].
      split; [intros x; simpl; split; [auto|intros [H|H]; [exact H|inversion H]]|].
      split; constructor.
    + destruct (bool_decide (set_locality log ∈ locked)) eqn:Ein.
      * intros H. destruct (IH _ _ _ _ _ H) as (extra & Hres & Hmem & Hnd & Hall).
        exists extra. do 3 (split; [assumption|]).
        eapply Forall_impl; [exact Hall|]. intros l (H1 & H2 & H3 & H4).
        split; [right; exact H1|auto].
      * apply bool_decide_eq_false in Ein.
        intros H. destruct (IH _ _ _ _ _ H) as (extra & Hres & Hmem & Hnd & Hall).
        exists (lockAll epochEnd false log :: extra).
        split; [rewrite Hres, <- app_assoc; reflexivity|].
        split; [|split].
        -- intros x. rewrite Hmem. simpl. rewrite elem_of_union, elem_of_singleton,
             elem_of_cons. clear. intuition idtac.
        -- simpl. constructor; [|exact Hnd]. intros Hin.
           apply list_elem_of_fmap in Hin as (l & Hl & Hin).
           rewrite Forall_forall in Hall. destruct (Hall l Hin) as (_ & _ & _ & Hnot).
           apply Hnot. rewrite <- Hl. apply elem_of_union_l, elem_of_singleton. reflexivity.
        -- constructor.
           ++ simpl. split; [left|]. split; [reflexivity|]. split; [exact Esp|exact Ein].
           ++ eapply Forall_impl; [exact Hall|]. intros l (H1 & H2 & H3 & H4).
              split; [right; exact H1|]. split; [exact H2|]. split; [exact H3|].
              intros Hl. apply H4. apply elem_of_union_r. exact Hl.
Qed.

Lemma lockOldGenerations_shape olds : forall found locked results,
  exists extra,
    lockOldGenerations olds found locked results = results ++ extra
    /\ NoDup (List.map (fun l => set_locality (lock_logSet l)) extra)
    /\ Forall (fun l => exists old,
                 old ∈ olds /\ lock_logSet l ∈ old_tLogs old
                 /\ l = lockAll (old_epochEnd old) false (lock_logSet l)
                 /\ isSpecialOrUpgraded (lock_logSet l) = false
                 /\ set_locality (lock_logSet l) ∉ locked) extra
    /\ (found = true -> extra = []).
Proof.
  induction olds as [|old rest IH]; intros found locked results; simpl.
  - exists []. rewrite app_nil_r. split; [reflexivity|]. split; [constructor|].
    split; [constructor|reflexivity].
  - destruct found.
    + exists []. rewrite app_nil_r. split; [reflexivity|]. split; [constructor|].
      split; [constructor|reflexivity].
    + destruct (lockOldSets (old_epochEnd old) (old_tLogs old) locked results)
        as [[found1 locked1] results1] eqn:E.
      destruct (lockOldSets_shape _ _ _ _ _ _ _ E) as (extra1 & -> & Hmem & Hnd1 & Hall1).
      destruct (IH found1 locked1 (results ++ extra1)) as (extra2 & -> & Hnd2 & Hall2 & _).
      exists (extra1 ++ extra2). split; [rewrite app_assoc; reflexivity|].
      split; [|split; [|discriminate]].
      * rewrite List.map_app. apply NoDup_app. split; [exact Hnd1|]. split; [|exact Hnd2].
        intros x Hx1 Hx2. apply list_elem_of_fmap in Hx2 as (l & -> & Hl).
        rewrite Forall_forall in Hall2. destruct (Hall2 l Hl) as (o & _ & _ & _ & _ & Hnot).
        apply Hnot, Hmem. right. exact Hx1.
      * apply Forall_app. split.
        -- eapply Forall_impl; [exact Hall1|]. intros l (H1 & H2 & H3 & H4).
           exists old. split; [left|]. auto.
        -- eapply Forall_impl; [exact Hall2|]. intros l (o & H0 & H1 & H2 & H3 & H4).
           exists o. split; [right; exact H0|]. do 3 (split; [assumption|]).
           intros Hl. apply H4, Hmem. left. exact Hl.
Qed.

(** X23: The lock results [epochEnd] starts with: first one for each current
    set, in order, each marked current with [epochEnd] at its maximum; then
    at most one for each further locality, each for a set of an old
    generation with that generation's [epochEnd], none of a locality of a
    current set, none special or upgraded; and none beyond the current ones
    if a current set is special or upgraded.  Every lock result has one
    reply slot for each server of its set. *)
Theorem initialLockResults_shape current olds :
  exists extra,
    initialLockResults current olds = List.map (lockAll INT64_MAX true) current ++ extra
    /\ NoDup (List.map (fun l => set_locality (lock_logSet l)) extra)
    /\ Forall (fun l => exists old,
                 old ∈ olds /\ lock_logSet l ∈ old_tLogs old
                 /\ l = lockAll (old_epochEnd old) false (lock_logSet l)
                 /\ isSpecialOrUpgraded (lock_logSet l) = false
                 /\ set_locality (lock_logSet l) ∉ List.map set_locality current) extra
    /\ (existsb isSpecialOrUpgraded current = true -> extra = [])
    /\ Forall (fun l => length (replies l) = length (logServers (lock_logSet l)))
         (initialLockResults current olds).
Proof.
  unfold initialLockResults.
  destruct (lockOldGenerations_shape olds (existsb isSpecialOrUpgraded current)
              (list_to_set (List.map set_locality current))
              (List.map (lockAll INT64_MAX true) current))
    as (extra & Heq & Hnd & Hall & Hsp).
  exists extra. split; [exact Heq|]. split; [exact Hnd|]. split; [|split; [exact Hsp|]].
  - eapply Forall_impl; [exact Hall|]. intros l (o & H0 & H1 & H2 & H3 & H4).
    exists o. do 4 (split; [assumption|]). intros Hl. apply H4.
    apply elem_of_list_to_set. exact Hl.
  - rewrite Heq. apply Forall_app. split.
    + apply Forall_forall. intros l Hl. apply list_elem_of_fmap in Hl as (s & -> & _).
      simpl. apply length_map.
    + eapply Forall_impl; [exact Hall|]. intros l (o & _ & _ & -> & _).
      simpl. apply length_map.
Qed.

Lemma durableVersions_acc dbgid sets : forall log st kc0 min0 max0 kc minEnd maxEnd,
  durableVersions dbgid sets log st (kc0, min0, max0) = Ok (kc, minEnd, maxEnd) ->
  kc0 <= kc /\ max0 <= maxEnd /\ minEnd <= min0
  /\ (minEnd <= maxEnd \/ (minEnd = min0 /\ maxEnd = max0)).
Proof.
  induction sets as [|logSet rest IH]; intros log st kc0 min0 max0 kc minEnd maxEnd; simpl.
  - intros [= <- <- <-]. unfold Version in *. lia.
  - destruct (negb (isLocal logSet)); [apply IH|].
    destruct (loop_lockResults st !! log) as [lockInfo|]; [|discriminate].
    destruct (loop_logFailed st !! log) as [failed|]; [|discriminate].
    destruct (getDurableVersion dbgid lockInfo failed (loop_lastEnd st))
      as [[[k e]|]| |]; try discriminate.
    + intros H. apply IH in H as (H1 & H2 & H3 & H4). simpl in *.
      unfold Version in *. lia.
    + apply IH.
Qed.

(** X24: One turn of the main loop of [epochEnd] never ends the loop.  When it
    publishes a log system, that system is stopped, holds the sets, the
    history and the lock results of this recovery, and its
    [epochEndVersion] is strictly below the one published before; in every
    case the known committed version carried to the next turn has not
    decreased. *)
Theorem recoveryTurn_cases dbgid locality prevState sets olds st :
  let next (lastEnd : option Version) (kc : Version) (obs : Observation)
      : itree epochE (RecoveryLoop + unit) :=
    Ret (inl (mkRecoveryLoop lastEnd kc (observed obs (loop_lockResults st))
                (obs_logFailed obs))) in
  (exists kc minEnd logSystem,
     eq_itree eq (recoveryTurn dbgid locality prevState sets olds st)
       (Vis (SetOutLogSystem logSystem)
          (fun _ => Vis WaitForAnyChange (next (Some minEnd) kc)))
     /\ epochEndVersion logSystem = Some minEnd
     /\ knownCommittedVersion logSystem = kc
     /\ stopped logSystem = true
     /\ tLogs logSystem = sets /\ oldLogData logSystem = olds
     /\ lockResults logSystem = loop_lockResults st
     /\ loop_knownCommittedVersion st <= kc
     /\ forall lastEnd, loop_lastEnd st = Some lastEnd -> minEnd < lastEnd)
  \/ (exists kc,
        eq_itree eq (recoveryTurn dbgid locality prevState sets olds st)
          (Vis WaitForAnyChange (next (loop_lastEnd st) kc))
        /\ loop_knownCommittedVersion st <= kc)
  \/ (exists e, recoveryTurn dbgid locality prevState sets olds st = raise e)
  \/ recoveryTurn dbgid locality prevState sets olds st
     = ITree.bind (ITree.trigger OutOfRange) (fun v : Empty_set => match v with end).
Proof.
  intros next. unfold recoveryTurn.
  destruct (durableVersions dbgid sets 0 st (loop_knownCommittedVersion st, INT64_MAX, 0))
    as [[[kc minEnd] maxEnd]|e|] eqn:E; [|right; right; left; eauto|right; right; right; reflexivity].
  destruct (durableVersions_acc _ _ _ _ _ _ _ _ _ _ E) as (Hkc & Hmax & Hmin & Hboth).
  destruct ((0 <? maxEnd)
            && match loop_lastEnd st with
               | Some lastEnd => maxEnd <? lastEnd
               | None => true
               end) eqn:Erestart.
  - left. exists kc, minEnd.
    exists (recoveredLogSystem dbgid locality prevState sets olds (loop_lockResults st)
              minEnd kc).
    split.
    { rewrite bind_trigger. apply eqit_Vis. intros _.
      rewrite bind_trigger. apply eqit_Vis. intros obs. reflexivity. }
    do 6 (split; [reflexivity|]). split; [exact Hkc|].
    intros lastEnd Hlast. rewrite Hlast in Erestart.
    apply andb_true_iff in Erestart as [Hpos Hlt].
    apply Z.ltb_lt in Hpos, Hlt. unfold Version in *. lia.
  - right. left. exists kc. split; [|exact Hkc].
    rewrite bind_ret_l, bind_trigger. apply eqit_Vis. intros obs. reflexivity.
Qed.

Lemma recoveryTurn_continues dbgid locality prevState sets olds st r :
  Leaf r (recoveryTurn dbgid locality prevState sets olds st) -> exists st', r = inl st'.
Proof.
  unfold recoveryTurn.
  destruct (durableVersions dbgid sets 0 st (loop_knownCommittedVersion st, INT64_MAX, 0))
    as [[[kc minEnd] maxEnd]|e|].
  - destruct ((0 <? maxEnd) && _).
    + intros H. rewrite bind_trigger in H. apply Leaf_Vis_inv in H as [_ H].
      rewrite bind_trigger in H. apply Leaf_Vis_inv in H as [obs H].
      apply Leaf_Ret_inv in H. eauto.
    + intros H. rewrite bind_ret_l, bind_trigger in H. apply Leaf_Vis_inv in H as [obs H].
      apply Leaf_Ret_inv in H. eauto.
  - unfold raise. intros H. rewrite bind_trigger in H. apply Leaf_Vis_inv in H as [[] _].
  - intros H. rewrite bind_trigger in H. apply Leaf_Vis_inv in H as [[] _].
Qed.

(** X25: [epochEnd] never returns, whatever the previous core state and
    whatever the log servers answer: for a new database it waits on
    [Never()], otherwise every turn of its loop leads to the next. *)
Theorem epochEnd_never_returns dbgid prevState locality (r : unit) :
  ~ Leaf r (epochEnd dbgid prevState locality).
Proof.
  unfold epochEnd. destruct (prev_tLogs prevState) as [|coreSet coreSets] eqn:Eprev.
  - intros H. rewrite bind_trigger in H. apply Leaf_Vis_inv in H as [_ H].
    rewrite bind_trigger in H. apply Leaf_Vis_inv in H as [[] _].
  - intros H.
    apply (Leaf_iter_inv _ _ (fun _ => True) (fun _ => False)) in H; [exact H| |exact I].
    intros st r' _ Hr'. apply recoveryTurn_continues in Hr' as [st' ->]. exact I.
Qed.


(** ** [trackRejoins] *)

Lemma map_insert_same {A B} (f : A -> B) (l : list A) : forall i x y,
  l !! i = Some x -> f y = f x -> List.map f (<[i := y]> l) = List.map f l.
Proof.
  induction l as [|a l IH]; intros [|i] x y Hi Hf; simpl in *; try discriminate.
  - injection Hi as ->. rewrite Hf. reflexivity.
  - f_equal. eapply IH; eauto.
Qed.

Lemma rejoin_ids st myInterface :
  List.map ident (rejoin_logServers (rejoin st myInterface))
  = List.map ident (rejoin_logServers st).
Proof.
  unfold rejoin.
  destruct (list_find _ (rejoin_logServers st)) as [[pos log]|] eqn:E; [|reflexivity].
  apply list_find_Some in E as (Hpos & Hid & _). simpl.
  destruct (match iface log with
            | Some interf => negb (commitEndpoint myInterface =? commitEndpoint interf)
            | None => true
            end); [|reflexivity].
  apply (map_insert_same ident _ pos log); [exact Hpos|]. simpl. symmetry. exact Hid.
Qed.

Lemma superseded_snoc logServers requests myInterface n :
  superseded logServers requests n -> superseded logServers (requests ++ [myInterface]) n.
Proof.
  intros (my & later & laterInterface & H1 & H2 & H3 & H4 & H5).
  exists my, later, laterInterface.
  split; [apply lookup_app_l_Some; exact H1|]. split; [exact H2|]. split; [exact H3|].
  split; [apply lookup_app_l_Some; exact H4|exact H5].
Qed.

Lemma rejoin_inv logServers requests st myInterface :
  rejoinInv logServers requests st ->
  rejoinInv logServers (requests ++ [myInterface]) (rejoin st myInterface).
Proof.
  intros (Hids & Hrecv & Hlast & Hrep & Hperm).
  assert (Hnew : (requests ++ [myInterface]) !! length requests = Some myInterface).
  { rewrite lookup_app_r by lia. rewrite Nat.sub_diag. reflexivity. }
  assert (Hlen : length (requests ++ [myInterface]) = S (length requests)).
  { rewrite length_app. simpl. lia. }
  split; [rewrite rejoin_ids; exact Hids|].
  unfold rejoin.
  destruct (list_find _ (rejoin_logServers st)) as [[pos log]|] eqn:E.
  - apply list_find_Some in E as (Hpos & Hid & _).
    assert (Hknown : interfaceId myInterface ∈ List.map ident logServers).
    { rewrite <- Hids, <- Hid. apply list_elem_of_fmap. exists log.
      split; [reflexivity|]. eapply list_elem_of_lookup_2. exact Hpos. }
    simpl. split; [rewrite Hrecv, Hlen; reflexivity|]. split; [|split].
    + intros id n Hn. apply lookup_insert_Some in Hn as [[<- <-]|[Hne Hn]].
      * exists myInterface. rewrite Hrecv. split; [exact Hnew|]. split; [reflexivity|].
        split; [exact Hknown|]. intros later li Hlt Hl.
        apply lookup_lt_Some in Hl. rewrite Hlen in Hl. lia.
      * destruct (Hlast id n Hn) as (my & H1 & H2 & H3 & H4). exists my.
        split; [apply lookup_app_l_Some; exact H1|]. split; [exact H2|]. split; [exact H3|].
        intros later li Hlt Hl. apply lookup_snoc_Some in Hl as [[_ Hl]|[_ <-]]; [eauto|].
        congruence.
    + assert (Hold : forall (n : nat) (b : bool), (n, b) ∈ replied st ->
                 if b
                 then exists my, (requests ++ [myInterface]) !! n = Some my
                                 /\ interfaceId my ∉ List.map ident logServers
                 else superseded logServers (requests ++ [myInterface]) n).
      { intros n b Hin. specialize (Hrep n b Hin). destruct b.
        - destruct Hrep as (my & H1 & H2). exists my.
          split; [apply lookup_app_l_Some; exact H1|exact H2].
        - apply superseded_snoc. exact Hrep. }
      destruct (lastReply st !! interfaceId myInterface) as [previous|] eqn:Eprev;
        [|exact Hold].
      intros n b Hin. apply elem_of_app in Hin as [Hin|Hin]; [apply Hold; exact Hin|].
      apply list_elem_of_singleton in Hin. injection Hin as -> ->.
      destruct (Hlast _ _ Eprev) as (my & H1 & H2 & H3 & _).
      exists my, (length requests), myInterface.
      split; [apply lookup_app_l_Some; exact H1|]. split; [rewrite H2; exact H3|].
      split; [eapply lookup_lt_Some; exact H1|]. split; [exact Hnew|]. symmetry. exact H2.
    + rewrite Hlen, seq_S, <- Hperm. simpl. rewrite Hrecv.
      destruct (lastReply st !! interfaceId myInterface) as [previous|] eqn:Eprev.
      * rewrite <- (insert_delete_eq (lastReply st)).
        rewrite map_to_list_insert by apply lookup_delete_eq.
        rewrite <- (map_to_list_delete (lastReply st) _ _ Eprev).
        rewrite List.map_app. simpl.
        rewrite <- !app_assoc. apply Permutation_app_head. simpl.
        apply perm_skip. apply Permutation_cons_append.
      * rewrite map_to_list_insert by exact Eprev. simpl.
        rewrite <- app_assoc. apply Permutation_app_head.
        rewrite (Permutation_app_comm _ [length requests]). reflexivity.
  - apply list_find_None in E.
    assert (Hunknown : interfaceId myInterface ∉ List.map ident logServers).
    { rewrite <- Hids. intros Hin. apply list_elem_of_fmap in Hin as (log & Hl & Hin).
      rewrite Forall_forall in E. apply (E log Hin). symmetry. exact Hl. }
    simpl. split; [rewrite Hrecv, Hlen; reflexivity|]. split; [|split].
    + intros id n Hn. destruct (Hlast id n Hn) as (my & H1 & H2 & H3 & H4). exists my.
      split; [apply lookup_app_l_Some; exact H1|]. split; [exact H2|]. split; [exact H3|].
      intros later li Hlt Hl. apply lookup_snoc_Some in Hl as [[_ Hl]|[_ <-]]; [eauto|].
      intros Heq. apply Hunknown. rewrite Heq. exact H3.
    + intros n b Hin. apply elem_of_app in Hin as [Hin|Hin].
      * specialize (Hrep n b Hin). destruct b.
        -- destruct Hrep as (my & H1 & H2). exists my.
           split; [apply lookup_app_l_Some; exact H1|exact H2].
        -- apply superseded_snoc. exact Hrep.
      * apply list_elem_of_singleton in Hin. injection Hin as -> ->.
        exists myInterface. rewrite Hrecv. split; [exact Hnew|exact Hunknown].
    + rewrite Hlen, seq_S, <- Hperm. simpl. rewrite Hrecv, List.map_app. simpl.
      rewrite <- !app_assoc. apply Permutation_app_head.
      apply Permutation_app_comm.
Qed.

Lemma rejoinRun_inv logServers requests :
  rejoinInv logServers requests (rejoinRun requests (trackRejoins logServers)).
Proof.
  induction requests as [|myInterface requests IH] using rev_ind.
  - simpl. split; [reflexivity|]. split; [reflexivity|]. split; [|split].
    + intros id n H. simpl in H. rewrite lookup_empty in H. discriminate.
    + intros n b H. inversion H.
    + simpl. rewrite map_to_list_empty. reflexivity.
  - unfold rejoinRun. rewrite fold_left_app. simpl. apply rejoin_inv. exact IH.
Qed.

(** X27: [trackRejoins] never changes which server a handle stands for; and
    after a rejoin request of a server it knows, the handle of that server
    is present with the commit endpoint of the request, all other handles
    being as before. *)
Theorem trackRejoins_handles logServers requests :
  List.map ident (rejoin_logServers (rejoinRun requests (trackRejoins logServers)))
  = List.map ident logServers
  /\ forall st myInterface pos log,
       list_find (fun log => ident log = interfaceId myInterface) (rejoin_logServers st)
       = Some (pos, log) ->
       exists interf,
         rejoin_logServers (rejoin st myInterface)
         = <[pos := mkOptionalInterface (ident log) (Some interf)]> (rejoin_logServers st)
         /\ commitEndpoint interf = commitEndpoint myInterface.
Proof.
  split; [apply rejoinRun_inv|].
  intros st myInterface pos log E. unfold rejoin. rewrite E. simpl.
  apply list_find_Some in E as (Hpos & Hid & _).
  destruct (iface log) as [interf|] eqn:Ei.
  - destruct (commitEndpoint myInterface =? commitEndpoint interf) eqn:Ee; simpl.
    + apply Z.eqb_eq in Ee. exists interf. split; [|symmetry; exact Ee].
      symmetry. apply list_insert_id. rewrite Hpos. destruct log; simpl in *.
      rewrite Ei. reflexivity.
    + exists myInterface. rewrite Hid. split; reflexivity.
  - exists myInterface. rewrite Hid. split; reflexivity.
Qed.

(** X28: When [trackRejoins] ends (by an exception only, such as its
    cancellation) after any sequence of rejoin requests, every request has
    been answered exactly once; the answer is [false] exactly for a request
    of a known server that the same server superseded by a later request,
    and [true] for every other. *)
Theorem trackRejoins_answers logServers requests :
  let answers := rejoinCancelled (rejoinRun requests (trackRejoins logServers)) in
  Permutation (List.map fst answers) (seq 0 (length requests))
  /\ forall n b, (n, b) ∈ answers -> (b = false <-> superseded logServers requests n).
Proof.
  intros answers.
  destruct (rejoinRun_inv logServers requests) as (_ & _ & Hlast & Hrep & Hperm).
  unfold answers, rejoinCancelled.
  set (st := rejoinRun requests (trackRejoins logServers)) in *.
  split.
  - rewrite List.map_app, List.map_map. simpl. rewrite <- Hperm.
    apply Permutation_app_head.
    change (List.map (fun x : UID * nat => snd x) ?l) with (List.map snd l).
    apply Permutation_map. apply merge_sort_Permutation.
  - assert (Htrue : forall n, (n, true) ∈ replied st
                              \/ (exists id, lastReply st !! id = Some n) ->
                     ~ superseded logServers requests n).
    { intros n [Hin|(id & Hid)] (my & later & li & H1 & H2 & H3 & H4 & H5).
      - destruct (Hrep n true Hin) as (my' & H1' & Hun).
        rewrite H1 in H1'. injection H1' as <-. contradiction.
      - destruct (Hlast id n Hid) as (my' & H1' & H2' & _ & Hnone).
        rewrite H1 in H1'. injection H1' as <-.
        apply (Hnone later li H3 H4). congruence. }
    intros n b Hin. apply elem_of_app in Hin as [Hin|Hin].
    + destruct b.
      * split; [discriminate|]. intros Hs. destruct (Htrue n (or_introl Hin) Hs).
      * split; [intros _; exact (Hrep n false Hin)|reflexivity].
    + apply list_elem_of_fmap in Hin as ([id k] & Heq & Hin). simpl in Heq.
      injection Heq as -> ->.
      rewrite merge_sort_Permutation in Hin. apply elem_of_map_to_list in Hin.
      split; [discriminate|]. intros Hs.
      destruct (Htrue k (or_intror (ex_intro _ id Hin)) Hs).
Qed.

End TagPartitionedLogSystem.

(** * Scenarios: the theorems at concrete inputs *)



(** C1 at S2: ends [50, 60, 70, 80] give [end = 60]. *)
Lemma getDurableVersion_S2 :
  exists kcv,
    getDurableVersion (fun _ _ => false) (fun _ _ _ _ _ => true) false 0 5
      0 lockInfoS2 [] None = Ok (Some (kcv, 60)).
Proof.
  destruct (getDurableVersion_returns_pair
              (fun _ _ => false) (fun _ _ _ _ _ => true) false 0 5
              0 lockInfoS2 [] None
              (mkResponses
                 [mkTLogLockResult 70 48; mkTLogLockResult 50 40;
                  mkTLogLockResult 80 49; mkTLogLockResult 60 45]
                 [11; 12; 13; 14] []))
    as (_ & _ & r & kcv & Hr & Hres & _).
  - unfold paramsOk; simpl; lia.
  - reflexivity.
  - reflexivity.
  - left; reflexivity.
  - intros r Hr. unfold int64, INT64_MIN, INT64_MAX.
    repeat (apply elem_of_cons in Hr as [->|Hr]; [simpl; lia|]).
    inversion Hr.
  - vm_compute in Hr. injection Hr as <-. exists kcv. exact Hres.
Defined.

(** C2, the scenario as stated: the two unresponsive servers validate the
    policy, yet they are fewer than [R], so the reply's pair is returned. *)
Lemma getDurableVersion_S3_returns :
  (fun (_ : list LocalityData) (_ : IRepPolicyRef) => true) [12; 13] 0 = true /\
  getDurableVersion (fun _ _ => true) (fun _ _ _ _ _ => true) false 0 5
    0 lockInfoS3 [false; false; false] None = Ok (Some (99, 100)) /\
  getDurableVersion (fun _ _ => true) (fun _ _ _ _ _ => true) false 0 5
    0 lockInfoS3 [false; false; false] None <> Ok None.
Proof. split; [reflexivity|]. split; [reflexivity|discriminate]. Qed.

Lemma getDurableVersion_S3_all_failed :
  getDurableVersion (fun _ _ => true) (fun _ _ _ _ _ => true) false 0 5
    0 lockInfoS3' [false; false; false] None = Ok None.
Proof.
  apply (getDurableVersion_too_many_failures
           (fun _ _ => true) (fun _ _ _ _ _ => true) false 0 5
           0 lockInfoS3' [false; false; false] None
           (mkResponses [] [] [11; 12; 13])).
  - unfold paramsOk; simpl; lia.
  - reflexivity.
  - right; left. split; [simpl; lia|reflexivity].
Defined.

(** C7 on a system with a written remote set and one old generation. *)
Lemma roundtrip_systemWithRemote :
  exists L',
    fromLogSystemConfig (fun _ l => l) 0 1 0 (getLogSystemConfig systemWithRemote) false
      = Ok L' /\
    tLogs L' = tLogs systemWithRemote /\
    logRouterTags L' = logRouterTags systemWithRemote /\
    recruitmentID L' = recruitmentID systemWithRemote /\
    stopped L' = stopped systemWithRemote /\
    oldLogData L' = oldLogData systemWithRemote /\
    logSystemType L' = logSystemType systemWithRemote /\
    expectedLogSets L' = expectedLogSets systemWithRemote.
Proof.
  apply (fromLogSystemConfig_getLogSystemConfig (fun _ l => l) 0 1 0 systemWithRemote false).
  - left; reflexivity.
  - intros s _. right. split; reflexivity.
  - left; reflexivity.
  - intros s _. reflexivity.
Defined.

(** C7 as stated fails.  A remote set not yet written to the core state is
    left out of the configuration, so the round trip loses it; old
    generations are left out once recovery has been written; a log system
    type other than 2 fails the assertion; and localities the policy filter
    trims come back trimmed. *)
Lemma roundtrip_not_identity :
  (exists L',
     fromLogSystemConfig (fun _ l => l) 0 1 0 (getLogSystemConfig systemRemoteUnwritten) false
       = Ok L' /\
     tLogs L' = [primarySet] /\
     tLogs L' <> tLogs systemRemoteUnwritten)
  /\ (exists L',
     fromLogSystemConfig (fun _ l => l) 0 1 0 (getLogSystemConfig systemRecoveryWritten) false
       = Ok L' /\
     oldLogData L' = [] /\
     oldLogData L' <> oldLogData systemRecoveryWritten)
  /\ fromLogSystemConfig (fun _ l => l) 0 1 0 (getLogSystemConfig systemOfTypeOne) false
      = Throw internal_error
  /\ (exists L',
     fromLogSystemConfig (fun _ l => take 1 l) 0 1 0 (getLogSystemConfig systemWithRemote) false
       = Ok L' /\
     List.map tLogLocalities (tLogs L') = [[11]; [14]] /\
     tLogs L' <> tLogs systemWithRemote).
Proof.
  split; [|split; [|split]].
  - eexists. split; [reflexivity|]. split; [reflexivity|]. discriminate.
  - eexists. split; [reflexivity|]. split; [reflexivity|]. discriminate.
  - reflexivity.
  - eexists. split; [reflexivity|]. split; [reflexivity|]. discriminate.
Qed.

(** C3 on a set with [N = 3], [A = 1]: the push has completed and two
    servers have acknowledged. *)
Lemma push_two_of_three :
  push systemWithAntiQuorum 9 10 8 (fun _ => []) None twoOfThreeReplied
    = Ok ([(1, mkTLogCommitRequest 9 10 8 [] None);
           (2, mkTLogCommitRequest 9 10 8 [] None);
           (3, mkTLogCommitRequest 9 10 8 [] None)], Ready tt)
  /\ 3 - 1 <= Z.of_nat (acknowledged twoOfThreeReplied 0 3).
Proof.
  split; [reflexivity|].
  apply (push_completes_only_with_quorum systemWithAntiQuorum 9 10 8 (fun _ => []) None
           twoOfThreeReplied _ (eq_refl _) 1%nat antiQuorumSet);
    [reflexivity|reflexivity|discriminate].
Defined.

(** C6 on a system without history, peeking a storage tag from version
    50 < 200, and on a system with two old generations, peeking [txsTag]
    from version 50: the current generation is read from 200, the newer old
    generation from 100 to 200, and the older one, which starts at 150, is
    passed over. *)
Lemma peek_below_history :
  (peek (-1) (-3) (-4) theTxsTag (fun _ _ => 0) systemNoHistory 7 50 storageTag true
     = Ok (ServerPeekCursor None storageTag 50 INT64_MAX false false)
   /\ peekAll (-1) (-4) theTxsTag (fun _ _ => 0) systemNoHistory 7 50 INT64_MAX storageTag
        true true = Throw worker_removed)
  /\ exists cursors,
       peek (-1) (-3) (-4) theTxsTag (fun _ _ => 0) systemWithHistory 7 50 theTxsTag true
         = Ok (MultiCursor cursors [200])
       /\ Forall2 (cursorOver (fun _ _ => 0) theTxsTag true) cursors
            [(mkLocalSetScan [primarySet] 0 0 200, (200, INT64_MAX));
             (mkLocalSetScan [olderSet 100] 0 0 100, (100, 200))].
Proof.
  split.
  - apply (peek_below_all_generations (-1) (-3) (-4) theTxsTag (fun _ _ => 0)
             systemNoHistory 7 50 storageTag true).
    + discriminate.
    + exists primarySet. split; [left|]. split; [reflexivity|]. split; [discriminate|].
      simpl. lia.
    + constructor.
    + discriminate.
  - apply (peek_below_all_generations (-1) (-3) (-4) theTxsTag (fun _ _ => 0)
             systemWithHistory 7 50 theTxsTag true).
    + discriminate.
    + exists primarySet. split; [left|]. split; [reflexivity|]. split; [discriminate|].
      simpl. lia.
    + constructor; [|constructor; [|constructor]].
      * exists (olderSet 100). split; [left|]. split; [reflexivity|].
        split; [discriminate|]. simpl. lia.
      * exists (olderSet 150). split; [left|]. split; [reflexivity|].
        split; [discriminate|]. simpl. lia.
    + reflexivity.
Defined.

(** C6 as stated fails: the peek of a storage tag below every generation
    returns an empty cursor instead of failing with [WorkerRemoved], and
    the peek of [txsTag] returns the cursor over the current generation
    instead of an empty one. *)
Lemma peek_below_history_not_fatal :
  peek (-1) (-3) (-4) theTxsTag (fun _ _ => 0) systemNoHistory 7 50 storageTag true
    <> Throw worker_removed
  /\ peek (-1) (-3) (-4) theTxsTag (fun _ _ => 0) systemNoHistory 7 50 theTxsTag true
     = Ok (MultiCursor [SetPeekCursor [primarySet] 0 0 theTxsTag 200 INT64_MAX true] []).
Proof. split; [discriminate|reflexivity]. Qed.

(** C10 on the system published for a new database. *)
Lemma peek_systemNoSets :
  peek (-1) (-3) (-4) theTxsTag (fun _ _ => 0) systemNoSets 7 50 storageTag true
    = Ok (ServerPeekCursor None storageTag 50 1 false false).
Proof.
  apply (peek_nothing_to_read (-1) (-3) (-4) theTxsTag theInvalidTag (fun _ _ => 0)
           systemNoSets 7 50 storageTag true).
  reflexivity.
Defined.

(** C9 at [upTo = 0] and [upTo = -3]. *)
Lemma pop_of_nothing :
  pop (-3) (-99) systemNoHistory (-3) storageTag 5 (-99) = Ok systemNoHistory
  /\ popLogRouter systemNoHistory 0 storageTag 5 0 = systemNoHistory.
Proof.
  apply (pop_nonpositive_returns (-3) (-99) systemNoHistory (-3) storageTag 5 (-99)). lia.
Defined.

(** C4 on S4: one task, which sends 10 and then 15 and returns. *)
Lemma pop_S4 :
  let w := popAct (-3) (-99) (popRun (-3) (-99) scenarioS4 worldOneServer)
             (Resume 0 (DelayElapsed true)) in
  List.map isLive (actors (world_system w)) = [false]
  /\ outstandingPops (world_system w) = ∅
  /\ sentBy 0 (wire w) = [10; 15]
  /\ StronglySorted Z.lt (sentBy 0 (wire w)).
Proof.
  split; [reflexivity|]. split; [reflexivity|]. split; [reflexivity|].
  apply (pop_coalescing (-3) (-99) scenarioS4 (Resume 0 (DelayElapsed true)) worldOneServer).
  - reflexivity.
  - reflexivity.
  - reflexivity.
  - repeat constructor.
Defined.

(** C4 as stated fails: once a task has returned and erased its entry, a
    later pop to a lower version installs the lower [upTo] and a new task
    sends it, so the values sent to the server for the tag are 10, then 5. *)
Lemma pop_lower_after_completion :
  let w1 := popRun (-3) (-99) (take 1 scenarioLowerPop) worldOneServer in
  let w := popRun (-3) (-99) scenarioLowerPop worldOneServer in
  outstandingPops (world_system w1) !! (1, storageTag) = Some (10, 5)
  /\ outstandingPops (world_system w) !! (1, storageTag) = Some (5, 4)
  /\ sentTo 1 storageTag (wire w) = [10; 5]
  /\ ~ StronglySorted Z.lt (sentTo 1 storageTag (wire w)).
Proof.
  split; [reflexivity|]. split; [reflexivity|]. split; [reflexivity|].
  intros H. change (StronglySorted Z.lt [10; 5]) in H.
  inversion H as [|? ? _ Hall]; subst. inversion Hall as [|? ? Hlt _]; subst. lia.
Qed.

(** C8 on the core state of a new database. *)
Lemma epochEnd_newDatabaseState :
  exists logSystem,
    tLogs logSystem = []
    /\ epochEndVersion logSystem = Some 0
    /\ knownCommittedVersion logSystem = 0
    /\ stopped logSystem = true
    /\ eq_itree eq
         (epochEnd (fun _ _ => false) (fun _ _ _ _ _ => true) false 0 5 77 (-1) (-4)
            1 newDatabaseState 0)
         (Vis (SetOutLogSystem logSystem)
            (fun _ => Vis WaitNever (fun v : Empty_set => match v with end)))
    /\ forall r : unit,
         ~ Leaf r (epochEnd (fun _ _ => false) (fun _ _ _ _ _ => true) false 0 5 77 (-1) (-4)
                     1 newDatabaseState 0).
Proof.
  apply (epochEnd_new_database (fun _ _ => false) (fun _ _ _ _ _ => true) false 0 5 77
           (-1) (-4) 1 newDatabaseState 0).
  reflexivity.
Defined.

(** C5 on S1: the old lock result of the primary locality is not current;
    its replies are all pending at first, and once they have arrived
    [getDurableVersion] resolves to [(100, 100)], so the start version becomes
    [min(101, 150, 200) = 101], which is at most [199 + 1]. *)
Lemma newEpoch_startVersion_S1 :
  newEpoch_startVersion (fun _ _ => false) (fun _ _ _ _ _ => true) false 0 5
    stoppedSystem 0 [repliesS1] = Ok (Some 101)
  /\ 101 <= 199 + 1.
Proof.
  pose proof (newEpoch_startVersion_bounded (fun _ _ => false) (fun _ _ _ _ _ => true)
                false 0 5 stoppedSystem 0 [repliesS1]) as (_ & Hlowered & _ & Hbound & _).
  assert (Hres : newEpoch_startVersion (fun _ _ => false) (fun _ _ _ _ _ => true) false 0 5
                   stoppedSystem 0 [repliesS1] = Ok (Some 101)).
  { apply Hlowered.
    exists oldLock, [[Pending; Pending; Pending]], repliesS1, [], (100, 100).
    split; [reflexivity|]. split; [reflexivity|]. split; [reflexivity|].
    split; [repeat constructor|]. split; reflexivity. }
  split; [exact Hres|].
  apply (Hbound 101 Hres).
  unfold int64, INT64_MIN, INT64_MAX. simpl. lia.
Defined.

(** S1: [R = 3], [A = 0], ends [100, 100, 102] and known committed versions
    [99, 99, 100] give the durable pair [(100, 100)]. *)
Lemma getDurableVersion_S1 :
  getDurableVersion (fun _ _ => false) (fun _ _ _ _ _ => true) false 0 5
    0 (set_replies repliesS1 lockInfoS3) [false; false; false] None = Ok (Some (100, 100)).
Proof. reflexivity. Qed.

(** * Further scenarios: the further properties at concrete inputs *)

(** The parameters of S2 are well formed, since [getDurableVersion] answers;
    with only two of the four reply slots the call has no defined result. *)
Lemma getDurableVersion_S2_wellformed :
  ((1 <= tLogReplicationFactor (lock_logSet lockInfoS2)
      <= Z.of_nat (length (logServers (lock_logSet lockInfoS2)))
    /\ 0 <= tLogWriteAntiQuorum (lock_logSet lockInfoS2)
         < tLogReplicationFactor (lock_logSet lockInfoS2))
   /\ length (replies lockInfoS2) = length (logServers (lock_logSet lockInfoS2)))
  /\ getDurableVersion (fun _ _ => false) (fun _ _ _ _ _ => true) false 0 5
       0 (set_replies (take 2 (replies lockInfoS2)) lockInfoS2) [] None = Undefined.
Proof.
  split.
  - exact (proj1 (getDurableVersion_answers_only_wellformed
                    (fun _ _ => false) (fun _ _ _ _ _ => true) false 0 5
                    0 lockInfoS2 [] None) (Some (55, 60)) eq_refl).
  - apply (getDurableVersion_answers_only_wellformed
             (fun _ _ => false) (fun _ _ _ _ _ => true) false 0 5
             0 (set_replies (take 2 (replies lockInfoS2)) lockInfoS2) [] None).
    + simpl. lia.
    + simpl. lia.
Defined.

(** The responses of S3: one result, two unresponsive servers. *)
Lemma respondedServers_S3_partition :
  (length (results responsesS3) + length (unResponsiveSet responsesS3))%nat
  = length (logServers (lock_logSet lockInfoS3))
  /\ length (availableItems responsesS3) = length (results responsesS3)
  /\ forall r, r ∈ results responsesS3 <->
       exists t, (t < length (logServers (lock_logSet lockInfoS3)))%nat
                 /\ replies lockInfoS3 !! t = Some (Ready r)
                 /\ ([false; false; false] = [] \/ [false; false; false] !! t = Some false).
Proof.
  exact (respondedServers_partition lockInfoS3 [false; false; false] responsesS3 eq_refl).
Defined.

(** The pair of S2: one responded end below 60, two at or below, and a
    known committed version of 55. *)
Lemma getDurableVersion_S2_sound :
  exists p,
    respondedServers lockInfoS2 [] = Ok p
    /\ (exists r, r ∈ results p /\ end_ r = 60)
    /\ Z.of_nat (length (filter (fun x => end_ x < 60) (results p)))
       <= tLogWriteAntiQuorum (lock_logSet lockInfoS2)
    /\ tLogWriteAntiQuorum (lock_logSet lockInfoS2)
       < Z.of_nat (length (filter (fun x => end_ x <= 60) (results p)))
    /\ (forall r, r ∈ results p -> lock_knownCommittedVersion r <= 55)
    /\ vsub 60 (lifeVersions false 0 5) <= 55.
Proof.
  exact (getDurableVersion_pair_sound
           (fun _ _ => false) (fun _ _ _ _ _ => true) false 0 5
           0 lockInfoS2 [] None 55 60 eq_refl).
Defined.

(** Sorting the replies of S2 by hand gives what [sort_results] gives. *)
Lemma sort_order_immaterial_S2 :
  (forall i, end_ <$> sortedS2 !! i = end_ <$> sort_results repliesS2 !! i)
  /\ forall init, maxKnownCommitted init sortedS2
                  = maxKnownCommitted init (sort_results repliesS2).
Proof.
  apply (sort_order_immaterial repliesS2 sortedS2).
  - unfold sortedS2, repliesS2.
    apply (Permutation_trans (l' := [mkTLogLockResult 50 40; mkTLogLockResult 70 48;
                                     mkTLogLockResult 80 49; mkTLogLockResult 60 45]));
      [|apply perm_swap].
    apply perm_skip.
    apply (Permutation_trans (l' := [mkTLogLockResult 70 48; mkTLogLockResult 60 45;
                                     mkTLogLockResult 80 49]));
      [apply perm_swap|].
    apply perm_skip. apply perm_swap.
  - unfold sortedS2. repeat constructor; unfold sort_by_end; simpl; lia.
Defined.

(** Read as an old configuration, [systemWithRemote] becomes its old
    generation. *)
Lemma fromOldLogSystemConfig_systemWithRemote :
  exists L',
    fromOldLogSystemConfig 0 1 0 (getLogSystemConfig systemWithRemote) = Ok L'
    /\ tLogs L' = old_tLogs oldGeneration
    /\ logRouterTags L' = old_logRouterTags oldGeneration
    /\ oldLogData L' = []
    /\ stopped L' = true.
Proof.
  exact (fromOldLogSystemConfig_promotes 0 1 0 systemWithRemote oldGeneration []
           eq_refl eq_refl eq_refl).
Defined.

(** The unwritten remote set of [systemRemoteUnwritten] is not exported. *)
Lemma remote_sets_left_out_unwritten :
  Forall (fun t => conf_isLocal t = true)
    (lsConf_tLogs (getLogSystemConfig systemRemoteUnwritten)).
Proof.
  apply Forall_forall.
  exact (proj1 (remote_sets_left_out (fun _ l => l) 0 1 0 systemRemoteUnwritten
                  (getLogSystemConfig systemWithRemote) systemWithRemote) eq_refl).
Defined.

(** The core state of [systemWithRemote], whose recovery is not complete. *)
Lemma toCoreState_systemWithRemote :
  exists written,
    toCoreState (fun interf => interf) systemWithRemote newDatabaseState = Ok written
    /\ (forall coreSet, coreSet ∈ prev_tLogs written -> core_tLogs coreSet <> [])
    /\ List.map oldLogDataOfCore (prev_oldTLogData written) = [oldGeneration].
Proof.
  eexists. split; [reflexivity|].
  pose proof (toCoreState_written (fun interf => interf) systemWithRemote newDatabaseState
                _ eq_refl) as (H1 & _ & _ & H4).
  split; [exact H1|]. exact (H4 eq_refl).
Defined.

(** Once that core state is written, both sets of [systemWithRemote] are
    exported. *)
Lemma written_core_state_systemWithRemote :
  exists written,
    toCoreState (fun interf => interf) systemRemoteUnwritten newDatabaseState = Ok written
    /\ forall t, t ∈ tLogs systemRemoteUnwritten -> logServers t <> [] ->
         tLogSetOfLogSet t
         ∈ lsConf_tLogs (getLogSystemConfig (coreStateWritten systemRemoteUnwritten written)).
Proof.
  eexists. split; [reflexivity|].
  exact (proj1 (written_core_state_exports (fun interf => interf) systemRemoteUnwritten
                  newDatabaseState _ eq_refl)).
Defined.

(** A push on [systemWithAntiQuorum]: the remote set comes first and gets
    nothing; the three servers of the local set get locations 0, 1, 2. *)
Lemma push_systemWithAntiQuorum :
  exists sent result,
    push systemWithAntiQuorum 9 10 8 (fun location => [Z.of_nat location]) None
      twoOfThreeReplied = Ok (sent, result)
    /\ length sent = 3%nat
    /\ sent !! 2%nat = Some (3, mkTLogCommitRequest 9 10 8 [2] None).
Proof.
  eexists. eexists. split; [reflexivity|].
  destruct (push_requests_by_location systemWithAntiQuorum 9 10 8
              (fun location => [Z.of_nat location]) None twoOfThreeReplied _ _ eq_refl)
    as [Hlen Hsent].
  split; [exact Hlen|].
  destruct (Hsent 1%nat antiQuorumSet 2%nat (mkOptionalInterface 3 (Some 3))
              eq_refl eq_refl eq_refl) as (interf & Hi & Hs).
  injection Hi as <-. exact Hs.
Defined.

(** S5: the two cursors cover 1000 down to 100 through the generation
    boundary at 200. *)
Lemma peekAll_S5 :
  exists bottom,
    chainBottom 1000 cursorsS5 = Some bottom
    /\ Z.min 100 1000 <= bottom
    /\ (storageTag <> theTxsTag -> bottom = Z.min 100 1000)
    /\ (length [200] <= length cursorsS5 <= length [200] + 1)%nat
    /\ endsOf (drop (length cursorsS5 - length [200]) cursorsS5) [200].
Proof.
  exact (peekAll_covers (-1) (-4) theTxsTag (fun _ _ => 0) systemWithRemote 1 100 1000
           storageTag false false (MultiCursor cursorsS5 [200]) eq_refl).
Defined.

Lemma no_special_set (sets : list LogSet) (tag : Tag) :
  forallb (fun log => negb (set_locality log =? -1)) sets = true ->
  forall log, log ∈ sets -> localBestFor (-1) (-2) (-4) tag log = true ->
              set_locality log <> -1.
Proof.
  intros H log Hin _. rewrite forallb_forall in H.
  apply list_elem_of_In, H in Hin. apply negb_true_iff, Z.eqb_neq in Hin. exact Hin.
Qed.

(** S5 through [peekLocal]: one server of the current set from 200, the
    servers of the old set from 100 to 200. *)
Lemma peekLocal_S5 :
  match peekLocal (-1) (-2) (-4) theTxsTag (fun _ _ => 0) systemWithRemote 1 storageTag
          100 1000 with
  | Ok (MultiCursor cursors epochEnds) =>
      chainBottom 1000 cursors = Some (Z.min 100 1000)
      /\ (length epochEnds <= length cursors <= length epochEnds + 1)%nat
      /\ endsOf (drop (length cursors - length epochEnds) cursors) epochEnds
  | Ok (ServerPeekCursor server tag' begin' end'' _ _) =>
      tag' = storageTag /\ begin' = 100
      /\ ((server = None /\ end'' = getPeekEnd systemWithRemote
           /\ List.find (localBestFor (-1) (-2) (-4) storageTag) (tLogs systemWithRemote)
              = None)
          \/ (exists best s,
                List.find (localBestFor (-1) (-2) (-4) storageTag) (tLogs systemWithRemote)
                = Some best
                /\ startVersion best <= 100
                /\ server = Some s /\ s ∈ logServers best /\ end'' = 1000))
  | Ok _ => False
  | Throw e => e = worker_removed
  | Undefined =>
      exists best,
        List.find (localBestFor (-1) (-2) (-4) storageTag) (tLogs systemWithRemote)
        = Some best
        /\ bestServerOf (fun _ _ => 0) best storageTag = Undefined
  end.
Proof.
  apply (peekLocal_covers (-1) (-2) (-4) theTxsTag (fun _ _ => 0) systemWithRemote 1
           storageTag 100 1000).
  - apply no_special_set. reflexivity.
  - repeat constructor. apply no_special_set. reflexivity.
Defined.

(** Without history, [peekLocal] from below the current generation throws. *)
Lemma peekLocal_systemNoHistory :
  peekLocal (-1) (-2) (-4) theTxsTag (fun _ _ => 0) systemNoHistory 1 storageTag 100 1000
  = Throw worker_removed.
Proof.
  apply (peekLocal_exhausted (-1) (-2) (-4) theTxsTag (fun _ _ => 0) systemNoHistory 1
           storageTag 100 1000 primarySet).
  - reflexivity.
  - simpl; lia.
  - simpl; lia.
  - simpl; lia.
  - constructor.
Defined.

(** [peekSingle] from 250: the history entry at 200 is not read. *)
Lemma peekSingle_stale_entry :
  peekSingle (-1) (-2) (-4) theTxsTag (fun _ _ => 0) systemWithRemote 1 250 storageTag
    (tagHistory ++ staleHistory)
  = peekSingle (-1) (-2) (-4) theTxsTag (fun _ _ => 0) systemWithRemote 1 250 storageTag
      tagHistory
  /\ peekSingle (-1) (-2) (-4) theTxsTag (fun _ _ => 0) systemWithRemote 1 250 storageTag
       staleHistory
     = peekLocal (-1) (-2) (-4) theTxsTag (fun _ _ => 0) systemWithRemote 1 storageTag 250
         (getPeekEnd systemWithRemote).
Proof.
  destruct (peekSingle_history (-1) (-2) (-4) theTxsTag (fun _ _ => 0) systemWithRemote 1
              250 storageTag tagHistory staleHistory) as (H1 & H2 & _).
  - repeat constructor. simpl. lia.
  - split; [exact H1|exact H2].
Defined.

(** The router 6 of the stopped system reads what is local there
    (nothing) up to the end of the epoch; no generation of
    [systemWithRemote] lists a router 9. *)
Lemma peekLogRouter_known_and_unknown :
  (exists best server,
     peekLogRouter (-1) (-4) (fun _ _ => 0) stoppedSystem 6 100 storageTag
     = Ok (SetPeekCursor
             (List.filter (fun log => isLocal log && nonEmpty (logServers log))
                (tLogs stoppedSystem))
             best server storageTag 100 (getPeekEnd stoppedSystem) false))
  /\ peekLogRouter (-1) (-4) (fun _ _ => 0) systemWithRemote 9 100 storageTag
     = Ok (emptyCursor systemWithRemote storageTag 100).
Proof.
  split.
  - exact (proj1 (proj2 (peekLogRouter_cases (-1) (-4) (fun _ _ => 0) stoppedSystem 6 100
                           storageTag)) eq_refl eq_refl).
  - destruct (proj2 (proj2 (peekLogRouter_cases (-1) (-4) (fun _ _ => 0) systemWithRemote
                              9 100 storageTag)) eq_refl)
      as [[_ H]|(older & old & rest & best & server & _ & _ & _ & H)]; [exact H|].
    vm_compute in H. discriminate H.
Defined.

(** A peek of two tags merges the two single-tag peeks. *)
Lemma peekTags_two_tags :
  exists c cursors,
    peekTags (-1) (-3) (-4) theTxsTag theInvalidTag (fun _ _ => 0) systemNoHistory 1 300
      [storageTag; theTxsTag] false = Ok c
    /\ c = MergedPeekCursorOver cursors 300 false
    /\ Forall2 (fun tag cursor =>
                  peek (-1) (-3) (-4) theTxsTag (fun _ _ => 0) systemNoHistory 1 300 tag false
                  = Ok cursor) [storageTag; theTxsTag] cursors.
Proof.
  eexists.
  destruct (peekTags_merges (-1) (-3) (-4) theTxsTag theInvalidTag (fun _ _ => 0)
              systemNoHistory 1 300 [storageTag; theTxsTag] false _
              ltac:(simpl; lia) eq_refl) as (cursors & Hc & Hall).
  exists cursors. split; [reflexivity|]. split; [exact Hc|exact Hall].
Defined.

(** [pop(10)] of [storageTag] on the single-server system records
    [(10, 5)] for server 1 and starts one task. *)
Lemma pop_records_one_server :
  (forall key,
     outstandingPops systemPopped !! key
     = if bool_decide (key ∈ List.map (fun h => (ident h, storageTag))
                               (popTargets (-3) (world_system worldOneServer) storageTag
                                  (-99)))
       then Some (raised 10 5 (outstandingPops (world_system worldOneServer) !! key))
       else outstandingPops (world_system worldOneServer) !! key)
  /\ exists added,
       actors systemPopped = actors (world_system worldOneServer) ++ added
       /\ NoDup (List.map taskKey added)
       /\ forall t, t ∈ added <->
            exists h, h ∈ popTargets (-3) (world_system worldOneServer) storageTag (-99)
                      /\ unpopped (outstandingPops (world_system worldOneServer))
                           (ident h, storageTag)
                      /\ t = mkPopTask (ident h) storageTag (popTime (-3) storageTag) 0
                               Delaying.
Proof.
  apply (pop_records (-3) (-99) (world_system worldOneServer) 10 storageTag 5 (-99)
           systemPopped).
  - lia.
  - vm_compute. reflexivity.
Defined.

(** A [pop(7)] right after the [pop(10)] changes nothing. *)
Lemma pop_absorbs_lower :
  pop (-3) (-99) systemPopped 7 storageTag 3 (-99) = Ok systemPopped.
Proof.
  apply (proj2 (pop_absorbs (-3) (-99) systemPopped 7 storageTag 3 (-99))
           (world_system worldOneServer) 10 5).
  - lia.
  - lia.
  - vm_compute. reflexivity.
Defined.

(** The request for version 10 fails; the later [pop(20)] sends server 1
    nothing more for [storageTag]. *)
Lemma pop_after_failure_is_silent :
  sentTo 1 storageTag
    (wire (popRun (-3) (-99)
             (Resume 0 (ReplySettled (Failed broken_promise)) :: scenarioAfterFailure)
             (popRun (-3) (-99) scenarioPopUntilSent worldOneServer)))
  = sentTo 1 storageTag (wire (popRun (-3) (-99) scenarioPopUntilSent worldOneServer)).
Proof.
  apply (pop_abandoned_key_is_silent (-3) (-99) scenarioPopUntilSent worldOneServer 0
           taskAwaiting (ReplySettled (Failed broken_promise)) scenarioAfterFailure).
  - reflexivity.
  - reflexivity.
  - reflexivity.
  - repeat constructor.
  - vm_compute. reflexivity.
  - vm_compute. exact I.
Defined.

(** The first request of S4 carries the pair of the first call. *)
Lemma pop_S4_first_request_asked :
  (storageTag, 10, 5) ∈ asked scenarioS4.
Proof.
  apply (pop_requests_were_asked (-3) (-99) scenarioS4 worldOneServer 0 1
           (mkTLogPopRequest 10 5 storageTag)).
  - reflexivity.
  - reflexivity.
  - reflexivity.
  - vm_compute. left.
Defined.


(** Server 1 rejoins: its handle keeps the id and the endpoint it had. *)
Lemma trackRejoins_server_one :
  List.map ident
    (rejoin_logServers
       (rejoinRun (fun interf => interf) (fun interf => interf) rejoinRequests
          (trackRejoins (logServers primarySet))))
  = List.map ident (logServers primarySet)
  /\ exists interf,
       rejoin_logServers
         (rejoin (fun interf => interf) (fun interf => interf)
            (trackRejoins (logServers primarySet)) 1)
       = <[0%nat := mkOptionalInterface 1 (Some interf)]> (logServers primarySet)
       /\ interf = 1.
Proof.
  destruct (trackRejoins_handles (fun interf => interf) (fun interf => interf)
              (logServers primarySet) rejoinRequests) as [Hids Hstep].
  split; [exact Hids|].
  exact (Hstep (trackRejoins (logServers primarySet)) 1 0%nat (mkOptionalInterface 1 (Some 1))
           eq_refl).
Defined.
